(** * flowcraft: the graph store, the validator, the schema codec and the zoom
    gesture, embedded from [src/types/flow.ts], [src/hooks/useFlowStore.ts]
    (the store, and after it the text of [utils/flow.ts]: id helpers,
    [buildExportedFlow], [validateFlow], [importFlow], and the text of
    [Toolbar.tsx]), [src/App.tsx], [src/components/Canvas.tsx],
    [src/components/NodeInspector.tsx], [src/components/EdgeEditor.tsx] and
    [src/components/Sidebar.tsx].

    Conventions of the embedding.
    - A JavaScript string is a [string] holding the bytes of its UTF-8
      encoding (which is what a string literal of this file holds); [===] on
      strings is Leibniz equality, decided by [decide].
    - An [EdgeParameters] object (string keys, string values) is a
      [gmap string string]; [Object.keys(p).length] is [size p].
    - Canvas coordinates of stored nodes are integers ([Z]): every position that
      enters the store went through [snapToGrid]. On [Z], [snapToGrid] is what
      the code computes in binary64 for a safe integer, one of magnitude below
      2^53 (proved in [GridFacts] against [snapToGrid_binary64]); fractional
      and larger coordinates are not modelled, and what is stated of
      [snapToGrid]'s values is stated of safe integers ([safe_integer]).
    - The viewport zoom is an IEEE 754 binary64 number, Rocq's primitive
      [float], whose operations are the ones JavaScript numbers have.
    - A React state update [setState(prev => next)] is the function from
      [prev] to [next]. *)

From Stdlib Require Import ZArith Floats Ascii String.
From stdpp Require Import base decidable option list strings gmap pretty.

Set Default Proof Using "Type".
Set Warnings "-register-all,-inexact-float,-clear-no-such-hyp".
Local Open Scope string_scope.
Local Open Scope list_scope.
Local Open Scope nat_scope.

(** ** Data model ([src/types/flow.ts]) *)

Module FlowEdge.
Record t : Type := mk {
  id : string;                      (* internal only, not exported *)
  toNodeId : string;
  condition : string;
  parameters : gmap string string
}.
End FlowEdge.

Module FlowNode.
Record t : Type := mk {
  id : string;
  description : string;
  prompt : string;
  edges : list FlowEdge.t;
  x : Z;
  y : Z
}.
End FlowNode.

Module FlowState.
Record t : Type := mk {
  nodes : list FlowNode.t;
  startNodeId : option string       (* [None] is JavaScript's [null] *)
}.
End FlowState.

(** [Partial<Pick<FlowNode, "id" | "description" | "prompt">>]: an absent key is
    [None]. *)
Module NodePatch.
Record t : Type := mk {
  id : option string;
  description : option string;
  prompt : option string
}.

(** [{ ...n, ...patch }] *)
Definition spread (n : FlowNode.t) (patch : t) : FlowNode.t :=
  FlowNode.mk
    (default (FlowNode.id n) (id patch))
    (default (FlowNode.description n) (description patch))
    (default (FlowNode.prompt n) (prompt patch))
    (FlowNode.edges n) (FlowNode.x n) (FlowNode.y n).
End NodePatch.

(** [Partial<FlowEdge>] *)
Module EdgePatch.
Record t : Type := mk {
  id : option string;
  toNodeId : option string;
  condition : option string;
  parameters : option (gmap string string)
}.

(** [{ ...e, ...patch }] *)
Definition spread (e : FlowEdge.t) (patch : t) : FlowEdge.t :=
  FlowEdge.mk
    (default (FlowEdge.id e) (id patch))
    (default (FlowEdge.toNodeId e) (toNodeId patch))
    (default (FlowEdge.condition e) (condition patch))
    (default (FlowEdge.parameters e) (parameters patch)).
End EdgePatch.

(** A string used as a condition ([newId && ...], [!edge.toNodeId]) is truthy
    when it is not the empty string; [undefined] and [null] are falsy. *)
Definition truthy (s : option string) : bool :=
  match s with
  | Some s => negb (String.eqb s "")
  | None => false
  end.

(** ** The graph store ([useFlowStore]) *)

Module Store.
Import FlowState.

Definition with_edges (n : FlowNode.t) (es : list FlowEdge.t) : FlowNode.t :=
  FlowNode.mk (FlowNode.id n) (FlowNode.description n) (FlowNode.prompt n)
    es (FlowNode.x n) (FlowNode.y n).

Definition retarget (e : FlowEdge.t) (to : string) : FlowEdge.t :=
  FlowEdge.mk (FlowEdge.id e) to (FlowEdge.condition e) (FlowEdge.parameters e).

Definition deleteNode (id : string) (prev : t) : t :=
  {| nodes :=
       (λ n, with_edges n (filter (λ e, FlowEdge.toNodeId e ≠ id) (FlowNode.edges n)))
         <$> filter (λ n, FlowNode.id n ≠ id) (nodes prev);
     startNodeId :=
       if decide (startNodeId prev = Some id) then None else startNodeId prev |}.

Definition updateNode (id : string) (patch : NodePatch.t) (prev : t) : t :=
  let newId := NodePatch.id patch in
  let nodes' :=
    (λ n,
       (* Update the node itself *)
       if decide (FlowNode.id n = id) then NodePatch.spread n patch
       else
         (* Update edge references if ID changed *)
         match newId with
         | Some new =>
             if truthy newId
                && existsb (λ e, bool_decide (FlowEdge.toNodeId e = id)) (FlowNode.edges n)
             then with_edges n
                    ((λ e, if decide (FlowEdge.toNodeId e = id) then retarget e new else e)
                       <$> FlowNode.edges n)
             else n
         | None => n
         end) <$> nodes prev in
  {| nodes := nodes';
     startNodeId :=
       if truthy newId && bool_decide (startNodeId prev = Some id)
       then newId else startNodeId prev |}.

Definition setStartNode (id : string) (prev : t) : t :=
  {| nodes := nodes prev; startNodeId := Some id |}.

(** [addEdge] and [connectNodes] take the edge id that [generateEdgeId]
    returned just before the state update. *)
Definition append_edge (nodeId : string) (edge : FlowEdge.t) (prev : t) : t :=
  {| nodes :=
       (λ n, if decide (FlowNode.id n = nodeId)
             then with_edges n (FlowNode.edges n ++ [edge]) else n) <$> nodes prev;
     startNodeId := startNodeId prev |}.

Definition addEdge (edgeId : string) (nodeId : string) (prev : t) : t :=
  append_edge nodeId (FlowEdge.mk edgeId "" "" ∅) prev.

Definition connectNodes (edgeId : string) (fromId toId : string) (prev : t) : t :=
  append_edge fromId (FlowEdge.mk edgeId toId "default" ∅) prev.

Definition updateEdge (nodeId edgeId : string) (patch : EdgePatch.t) (prev : t) : t :=
  {| nodes :=
       (λ n, if decide (FlowNode.id n = nodeId)
             then with_edges n
                    ((λ e, if decide (FlowEdge.id e = edgeId)
                           then EdgePatch.spread e patch else e)
                       <$> FlowNode.edges n)
             else n) <$> nodes prev;
     startNodeId := startNodeId prev |}.

Definition deleteEdge (nodeId edgeId : string) (prev : t) : t :=
  {| nodes :=
       (λ n, if decide (FlowNode.id n = nodeId)
             then with_edges n (filter (λ e, FlowEdge.id e ≠ edgeId) (FlowNode.edges n))
             else n) <$> nodes prev;
     startNodeId := startNodeId prev |}.

Definition loadFlow (ns : list FlowNode.t) (sid : option string) (_ : t) : t :=
  {| nodes := ns; startNodeId := sid |}.
End Store.

(** ** ID helpers and grid ([utils/flow.ts]) *)

(** Code that draws ids reads and writes the module-level [_counter]; code that
    can also throw ends with the exception or with a value. [M A] is a
    computation over the counter. *)
Inductive Exn : Type :=
  | SyntaxError                  (* thrown by [JSON.parse] *)
  | TypeError                    (* a property read on [null], a call of a non-function *)
  | Error (message : string).    (* [throw new Error(message)] *)

Definition M (A : Type) : Type := nat → (Exn + A) * nat.

Definition throw {A} (e : Exn) : M A := λ c, (inl e, c).

Global Instance M_ret : MRet M := λ A a c, (inr a, c).
Global Instance M_bind : MBind M := λ A B k m c,
  match m c with
  | (inr a, c') => k a c'
  | (inl e, c') => (inl e, c')
  end.

(** [xs.map((x, i) => f(i, x))] with an effectful callback, elements in order
    from index [i]. *)
Fixpoint mapM_from {A B} (f : nat → A → M B) (i : nat) (xs : list A) : M (list B) :=
  match xs with
  | [] => mret []
  | x :: xs' => y ← f i x ; ys ← mapM_from f (S i) xs' ; mret (y :: ys)
  end.

Definition generateNodeId : M string :=
  λ counter, (inr ("node_" +:+ pretty (S counter)), S counter).
Definition generateEdgeId : M string :=
  λ counter, (inr ("edge_" +:+ pretty (S counter)), S counter).

Definition GRID : Z := 20.

(** [Math.round(v / GRID) * GRID] at an integer [v]: [Math.round] rounds to the
    nearest integer, a half going up. The code computes in binary64
    ([snapToGrid_binary64] below); at a safe integer (magnitude below 2^53)
    its quotient rounds to this integer and its product is exact, so the
    result is this one ([GridFacts.snapToGrid_binary64_exact]). Beyond that
    the code's result can differ (at 2^60 it is 2^60), and the code also
    takes fractions. *)
Definition snapToGrid (v : Z) : Z := ((2 * v + GRID) / (2 * GRID) * GRID)%Z.

(** The same expression on binary64 numbers, as the code evaluates it.
    [Number_of_Z v] is the Number nearest to the integer [v] (of magnitude
    below 2^63); it is [v] itself when [v] is a safe integer. *)
Definition Number_of_Z (v : Z) : float :=
  if (v <? 0)%Z then (- of_uint63 (Uint63.of_Z (- v)))%float
  else of_uint63 (Uint63.of_Z v).

(** [Math.round(x)]: [x] itself when it is not finite or is an integer (a
    finite number whose exponent is not negative is one); otherwise the
    integer [floor(x + 1/2)], computed exactly, as a Number, which is [+0] or
    [-0] by the sign of [x] when that integer is zero. *)
Definition Math_round (x : float) : float :=
  match Prim2SF x with
  | S754_finite s m e =>
      if (0 <=? e)%Z then x
      else
        let n := (((if s then Z.neg m else Z.pos m) * 2 + 2 ^ (- e)) / 2 ^ (1 - e))%Z in
        if (n =? 0)%Z then (if s then (-0)%float else 0%float) else Number_of_Z n
  | _ => x
  end.

Definition snapToGrid_binary64 (v : float) : float := (Math_round (v / 20) * 20)%float.

(** The integer that a Number is, if it is one. *)
Definition integer_of (x : float) : option Z :=
  match Prim2SF x with
  | S754_zero _ => Some 0%Z
  | S754_finite s m e =>
      let n := if s then Z.neg m else Z.pos m in
      if (0 <=? e)%Z then Some (n * 2 ^ e)%Z
      else if (n mod 2 ^ (- e) =? 0)%Z then Some (n / 2 ^ (- e))%Z else None
  | _ => None
  end.

(** ** JSON values *)

(** What [JSON.parse] returns. The own properties of an object are an
    association list; a key is read at its first entry. *)
Inductive json : Type :=
  | JNull
  | JBool (b : bool)
  | JNumber (v : float)
  | JString (s : string)
  | JArray (items : list json)
  | JObject (fields : list (string * json)).

Fixpoint assoc {A} (key : string) (fields : list (string * A)) : option A :=
  match fields with
  | [] => None
  | (k, v) :: rest => if decide (k = key) then Some v else assoc key rest
  end.

(** [v.key] for the keys the importer reads ([nodes], [start_node_id], [id],
    [description], [prompt], [edges], [to_node_id], [condition], [parameters]),
    none of which a prototype defines: reading it from [null] throws, from an
    object gives the own property or [undefined] ([None]), from any other value
    gives [undefined]. *)
Definition get (key : string) (v : json) : M (option json) :=
  match v with
  | JNull => throw TypeError
  | JObject fields => mret (assoc key fields)
  | _ => mret None
  end.

(** Truthiness of a value that may be [undefined]. *)
Definition js_truthy (v : option json) : bool :=
  match v with
  | None | Some JNull => false
  | Some (JBool b) => b
  | Some (JNumber v) => negb (PrimFloat.eqb v 0 || PrimFloat.is_nan v)
  | Some (JString s) => negb (String.eqb s "")
  | Some (JArray _) | Some (JObject _) => true
  end.

Definition isArray (v : option json) : bool :=
  match v with Some (JArray _) => true | _ => false end.

(** [v ?? w], where [w] may be [undefined] too, and [v ?? d] for a value [d]. *)
Definition coalesce (v w : option json) : option json :=
  match v with
  | None | Some JNull => w
  | Some _ => v
  end.

Definition nullish_or (v : option json) (d : json) : json :=
  default d (coalesce v (Some d)).

(** [v || k()] *)
Definition truthy_or (v : option json) (k : M json) : M json :=
  match v with
  | Some v' => if js_truthy v then mret v' else k
  | None => k
  end.

(** The double quote character, for messages that quote an id. *)
Definition dquote : string := String "034"%char "".

(** ** Schema codec: export ([buildExportedFlow]) *)

Module ExportedEdge.
Record t : Type := mk {
  to_node_id : string;
  condition : string;
  parameters : option (gmap string string)   (* [parameters?:], [None] when the key is absent *)
}.
End ExportedEdge.

Module ExportedNode.
Record t : Type := mk {
  id : string;
  description : string;
  prompt : string;
  edges : list ExportedEdge.t
}.
End ExportedNode.

Module ExportedFlow.
Record t : Type := mk {
  start_node_id : option string;
  nodes : list ExportedNode.t
}.
End ExportedFlow.

(** The two arrow functions of [buildExportedFlow], named. *)
Definition exportedEdge (e : FlowEdge.t) : ExportedEdge.t :=
  {| ExportedEdge.to_node_id := FlowEdge.toNodeId e;
     ExportedEdge.condition := FlowEdge.condition e;
     ExportedEdge.parameters :=
       if decide (0 < size (FlowEdge.parameters e))
       then Some (FlowEdge.parameters e) else None |}.

Definition exportedNode (n : FlowNode.t) : ExportedNode.t :=
  {| ExportedNode.id := FlowNode.id n;
     ExportedNode.description := FlowNode.description n;
     ExportedNode.prompt := FlowNode.prompt n;
     ExportedNode.edges := exportedEdge <$> FlowNode.edges n |}.

Definition buildExportedFlow (nodes : list FlowNode.t) (startNodeId : option string)
  : ExportedFlow.t :=
  {| ExportedFlow.start_node_id := startNodeId;
     ExportedFlow.nodes := exportedNode <$> nodes |}.

(** The JSON value of an exported document: what [JSON.parse] reads from the
    text [JSON.stringify] writes for it. A key whose value is absent is not
    written. *)
Definition json_of_parameters (p : gmap string string) : json :=
  JObject ((λ kv, (kv.1, JString kv.2)) <$> map_to_list p).

Definition json_of_edge (e : ExportedEdge.t) : json :=
  JObject ([("to_node_id", JString (ExportedEdge.to_node_id e));
            ("condition", JString (ExportedEdge.condition e))]
           ++ match ExportedEdge.parameters e with
              | Some p => [("parameters", json_of_parameters p)]
              | None => []
              end).

Definition json_of_node (n : ExportedNode.t) : json :=
  JObject [("id", JString (ExportedNode.id n));
           ("description", JString (ExportedNode.description n));
           ("prompt", JString (ExportedNode.prompt n));
           ("edges", JArray (json_of_edge <$> ExportedNode.edges n))].

(** [Object.keys(v)] of an object. *)
Definition json_keys (v : json) : list string :=
  match v with JObject fields => fields.*1 | _ => [] end.

Definition json_of_flow (d : ExportedFlow.t) : json :=
  JObject [("start_node_id", from_option JString JNull (ExportedFlow.start_node_id d));
           ("nodes", JArray (json_of_node <$> ExportedFlow.nodes d))].

(** ** Schema codec: import ([importFlow]) *)

(** [importFlow] stores whatever values the document holds: its result has the
    shape of [FlowNode[]], with JSON values where the declared type says
    [string] or [EdgeParameters]. *)
Module ImportedEdge.
Record t : Type := mk {
  id : string;
  toNodeId : json;
  condition : json;
  parameters : json
}.
End ImportedEdge.

Module ImportedNode.
Record t : Type := mk {
  id : json;
  description : json;
  prompt : json;
  edges : list ImportedEdge.t;
  x : Z;
  y : Z
}.
End ImportedNode.

Section Importer.
(** [JSON.parse]: the parsed value, or [None] when it throws a SyntaxError. *)
Variable JSON_parse : string → option json.

Definition importEdge (_ : nat) (e : json) : M ImportedEdge.t :=
  id ← generateEdgeId;
  to_node_id ← get "to_node_id" e;
  condition ← get "condition" e;
  parameters ← get "parameters" e;
  mret {| ImportedEdge.id := id;
         ImportedEdge.toNodeId := nullish_or to_node_id (JString "");
         ImportedEdge.condition := nullish_or condition (JString "");
         ImportedEdge.parameters := nullish_or parameters (JObject []) |}.

Definition importNode (i : nat) (n : json) : M ImportedNode.t :=
  n_id ← get "id" n;
  id ← truthy_or n_id (s ← generateNodeId; mret (JString s));
  description ← get "description" n;
  prompt ← get "prompt" n;
  n_edges ← get "edges" n;
  edges ← match nullish_or n_edges (JArray []) with
          | JArray items => mapM_from importEdge 0 items
          | _ => throw TypeError        (* [.map] is not a function *)
          end;
  mret {| ImportedNode.id := id;
         ImportedNode.description := nullish_or description (JString "");
         ImportedNode.prompt := nullish_or prompt (JString "");
         ImportedNode.edges := edges;
         ImportedNode.x := snapToGrid (100 + Z.of_nat (i mod 4) * 260);
         ImportedNode.y := snapToGrid (100 + Z.of_nat (i / 4) * 140) |}.

(** The result's [startNodeId] is a JSON value too, [JNull] for [null]. *)
Definition importFlow (text : string) : M (list ImportedNode.t * json) :=
  match JSON_parse text with
  | None => throw SyntaxError
  | Some data =>
      data_nodes ← get "nodes" data;
      if negb (js_truthy data_nodes) || negb (isArray data_nodes)
      then throw (Error ("Missing " +:+ dquote +:+ "nodes" +:+ dquote +:+ " array in JSON."))
      else
        nodes ← match data_nodes with
                | Some (JArray items) => mapM_from importNode 0 items
                | _ => throw TypeError
                end;
        start_node_id ← get "start_node_id" data;
        mret (nodes,
              nullish_or (coalesce start_node_id (ImportedNode.id <$> head nodes)) JNull)
  end.
End Importer.

(** The imported values seen at their declared types: defined when every field
    holds a value of the type [FlowNode] declares for it. *)
Definition as_string (v : json) : option string :=
  match v with JString s => Some s | _ => None end.

Definition as_parameters (v : json) : option (gmap string string) :=
  match v with
  | JObject fields =>
      list_to_map <$> mapM (λ kv : string * json, (λ s, (kv.1, s)) <$> as_string kv.2) fields
  | _ => None
  end.

Definition typed_edge (e : ImportedEdge.t) : option FlowEdge.t :=
  to ← as_string (ImportedEdge.toNodeId e);
  c ← as_string (ImportedEdge.condition e);
  p ← as_parameters (ImportedEdge.parameters e);
  Some (FlowEdge.mk (ImportedEdge.id e) to c p).

Definition typed_node (n : ImportedNode.t) : option FlowNode.t :=
  id ← as_string (ImportedNode.id n);
  d ← as_string (ImportedNode.description n);
  p ← as_string (ImportedNode.prompt n);
  es ← mapM typed_edge (ImportedNode.edges n);
  Some (FlowNode.mk id d p es (ImportedNode.x n) (ImportedNode.y n)).

Definition typed_start (v : json) : option (option string) :=
  match v with
  | JNull => Some None
  | JString s => Some (Some s)
  | _ => None
  end.

Definition typed_flow (r : list ImportedNode.t * json)
  : option (list FlowNode.t * option string) :=
  ns ← mapM typed_node r.1;
  sid ← typed_start r.2;
  Some (ns, sid).

(** ** Validation ([validateFlow]) *)

Inductive ValidationErrorType : Type := error | warning.

Module ValidationError.
Record t : Type := mk {
  type : ValidationErrorType;
  nodeId : option string;
  edgeId : option string;
  field : option string;
  message : string
}.
End ValidationError.

Global Instance ValidationErrorType_eq_dec : EqDecision ValidationErrorType.
Proof. solve_decision. Defined.
Global Instance ValidationError_eq_dec : EqDecision ValidationError.t.
Proof. solve_decision. Defined.

(** [s.trim()] removes from both ends of [s] the white space and line
    terminator code points of ECMAScript: the [WhiteSpace] production (tab,
    vertical tab, form feed, U+FEFF and the space separators of Unicode) and
    the [LineTerminator] production (line feed, carriage return, U+2028,
    U+2029). *)
Definition white_space_code_points : list N :=
  [0x0009; 0x000B; 0x000C; 0xFEFF;
   0x0020; 0x00A0; 0x1680; 0x2000; 0x2001; 0x2002; 0x2003; 0x2004; 0x2005;
   0x2006; 0x2007; 0x2008; 0x2009; 0x200A; 0x202F; 0x205F; 0x3000;
   0x000A; 0x000D; 0x2028; 0x2029]%N.

(** The UTF-8 bytes of a code point below U+10000. *)
Definition utf8 (cp : N) : list ascii :=
  if (cp <? 0x80)%N then [ascii_of_N cp]
  else if (cp <? 0x800)%N then
    [ascii_of_N (0xC0 + cp / 0x40); ascii_of_N (0x80 + cp mod 0x40)]
  else
    [ascii_of_N (0xE0 + cp / 0x1000); ascii_of_N (0x80 + cp / 0x40 mod 0x40);
     ascii_of_N (0x80 + cp mod 0x40)].

(** The text made of the given code points. *)
Definition utf8_text (cps : list N) : string :=
  string_of_list_ascii (mjoin (utf8 <$> cps)).

(** The byte sequences of the white space characters (one to three bytes
    each). *)
Definition white_space : list (list ascii) :=
  Eval cbv in utf8 <$> white_space_code_points.

(** Drop from the front of [s] every character whose bytes are in [ws]. *)
Fixpoint strip (ws : list (list ascii)) (s : list ascii) : list ascii :=
  match s with
  | a :: s1 =>
      if bool_decide ([a] ∈ ws) then strip ws s1 else
      match s1 with
      | b :: s2 =>
          if bool_decide ([a; b] ∈ ws) then strip ws s2 else
          match s2 with
          | c :: s3 => if bool_decide ([a; b; c] ∈ ws) then strip ws s3 else s
          | [] => s
          end
      | [] => s
      end
  | [] => []
  end.

Definition trimStart (s : string) : string :=
  string_of_list_ascii (strip white_space (list_ascii_of_string s)).

(** At the end of [s] the bytes of a character are met last byte first. *)
Definition trimEnd (s : string) : string :=
  string_of_list_ascii
    (reverse (strip (reverse <$> white_space) (reverse (list_ascii_of_string s)))).

Definition trim (s : string) : string := trimEnd (trimStart s).

(** [!s.trim()] *)
Definition blank (s : string) : bool := String.eqb (trim s) "".

Module Issue.
Import ValidationError.

Definition no_start : t :=
  mk error None None None "No start node selected.".
Definition start_missing : t :=
  mk error None None None "Selected start node no longer exists.".
Definition empty_id (nodeId : string) : t :=
  mk error (Some nodeId) None (Some "id") "Node ID cannot be empty.".
Definition duplicate_id (nodeId : string) : t :=
  mk error (Some nodeId) None (Some "id")
    ("Duplicate node ID: " +:+ dquote +:+ nodeId +:+ dquote +:+ ".").
Definition description_required (nodeId : string) : t :=
  mk error (Some nodeId) None (Some "description") "Description is required.".
Definition no_target (nodeId edgeId : string) : t :=
  mk error (Some nodeId) (Some edgeId) None "Edge has no target node.".
Definition target_missing (nodeId edgeId toNodeId : string) : t :=
  mk error (Some nodeId) (Some edgeId) None
    ("Target node " +:+ dquote +:+ toNodeId +:+ dquote +:+ " does not exist.").
Definition condition_required (nodeId edgeId : string) : t :=
  mk error (Some nodeId) (Some edgeId) None "Edge condition is required.".
Definition unreachable (nodeId : string) : t :=
  mk warning (Some nodeId) None None
    ("Node " +:+ dquote +:+ nodeId +:+ dquote +:+ " is unreachable from the start node.").
End Issue.

(** [ids.includes(v)] for a [v] that may be [null]: no id is [null]. *)
Definition includes (ids : list string) (v : option string) : bool :=
  match v with
  | Some s => bool_decide (s ∈ ids)
  | None => false
  end.

(** [nodes.find((x) => x.id === cur)] *)
Definition find_node (nodes : list FlowNode.t) (cur : string) : option FlowNode.t :=
  snd <$> list_find (λ x, FlowNode.id x = cur) nodes.

(** The [while (queue.length > 0)] loop of the reachability pass. The array
    [queue] is used as a stack: the list holds it with its last element first, so
    [queue.pop()] takes the head and [queue.push(t)] conses. [fuel] bounds the
    number of iterations; [None] means the bound was hit before the queue
    emptied. *)
Fixpoint traverse (fuel : nat) (nodes : list FlowNode.t)
    (queue : list string) (reachable : gset string) : option (gset string) :=
  match queue with
  | [] => Some reachable
  | cur :: queue' =>
      match fuel with
      | O => None
      | S fuel' =>
          if decide (cur ∈ reachable) then traverse fuel' nodes queue' reachable
          else
            let reachable' := {[cur]} ∪ reachable in
            let n := find_node nodes cur in
            let queue'' :=
              foldl (λ q e, FlowEdge.toNodeId e :: q) queue'
                (from_option FlowNode.edges [] n) in
            traverse fuel' nodes queue'' reachable'
      end
  end.

(** Iterations that always suffice: one for the start id and one for every
    edge, since an id is pushed once for the start and once per edge of a node
    whose edges are followed, and a node's edges are followed at most once. *)
Definition traverse_fuel (nodes : list FlowNode.t) : nat :=
  S (sum_list ((λ n, length (FlowNode.edges n)) <$> nodes)).

Section Validate.
Variable nodes : list FlowNode.t.
Variable startNodeId : option string.

Let nodeIds : list string := FlowNode.id <$> nodes.

Definition global_issues : list ValidationError.t :=
  if negb (truthy startNodeId) then [Issue.no_start]
  else if negb (includes nodeIds startNodeId) then [Issue.start_missing]
  else [].

Definition edge_issues (node : FlowNode.t) (edge : FlowEdge.t) : list ValidationError.t :=
  (if negb (truthy (Some (FlowEdge.toNodeId edge)))
   then [Issue.no_target (FlowNode.id node) (FlowEdge.id edge)]
   else if negb (bool_decide (FlowEdge.toNodeId edge ∈ nodeIds))
   then [Issue.target_missing (FlowNode.id node) (FlowEdge.id edge) (FlowEdge.toNodeId edge)]
   else [])
  ++ (if blank (FlowEdge.condition edge)
      then [Issue.condition_required (FlowNode.id node) (FlowEdge.id edge)]
      else []).

(** What one round of [nodes.forEach] pushes, given [idSeen] as the round
    finds it. *)
Definition node_issues (idSeen : gset string) (node : FlowNode.t) : list ValidationError.t :=
  (* ID uniqueness / emptiness *)
  (if blank (FlowNode.id node) then [Issue.empty_id (FlowNode.id node)]
   else if decide (FlowNode.id node ∈ idSeen) then [Issue.duplicate_id (FlowNode.id node)]
   else [])
  (* Description required *)
  ++ (if blank (FlowNode.description node)
      then [Issue.description_required (FlowNode.id node)] else [])
  (* Edges *)
  ++ foldl (λ errors edge, errors ++ edge_issues node edge) [] (FlowNode.edges node).

(** One round of [nodes.forEach] on the pair of [errors] and [idSeen]. *)
Definition node_round (acc : list ValidationError.t * gset string) (node : FlowNode.t)
  : list ValidationError.t * gset string :=
  (acc.1 ++ node_issues acc.2 node, {[FlowNode.id node]} ∪ acc.2).

(** The reachability pass; [reachable] is the set the loop ended with. *)
Definition reachability_issues : list ValidationError.t :=
  match startNodeId with
  | Some start =>
      if truthy startNodeId && includes nodeIds startNodeId then
        match traverse (traverse_fuel nodes) nodes [start] ∅ with
        | Some reachable =>
            foldl (λ errors n,
                     if decide (FlowNode.id n ∈ reachable) then errors
                     else errors ++ [Issue.unreachable (FlowNode.id n)])
              [] nodes
        | None => []      (* never taken: [traverse_fuel] suffices *)
        end
      else []
  | None => []          (* [null] is falsy *)
  end.

Definition validateFlow : list ValidationError.t :=
  (foldl node_round (global_issues, ∅) nodes).1 ++ reachability_issues.
End Validate.

(** ** Viewport ([useCanvasState], [handleWheel] of [Canvas.tsx]) *)

Module Canvas.
Local Open Scope float_scope.

Record Pan : Type := mkPan { x : float; y : float }.
Record State : Type := mk { pan : Pan; zoom : float }.

(** [Math.max(a, b)] and [Math.min(a, b)] of ECMAScript: NaN if an argument
    is NaN, and [+0] counts as larger than [-0]. *)
Definition is_pos_zero (v : float) : bool :=
  match classify v with PZero => true | _ => false end.
Definition is_neg_zero (v : float) : bool :=
  match classify v with NZero => true | _ => false end.

Definition Math_max (a b : float) : float :=
  if is_nan a || is_nan b then nan
  else if is_neg_zero a && is_pos_zero b then b
  else if a <? b then b else a.

Definition Math_min (a b : float) : float :=
  if is_nan a || is_nan b then nan
  else if is_pos_zero a && is_neg_zero b then b
  else if b <? a then b else a.

Definition handleWheel (deltaY : float) (st : State) : State :=
  let factor := if 0 <? deltaY then 0.92 else 1.08 in
  {| pan := pan st;
     zoom := Math_min 2.5 (Math_max 0.25 (zoom st * factor)) |}.
End Canvas.

(** ** The application ([handleImport] of [App.tsx]) *)

Module App.
Record SelectedEdge : Type := mkSelectedEdge { nodeId : string; edgeId : string }.

(** The state [handleImport] can touch: the id counter of [utils/flow], the
    store's graph and the two selections. *)
Record World : Type := mk {
  _counter : nat;
  state : FlowState.t;
  selectedNodeId : option string;
  selectedEdge : option SelectedEdge
}.

Inductive Outcome : Type :=
  | Returned (w : World)
  | Threw (e : Exn) (w : World)
    (** [importFlow] returned values that are not of [FlowNode]'s declared
        types; [loadFlow] stores them as they are. *)
  | LoadedUntyped (r : list ImportedNode.t * json) (w : World).

Section WithParser.
Variable JSON_parse : string → option json.

Definition handleImport (text : string) (w : World) : Outcome :=
  match importFlow JSON_parse text (_counter w) with
  | (inl e, c) =>
      Threw e (mk c (state w) (selectedNodeId w) (selectedEdge w))
  | (inr r, c) =>
      match typed_flow r with
      | Some (imported, sid) =>
          Returned (mk c (Store.loadFlow imported sid (state w)) None None)
      | None => LoadedUntyped r (mk c (state w) None None)
      end
  end.
End WithParser.
End App.

(** ** The store's callbacks that draw an id, and [moveNode] *)

Module Hook.
Import FlowState.

(** [initialNode] and the state [useState] starts with. *)
Definition initialNode : FlowNode.t :=
  FlowNode.mk "welcome" "Entry point of the flow"
    "Greet the user and ask what they need help with." [] 100 180.

Definition initialState : t :=
  {| nodes := [initialNode]; startNodeId := Some (FlowNode.id initialNode) |}.

(** Positions are passed at integer coordinates, where [snapToGrid] is
    defined; the result is the code's for safe integers. *)
Definition makeNode (x y : Z) : M FlowNode.t :=
  id ← generateNodeId;
  mret (FlowNode.mk id "" "" [] (snapToGrid x) (snapToGrid y)).

(** [addNode(x = 300, y = 200)]: an argument left out is [None]. The result
    is the id the call returns and the state after its update. *)
Definition addNode (x y : option Z) (prev : t) : M (string * t) :=
  node ← makeNode (default 300%Z x) (default 200%Z y);
  mret (FlowNode.id node,
        {| nodes := nodes prev ++ [node]; startNodeId := startNodeId prev |}).

Definition moveNode (id : string) (x y : Z) (prev : t) : t :=
  {| nodes :=
       (λ n, if decide (FlowNode.id n = id)
             then FlowNode.mk (FlowNode.id n) (FlowNode.description n) (FlowNode.prompt n)
                    (FlowNode.edges n) (snapToGrid x) (snapToGrid y)
             else n) <$> nodes prev;
     startNodeId := startNodeId prev |}.

Definition addEdge (nodeId : string) (prev : t) : M t :=
  id ← generateEdgeId; mret (Store.addEdge id nodeId prev).

Definition connectNodes (fromId toId : string) (prev : t) : M t :=
  id ← generateEdgeId; mret (Store.connectNodes id fromId toId prev).



End Hook.

(** ** The inspector's id field ([commitId] of [NodeInspector.tsx]) *)

Module NodeInspector.

(** How [commitId] ends: with [setIdError(message)] and no update, or with
    [setIdError(null)] and the patch it hands to [onUpdate], if any. *)
Inductive Commit : Type :=
  | Rejected (idError : string)
  | Accepted (update : option NodePatch.t).

Definition commitId (node : FlowNode.t) (allNodes : list FlowNode.t) (idDraft : string)
  : Commit :=
  let allIds := FlowNode.id <$> allNodes in
  let v := trim idDraft in
  if negb (truthy (Some v)) then Rejected "Node ID cannot be empty."
  else if bool_decide (v ≠ FlowNode.id node) && bool_decide (v ∈ allIds)
  then Rejected (dquote +:+ v +:+ dquote +:+ " is already in use.")
  else Accepted (if decide (v ≠ FlowNode.id node)
                 then Some (NodePatch.mk (Some v) None None) else None).
End NodeInspector.

(** ** The parameter rows of an edge ([EdgeEditor.tsx]) *)

Module EdgeEditor.

(** Each function gives the patch it hands to [onUpdate]; [addParam] hands
    none when the key is blank. *)
Definition addParam (edge : FlowEdge.t) (newKey newVal : string) : option EdgePatch.t :=
  if blank newKey then None
  else Some (EdgePatch.mk None None None
               (Some (<[trim newKey := newVal]> (FlowEdge.parameters edge)))).

Definition removeParam (edge : FlowEdge.t) (key : string) : EdgePatch.t :=
  EdgePatch.mk None None None (Some (delete key (FlowEdge.parameters edge))).

Definition updateParam (edge : FlowEdge.t) (key value : string) : EdgePatch.t :=
  EdgePatch.mk None None None (Some (<[key := value]> (FlowEdge.parameters edge))).

(** [paramCount] *)
Definition paramCount (edge : FlowEdge.t) : nat := size (FlowEdge.parameters edge).
End EdgeEditor.

(** ** The validation badges ([Toolbar.tsx]) *)

Module Toolbar.
Import ValidationError.

Definition errCount (validationErrors : list t) : nat :=
  length (filter (λ e, type e = error) validationErrors).

Definition warnCount (validationErrors : list t) : nat :=
  length (filter (λ e, type e = warning) validationErrors).

(** Whether the "Valid" badge is rendered. *)
Definition valid_badge (nodeCount : nat) (validationErrors : list t) : bool :=
  bool_decide (errCount validationErrors = 0)
  && bool_decide (warnCount validationErrors = 0)
  && bool_decide (0 < nodeCount).
End Toolbar.

(** ** The overview's global errors ([Sidebar.tsx]) *)

Module Sidebar.
Import ValidationError.

(** [validationErrors.filter((e) => !e.nodeId)] *)
Definition globalErrors (validationErrors : list t) : list t :=
  filter (λ e, truthy (nodeId e) = false) validationErrors.
End Sidebar.

(** ** Zoom buttons, zoom keys and [resetView] ([App.tsx], [useCanvasState]) *)

Module Viewport.
Import Canvas.
Local Open Scope float_scope.

Definition initial : State := {| pan := mkPan 0 0; zoom := 1 |}.

(** [setZoom((z) => Math.min(2.5, z * 1.15))] *)
Definition zoomIn (st : State) : State :=
  {| pan := pan st; zoom := Math_min 2.5 (zoom st * 1.15) |}.

(** [setZoom((z) => Math.max(0.25, z / 1.15))] *)
Definition zoomOut (st : State) : State :=
  {| pan := pan st; zoom := Math_max 0.25 (zoom st / 1.15) |}.

Definition resetView (_ : State) : State := initial.

Definition setPan (p : Pan) (st : State) : State := {| pan := p; zoom := zoom st |}.
End Viewport.

(** ** Selection and keyboard handlers ([App.tsx]) *)

Module Handlers.
Import App.

Record KeyboardEvent : Type := mkKey { key : string; metaKey : bool; ctrlKey : bool }.

Definition select (node : option string) (edge : option SelectedEdge) (w : World) : World :=
  mk (_counter w) (state w) node edge.

Definition handleNodeClick (id : string) (w : World) : World :=
  select (Some id) None w.

Definition handleEdgeClick (nodeId edgeId : string) (w : World) : World :=
  select (Some nodeId) (Some (mkSelectedEdge nodeId edgeId)) w.

Definition handleCanvasClick (w : World) : World := select None None w.

(** [handleAddNode(x?, y?)] at integer coordinates. *)
Definition handleAddNode (x y : option Z) (w : World) : World :=
  let n := Z.of_nat (length (FlowState.nodes (state w))) in
  match Hook.addNode (Some (default (200 + n * 30)%Z x)) (Some (default (200 + n * 20)%Z y))
          (state w) (_counter w) with
  | (inr (id, next), c) => mk c next (Some id) None
  | (inl _, _) => w              (* never taken: [addNode] does not throw *)
  end.

(** The [Delete]/[Backspace] part of the [keydown] handler. [inInput] says
    whether the focused element is an input, a textarea or a select. *)
Definition deleteSelection (w : World) : World :=
  let edge_branch :=
    match selectedEdge w with
    | Some sel =>
        mk (_counter w) (Store.deleteEdge (nodeId sel) (edgeId sel) (state w))
          (selectedNodeId w) None
    | None => w
    end in
  match selectedNodeId w with
  | Some id =>
      if truthy (Some id)
      then mk (_counter w) (Store.deleteNode id (state w)) None (selectedEdge w)
      else edge_branch
  | None => edge_branch
  end.

Definition onKeyDown (e : KeyboardEvent) (inInput : bool) (s : World * Canvas.State)
  : World * Canvas.State :=
  let w :=
    if (bool_decide (key e = "Delete") || bool_decide (key e = "Backspace")) && negb inInput
    then deleteSelection s.1 else s.1 in
  let c1 :=
    if (metaKey e || ctrlKey e) && bool_decide (key e = "=")
    then Viewport.zoomIn s.2 else s.2 in
  let c2 :=
    if (metaKey e || ctrlKey e) && bool_decide (key e = "-")
    then Viewport.zoomOut c1 else c1 in
  (w, c2).

(** [selectedNode] of [Sidebar.tsx]: the node the inspector shows. *)
Definition selectedNode (w : World) : option FlowNode.t :=
  id ← selectedNodeId w; find_node (FlowState.nodes (state w)) id.

(** The inspector's id field committed on the selected node: [commitId], then
    [onUpdateNode(selectedNode.id, patch)]. *)
Definition commitSelectedId (idDraft : string) (w : World) : World :=
  match selectedNode w with
  | Some node =>
      match NodeInspector.commitId node (FlowState.nodes (state w)) idDraft with
      | NodeInspector.Accepted (Some patch) =>
          mk (_counter w) (Store.updateNode (FlowNode.id node) patch (state w))
            (selectedNodeId w) (selectedEdge w)
      | _ => w
      end
  | None => w
  end.
End Handlers.

(** * Specification vocabulary *)

(** A rename of [old] to [new] took [prev] to [next]: node by node and edge by
    edge, an edge that pointed at [old] on a node in [covered] points at [new],
    an edge that pointed elsewhere still does (so every node keeps its number
    of edges), and the start pointer follows the rename. *)
Definition retargeted (covered : FlowNode.t → Prop) (old new : string)
    (prev next : FlowState.t) : Prop :=
  Forall2
    (λ n n',
       length (FlowNode.edges n') = length (FlowNode.edges n)
       ∧ Forall2
           (λ e e',
              (FlowEdge.toNodeId e = old → covered n → FlowEdge.toNodeId e' = new)
              ∧ (FlowEdge.toNodeId e ≠ old → FlowEdge.toNodeId e' = FlowEdge.toNodeId e))
           (FlowNode.edges n) (FlowNode.edges n'))
    (FlowState.nodes prev) (FlowState.nodes next)
  ∧ FlowState.startNodeId next
    = (if decide (FlowState.startNodeId prev = Some old) then Some new
       else FlowState.startNodeId prev).

(** The ids the reachability pass should find from [start]: [start] itself, and
    the target of every edge of the node that a found id resolves to. An id
    resolves as the code resolves it, to the first node that carries it, and an
    id that no node carries is not followed. *)
Inductive Reach (nodes : list FlowNode.t) (start : string) : string → Prop :=
  | Reach_start : Reach nodes start start
  | Reach_edge cur n e :
      Reach nodes start cur →
      find_node nodes cur = Some n →
      e ∈ FlowNode.edges n →
      Reach nodes start (FlowEdge.toNodeId e).

(** What the round of [nodes.forEach] for the node at each index pushes: the
    round of index [i] finds in [idSeen] the ids of the nodes before [i]. *)
Definition node_chunks (nodes : list FlowNode.t) : list (list ValidationError.t) :=
  imap (λ i n, node_issues nodes (list_to_set (FlowNode.id <$> take i nodes)) n) nodes.

(** The same rounds, by recursion on the nodes still to visit; [seen] is
    [idSeen] as the next round finds it. *)
Fixpoint rounds (nodes : list FlowNode.t) (seen : gset string) (l : list FlowNode.t)
  : list (list ValidationError.t) :=
  match l with
  | [] => []
  | n :: l' => node_issues nodes seen n :: rounds nodes ({[FlowNode.id n]} ∪ seen) l'
  end.

(** The edges the traversal may still push: those of the nodes whose id is not
    in [reachable] yet. *)
Definition pending (nodes : list FlowNode.t) (reachable : gset string) : nat :=
  sum_list ((λ n, if decide (FlowNode.id n ∈ reachable) then 0
                  else length (FlowNode.edges n)) <$> nodes).

(** How often a value occurs in a list. *)
Definition occurrences `{EqDecision A} (a : A) (l : list A) : nat :=
  length (filter (λ b, b = a) l).

(** What the round trip is to preserve of a node: its id, description and
    prompt, and of its edges, in order, the target, the condition and the
    parameter map. Positions and edge ids are left out. *)
Definition edge_content (e : FlowEdge.t) : string * string * gmap string string :=
  (FlowEdge.toNodeId e, FlowEdge.condition e, FlowEdge.parameters e).

Definition node_content (n : FlowNode.t)
  : string * string * string * list (string * string * gmap string string) :=
  (FlowNode.id n, FlowNode.description n, FlowNode.prompt n,
   edge_content <$> FlowNode.edges n).

(** Whether a computation ended with an exception. *)
Definition throws {A} (r : (Exn + A) * nat) : bool :=
  match r.1 with inl _ => true | inr _ => false end.

(** The [nodes] field of a parsed document when it is an array. *)
Definition nodes_array (data : json) : option (list json) :=
  match data with
  | JObject fields =>
      match assoc "nodes" fields with
      | Some (JArray items) => Some items
      | _ => None
      end
  | _ => None
  end.

(** The elements [importFlow] chokes on: a [null] where an edge or a node
    should be, and a node whose [edges] field is there, is not [null] and is
    not an array. *)
Definition malformed_edge (e : json) : bool :=
  match e with JNull => true | _ => false end.

Definition malformed_node (n : json) : bool :=
  match n with
  | JNull => true
  | JObject fields =>
      match assoc "edges" fields with
      | None | Some JNull => false
      | Some (JArray items) => existsb malformed_edge items
      | Some _ => true
      end
  | _ => false
  end.

(** What one zoom-in tick of the wheel does to the zoom. *)
Definition zoom_in_step (z : float) : float :=
  Canvas.Math_min 2.5 (Canvas.Math_max 0.25 (z * 1.08))%float.

(** A node sits on the grid: both coordinates are multiples of [GRID]. *)
Definition on_grid (n : FlowNode.t) : Prop :=
  (GRID | FlowNode.x n)%Z ∧ (GRID | FlowNode.y n)%Z.

(** White space, as a property of a code point: the ASCII white space (tab,
    line feed, vertical tab, form feed, carriage return, space), the no-break
    space, the Ogham space mark, the spaces U+2000 to U+200A (en quad to hair
    space), the line and paragraph separators, the narrow no-break space, the
    medium mathematical space, the ideographic space and U+FEFF. *)
Definition white_code_point (cp : N) : Prop :=
  (cp ∈ [0x09; 0x0A; 0x0B; 0x0C; 0x0D; 0x20; 0xA0; 0x1680; 0x2028; 0x2029; 0x202F;
         0x205F; 0x3000; 0xFEFF]
   ∨ 0x2000 ≤ cp ≤ 0x200A)%N.

(** A string that is empty or made of white space only: the text of a
    sequence of white space code points. *)
Definition white_only (s : string) : Prop :=
  ∃ cps, Forall white_code_point cps ∧ s = utf8_text cps.

(** [s] is a concatenation of words of [ws]; [s] begins with a word of [ws]. *)
Definition concat_of (ws : list (list ascii)) (s : list ascii) : Prop :=
  ∃ l, Forall (λ w, w ∈ ws) l ∧ s = mjoin l.

Definition headed (ws : list (list ascii)) (s : list ascii) : Prop :=
  ∃ w r, w ∈ ws ∧ s = w ++ r.

(** An integer that binary64 holds exactly, as [Number.isSafeInteger] has it:
    its magnitude is below 2^53. *)
Definition safe_integer (v : Z) : Prop := (Z.abs v < 2 ^ 53)%Z.




(** A graph that breaks none of the validator's error rules: the start pointer
    is a non-empty id that a node carries, the ids are pairwise distinct and
    none is blank, no description is blank, and every edge targets the id of a
    node and has a condition that is not blank. *)
Definition structurally_valid (nodes : list FlowNode.t) (startNodeId : option string)
  : Prop :=
  (∃ s, startNodeId = Some s ∧ s ≠ "" ∧ s ∈ FlowNode.id <$> nodes)
  ∧ NoDup (FlowNode.id <$> nodes)
  ∧ Forall
      (λ n, blank (FlowNode.id n) = false
            ∧ blank (FlowNode.description n) = false
            ∧ Forall (λ e, FlowEdge.toNodeId e ∈ FlowNode.id <$> nodes
                           ∧ blank (FlowEdge.condition e) = false)
                (FlowNode.edges n))
      nodes.

(** Every node's id is found from the start pointer. *)
Definition all_reachable (nodes : list FlowNode.t) (startNodeId : option string) : Prop :=
  ∃ s, startNodeId = Some s ∧ ∀ n, n ∈ nodes → Reach nodes s (FlowNode.id n).

(** What can change the viewport: a wheel tick, the zoom buttons and keys,
    the reset button, and a pan drag. *)
Inductive ViewEvent : Type :=
  | Wheel (deltaY : float)
  | ZoomIn
  | ZoomOut
  | ResetView
  | SetPan (p : Canvas.Pan).

Definition view_step (st : Canvas.State) (ev : ViewEvent) : Canvas.State :=
  match ev with
  | Wheel deltaY => Canvas.handleWheel deltaY st
  | ZoomIn => Viewport.zoomIn st
  | ZoomOut => Viewport.zoomOut st
  | ResetView => Viewport.resetView st
  | SetPan p => Viewport.setPan p st
  end.

(** An id made of [prefix] and the decimal digits of a number above [lo] and
    up to [hi]. *)
Definition numbered (prefix : string) (lo hi : nat) (id : string) : Prop :=
  ∃ k, lo < k ≤ hi ∧ id = prefix +:+ pretty k.

(** One draw from the counter, of a node id or of an edge id. *)
Definition draw (node : bool) : M string :=
  if node then generateNodeId else generateEdgeId.

(** [v.key] of a value that is not [null]: the own property of an object,
    [undefined] of anything else. *)
Definition field (key : string) (v : json) : option json :=
  match v with JObject fields => assoc key fields | _ => None end.

(** The ids of all the edges of imported nodes, node by node. *)
Definition imported_edge_ids (ns : list ImportedNode.t) : list string :=
  ImportedEdge.id <$> mjoin (ImportedNode.edges <$> ns).

(** The zoom is between the least and the greatest zoom. *)
Definition zoom_in_range (st : Canvas.State) : Prop :=
  (0.25 <=? Canvas.zoom st)%float = true ∧ (Canvas.zoom st <=? 2.5)%float = true.

(** * Properties *)

(** ** Lists *)

Module ListFacts.

Lemma Forall2_fmap_diag {A} (P : A → A → Prop) (f : A → A) (l : list A) :
  (∀ a, a ∈ l → P a (f a)) → Forall2 P l (f <$> l).
Proof.
  intros H. apply Forall2_fmap_r, Forall_Forall2_diag, Forall_forall. exact H.
Qed.

Lemma fmap_id_on {A} (f : A → A) (l : list A) :
  (∀ a, a ∈ l → f a = a) → f <$> l = l.
Proof.
  induction l as [|a l IH]; intros H; [done|]. cbn.
  rewrite H by left. rewrite IH; [done|]. intros b Hb. apply H. by right.
Qed.

Lemma filter_all {A} (P : A → Prop) `{!∀ a, Decision (P a)} (l : list A) :
  (∀ a, a ∈ l → P a) → filter P l = l.
Proof.
  induction l as [|a l IH]; intros Hall; [done|].
  rewrite filter_cons_True by (apply Hall; left).
  f_equal. apply IH. intros b Hb. apply Hall. by right.
Qed.

Lemma filter_none {A} (P : A → Prop) `{!∀ a, Decision (P a)} (l : list A) :
  Forall (λ a, ¬ P a) l → filter P l = [].
Proof.
  induction 1 as [|a l Ha _ IH]; [done|]. by rewrite filter_cons_False.
Qed.

End ListFacts.

(** ** The graph store *)

Module StoreFacts.
Import FlowState Store ListFacts.

Lemma with_edges_same (n : FlowNode.t) : with_edges n (FlowNode.edges n) = n.
Proof. by destruct n. Qed.

(** C3. [deleteNode(id)] leaves no node with that id; the nodes with another
    id survive in order, each with the same fields and with exactly its edges
    to [id] removed, the others kept in order; the start pointer becomes
    [null] if it was [id] and is unchanged otherwise; and when no node has
    that id no node is removed. *)
Theorem deleteNode_spec (id : string) (prev : FlowState.t) :
  let next := deleteNode id prev in
  (id ∉ (FlowNode.id <$> nodes next))
  ∧ Forall2
      (λ n n',
         FlowNode.id n' = FlowNode.id n
         ∧ FlowNode.description n' = FlowNode.description n
         ∧ FlowNode.prompt n' = FlowNode.prompt n
         ∧ FlowNode.x n' = FlowNode.x n ∧ FlowNode.y n' = FlowNode.y n
         ∧ FlowNode.edges n' = filter (λ e, FlowEdge.toNodeId e ≠ id) (FlowNode.edges n)
         ∧ (∀ e, e ∈ FlowNode.edges n' → FlowEdge.toNodeId e ≠ id))
      (filter (λ n, FlowNode.id n ≠ id) (nodes prev)) (nodes next)
  ∧ startNodeId next = (if decide (startNodeId prev = Some id) then None else startNodeId prev)
  ∧ (id ∉ (FlowNode.id <$> nodes prev) →
     filter (λ n, FlowNode.id n ≠ id) (nodes prev) = nodes prev
     ∧ length (nodes next) = length (nodes prev)).
Proof.
  cbn. split_and!.
  - rewrite list_elem_of_fmap. intros (n' & Hid & Hn').
    apply list_elem_of_fmap in Hn' as (n & -> & Hn).
    apply list_elem_of_filter in Hn as [Hne _]. by apply Hne.
  - apply Forall2_fmap_diag. intros n _. cbn. split_and!; try done.
    intros e He. by apply list_elem_of_filter in He as [? _].
  - done.
  - intros Habsent.
    assert (filter (λ n, FlowNode.id n ≠ id) (nodes prev) = nodes prev) as Hall.
    { apply filter_all. intros n Hn Heq.
      apply Habsent, list_elem_of_fmap. eauto. }
    split; [done|]. by rewrite length_fmap, Hall.
Qed.

(** C9. [updateEdge(nodeId, edgeId, patch)] keeps the start pointer, every
    node with another id, and on a matching node its id, description, prompt,
    position and every edge with another edge id, in place; with no matching
    node, or no matching edge on the matching nodes, the state is unchanged. *)
Theorem updateEdge_frame (nodeId edgeId : string) (patch : EdgePatch.t) (prev : FlowState.t) :
  let next := updateEdge nodeId edgeId patch prev in
  startNodeId next = startNodeId prev
  ∧ Forall2
      (λ n n',
         (FlowNode.id n ≠ nodeId → n' = n)
         ∧ FlowNode.id n' = FlowNode.id n
         ∧ FlowNode.description n' = FlowNode.description n
         ∧ FlowNode.prompt n' = FlowNode.prompt n
         ∧ FlowNode.x n' = FlowNode.x n ∧ FlowNode.y n' = FlowNode.y n
         ∧ Forall2 (λ e e', FlowEdge.id e ≠ edgeId → e' = e)
             (FlowNode.edges n) (FlowNode.edges n'))
      (nodes prev) (nodes next)
  ∧ ((∀ n, n ∈ nodes prev → FlowNode.id n = nodeId →
       ∀ e, e ∈ FlowNode.edges n → FlowEdge.id e ≠ edgeId) →
     next = prev).
Proof.
  cbn. split_and!; [done| |].
  - apply Forall2_fmap_diag. intros n _. case_decide as Hn; cbn.
    + split_and!; try done.
      apply Forall2_fmap_diag. intros e _ He. by case_decide.
    + split_and!; try done. apply Forall_Forall2_diag, Forall_forall. done.
  - intros Hnone. destruct prev as [ns sid]. unfold updateEdge. cbn in *. f_equal.
    apply fmap_id_on. intros n Hn. case_decide as Hid; [|done].
    rewrite fmap_id_on; [apply with_edges_same|].
    intros e He. case_decide as Heid; [|done]. by destruct (Hnone n Hn Hid e He).
Qed.

(** C2, amended. [updateNode(old, patch)] with a non-empty [patch.id]: every
    edge that targeted [old] on a node whose id is not [old] targets the new
    id; the start pointer is the new id if it was [old] and is unchanged
    otherwise; every node keeps its number of edges and every target other
    than [old]. *)
Theorem updateNode_rename (old new : string) (patch : NodePatch.t) (prev : FlowState.t) :
  NodePatch.id patch = Some new → new ≠ "" →
  retargeted (λ n, FlowNode.id n ≠ old) old new prev (updateNode old patch prev).
Proof.
  intros Hid Hnew.
  assert (truthy (Some new) = true) as Htruthy.
  { cbn. apply negb_true_iff, String.eqb_neq. done. }
  unfold retargeted, updateNode. rewrite Hid, Htruthy. cbn. split.
  - apply Forall2_fmap_diag. intros n _. case_decide as Hn.
    + cbn. split; [done|]. apply Forall_Forall2_diag, Forall_forall.
      intros e _. split; [|done]. intros _ Hcov. by destruct Hcov.
    + assert (Forall2
                (λ e e',
                   (FlowEdge.toNodeId e = old → FlowNode.id n ≠ old → FlowEdge.toNodeId e' = new)
                   ∧ (FlowEdge.toNodeId e ≠ old → FlowEdge.toNodeId e' = FlowEdge.toNodeId e))
                (FlowNode.edges n)
                ((λ e, if decide (FlowEdge.toNodeId e = old) then retarget e new else e)
                   <$> FlowNode.edges n)) as Hedges.
      { apply Forall2_fmap_diag. intros e _. case_decide; cbn; split; done. }
      destruct (existsb _ _) eqn:Hex; cbn.
      * split; [by rewrite length_fmap|done].
      * split; [done|]. apply Forall_Forall2_diag, Forall_forall.
        intros e He. split; [|done]. intros Hto _.
        apply not_true_iff_false in Hex. destruct Hex.
        apply existsb_exists. exists e. split; [by apply list_elem_of_In|].
        by apply bool_decide_eq_true.
  - destruct (decide (startNodeId prev = Some old)) as [Hs|Hs].
    + by rewrite bool_decide_eq_true_2.
    + by rewrite bool_decide_eq_false_2.
Qed.

Lemma updateNode_rename_witness :
  let patch := NodePatch.mk (Some "B") None None in
  let prev :=
    FlowState.mk
      [FlowNode.mk "A" "first" "" [FlowEdge.mk "e1" "C" "next" ∅] 100 180;
       FlowNode.mk "C" "second" "" [FlowEdge.mk "e2" "A" "back" ∅] 360 180]
      (Some "A") in
  (NodePatch.id patch = Some "B" ∧ "B" ≠ "")
  ∧ retargeted (λ n, FlowNode.id n ≠ "A") "A" "B" prev (updateNode "A" patch prev).
Proof.
  intros patch prev. split; [by split|].
  apply (updateNode_rename "A" "B" patch prev); [reflexivity|done].
Defined.

(** C2 as stated fails twice. A self-loop on the renamed node keeps its old
    target, because the branch that rewrites the node itself returns before
    the edges are looked at; and an empty new id is falsy in [newId && ...],
    so neither the edges elsewhere nor the start pointer follow it. *)
Lemma updateNode_rename_counterexample :
  let self_loop :=
    FlowState.mk [FlowNode.mk "A" "loop" "" [FlowEdge.mk "e1" "A" "again" ∅] 100 180]
      (Some "A") in
  let pair :=
    FlowState.mk
      [FlowNode.mk "A" "first" "" [] 100 180;
       FlowNode.mk "C" "second" "" [FlowEdge.mk "e2" "A" "back" ∅] 360 180]
      (Some "A") in
  (updateNode "A" (NodePatch.mk (Some "B") None None) self_loop
   = FlowState.mk [FlowNode.mk "B" "loop" "" [FlowEdge.mk "e1" "A" "again" ∅] 100 180]
       (Some "B")
   ∧ ¬ retargeted (λ _, True) "A" "B" self_loop
         (updateNode "A" (NodePatch.mk (Some "B") None None) self_loop))
  ∧ (updateNode "A" (NodePatch.mk (Some "") None None) pair
     = FlowState.mk
         [FlowNode.mk "" "first" "" [] 100 180;
          FlowNode.mk "C" "second" "" [FlowEdge.mk "e2" "A" "back" ∅] 360 180]
         (Some "A")
     ∧ ¬ retargeted (λ _, True) "A" "" pair
           (updateNode "A" (NodePatch.mk (Some "") None None) pair)).
Proof.
  cbn zeta. split; (split; [reflexivity|]).
  - intros [Hnodes _]. cbn in Hnodes.
    apply Forall2_cons_1 in Hnodes as [[_ Hedges] _].
    apply Forall2_cons_1 in Hedges as [[Hto _] _].
    specialize (Hto eq_refl I). discriminate Hto.
  - intros [_ Hstart]. cbn in Hstart. discriminate Hstart.
Qed.
End StoreFacts.

(** ** Schema codec: export *)

Module ExportFacts.
Import ListFacts.

Lemma size_pos_nonempty (p : gmap string string) : 0 < size p ↔ p ≠ ∅.
Proof.
  rewrite <-map_size_non_empty_iff. lia.
Qed.

Lemma exportedEdge_parameters (e : FlowEdge.t) :
  ExportedEdge.parameters (exportedEdge e)
  = if decide (FlowEdge.parameters e = ∅) then None else Some (FlowEdge.parameters e).
Proof.
  unfold exportedEdge. cbn.
  destruct (decide (0 < size (FlowEdge.parameters e))) as [Hpos|Hzero];
    destruct (decide (FlowEdge.parameters e = ∅)) as [Hempty|Hne]; try done.
  - by apply size_pos_nonempty in Hpos.
  - by apply size_pos_nonempty in Hne.
Qed.

(** C6. An exported edge has the [parameters] field, and its JSON object the
    [parameters] key, exactly when the edge's parameter map is non-empty, and
    the field then holds that map; and after [connectNodes(fromId, toId)] the
    export of every node with id [fromId] is its earlier export with one more
    edge at the end: target [toId], condition [default] and no [parameters]
    key. *)
Theorem export_parameters_iff_nonempty :
  (∀ nodes startNodeId,
     Forall2
       (λ n xn,
          Forall2
            (λ e xe,
               (is_Some (ExportedEdge.parameters xe) ↔ FlowEdge.parameters e ≠ ∅)
               ∧ ("parameters" ∈ json_keys (json_of_edge xe) ↔ FlowEdge.parameters e ≠ ∅)
               ∧ (∀ p, ExportedEdge.parameters xe = Some p → p = FlowEdge.parameters e))
            (FlowNode.edges n) (ExportedNode.edges xn))
       nodes (ExportedFlow.nodes (buildExportedFlow nodes startNodeId)))
  ∧ (∀ edgeId fromId toId prev,
       let next := Store.connectNodes edgeId fromId toId prev in
       let new_edge := ExportedEdge.mk toId "default" None in
       let before :=
         buildExportedFlow (FlowState.nodes prev) (FlowState.startNodeId prev) in
       let after :=
         buildExportedFlow (FlowState.nodes next) (FlowState.startNodeId next) in
       json_of_edge new_edge
       = JObject [("to_node_id", JString toId); ("condition", JString "default")]
       ∧ Forall2
           (λ xn xn',
              if decide (ExportedNode.id xn = fromId)
              then xn' = ExportedNode.mk (ExportedNode.id xn) (ExportedNode.description xn)
                           (ExportedNode.prompt xn) (ExportedNode.edges xn ++ [new_edge])
              else xn' = xn)
           (ExportedFlow.nodes before) (ExportedFlow.nodes after)
       ∧ (fromId ∈ FlowNode.id <$> FlowState.nodes prev →
          ∃ xn', xn' ∈ ExportedFlow.nodes after
                 ∧ ExportedNode.id xn' = fromId
                 ∧ last (ExportedNode.edges xn') = Some new_edge)).
Proof.
  split.
  - intros nodes startNodeId. cbn. apply Forall2_fmap_r, Forall_Forall2_diag, Forall_forall.
    intros n _. cbn. apply Forall2_fmap_r, Forall_Forall2_diag, Forall_forall.
    intros e _. unfold compose, json_of_edge, json_keys. rewrite exportedEdge_parameters.
    case_decide as Hp; cbn.
    + split_and!.
      * split; [by intros [? ?]|done].
      * split; [|done]. intros Hin. apply list_elem_of_In in Hin. cbn in Hin.
        by destruct Hin as [?|[?|[]]].
      * done.
    + split_and!.
      * split; [done|by eexists].
      * split; [done|]. intros _. apply list_elem_of_In. cbn. by right; right; left.
      * by intros p [= <-].
  - intros edgeId fromId toId prev. cbn zeta. split_and!.
    + reflexivity.
    + cbn. unfold Store.append_edge. cbn. rewrite <-list_fmap_compose.
      apply Forall2_fmap, Forall_Forall2_diag, Forall_forall.
      intros n _. cbn. case_decide as Hn; [|done].
      unfold exportedNode. cbn. f_equal. by rewrite fmap_app.
    + intros Hfrom. apply list_elem_of_fmap in Hfrom as (n & -> & Hn).
      exists (exportedNode
                (Store.with_edges n (FlowNode.edges n ++ [FlowEdge.mk edgeId toId "default" ∅]))).
      split_and!.
      * cbn. apply list_elem_of_fmap. eexists. split; [done|].
        apply list_elem_of_fmap. exists n. split; [|done]. by rewrite decide_True.
      * done.
      * cbn. rewrite fmap_app. cbn. by rewrite last_snoc.
Qed.
End ExportFacts.

(** ** Strings: [trim] and blank strings *)

Module StringFacts.

Section Strip.
Variable ws : list (list ascii).
Hypothesis Hsize : ∀ w, w ∈ ws → 1 ≤ length w ≤ 3.
Hypothesis Hfree : ∀ w w', w ∈ ws → w' ∈ ws → w `prefix_of` w' → w = w'.

Lemma strip_unfold s :
  strip ws s
  = match s with
    | a :: s1 =>
        if bool_decide ([a] ∈ ws) then strip ws s1 else
        match s1 with
        | b :: s2 =>
            if bool_decide ([a; b] ∈ ws) then strip ws s2 else
            match s2 with
            | c :: s3 => if bool_decide ([a; b; c] ∈ ws) then strip ws s3 else s
            | [] => s
            end
        | [] => s
        end
    | [] => []
    end.
Proof. by destruct s. Qed.

Lemma strip_step s :
  (¬ headed ws s ∧ strip ws s = s)
  ∨ (∃ w r, w ∈ ws ∧ s = w ++ r ∧ strip ws s = strip ws r).
Proof using Hsize.
  assert (∀ w r, w ∈ ws → s = w ++ r →
            (∃ a, w = [a]) ∨ (∃ a b, w = [a; b]) ∨ (∃ a b c, w = [a; b; c])) as Hshape.
  { intros w r Hw _. apply Hsize in Hw.
    destruct w as [|a [|b [|c [|d w]]]]; cbn in Hw; try lia; eauto 10. }
  rewrite (strip_unfold s).
  destruct s as [|a [|b [|c s3]]]; repeat case_bool_decide;
    try (right; eexists [_], _; split_and!; [eassumption|reflexivity..]);
    try (right; eexists [_; _], _; split_and!; [eassumption|reflexivity..]);
    try (right; eexists [_; _; _], _; split_and!; [eassumption|reflexivity..]);
    left; (split; [|done]); intros (w & r & Hw & Heq);
    destruct (Hshape w r Hw Heq) as [(x & ->)|[(x & y & ->)|(x & y & z & ->)]];
    simplify_eq/=; done.
Qed.

Lemma strip_spec s :
  ∃ l, Forall (λ w, w ∈ ws) l ∧ s = mjoin l ++ strip ws s
       ∧ ¬ headed ws (strip ws s) ∧ strip ws (strip ws s) = strip ws s.
Proof using Hsize.
  remember (length s) as k eqn:Hk. revert s Hk.
  induction k as [k IH] using lt_wf_ind. intros s ->.
  destruct (strip_step s) as [(Hno & Heq)|(w & r & Hw & -> & Heq)].
  - exists []. rewrite Heq. by split_and!.
  - destruct (IH (length r)) with (s := r) as (l & Hl & Hr & Hno & Hid); [|done|].
    { rewrite length_app. apply Hsize in Hw. lia. }
    exists (w :: l). rewrite Heq. split_and!; [by constructor| |done|done].
    change (mjoin (w :: l)) with (w ++ mjoin l). rewrite <-app_assoc. by rewrite <-Hr.
Qed.

Lemma concat_of_strip s : concat_of ws s → strip ws s = [].
Proof using Hsize Hfree.
  intros (l & Hl & ->). induction Hl as [|w l Hw Hl IH]; [done|].
  destruct (strip_step (mjoin (w :: l))) as [(Hno & _)|(w' & r & Hw' & Heq & ->)].
  - destruct Hno. by exists w, (mjoin l).
  - cbn in Heq. assert (w = w') as <-.
    { destruct (prefix_weak_total w w' (w ++ mjoin l)) as [Hp|Hp].
      - by exists (mjoin l).
      - exists r. by rewrite <-Heq.
      - by apply Hfree.
      - symmetry. by apply Hfree. }
    by apply app_inv_head in Heq as <-.
Qed.

Lemma strip_nil_iff s : strip ws s = [] ↔ concat_of ws s.
Proof using Hsize Hfree.
  split; [|apply concat_of_strip].
  intros Hs. destruct (strip_spec s) as (l & Hl & Heq & _).
  exists l. rewrite Hs, app_nil_r in Heq. done.
Qed.

Lemma concat_of_cases s : concat_of ws s → s = [] ∨ headed ws s.
Proof. intros (l & Hl & ->). destruct Hl as [|w l Hw Hl]; [by left|right]. by exists w, (mjoin l). Qed.

End Strip.

Lemma headed_prefix ws u s : u `prefix_of` s → headed ws u → headed ws s.
Proof. intros (t & ->) (w & r & Hw & ->). exists w, (r ++ t). by rewrite app_assoc. Qed.

Lemma concat_of_reverse ws s : concat_of (reverse <$> ws) (reverse s) ↔ concat_of ws s.
Proof.
  assert (∀ ws s, concat_of ws s → concat_of (reverse <$> ws) (reverse s)) as Hrev.
  { clear. intros ws s (l & Hl & ->). exists (reverse (reverse <$> l)). split.
    - apply Forall_reverse, Forall_fmap. eapply Forall_impl; [exact Hl|].
      intros w Hw. cbn. apply list_elem_of_fmap. eauto.
    - clear Hl. induction l as [|w l IH]; [done|].
      change (mjoin (w :: l)) with (w ++ mjoin l).
      rewrite reverse_app, IH, fmap_cons, reverse_cons, join_app.
      cbn. by rewrite app_nil_r. }
  split; [|apply Hrev]. intros H%Hrev.
  rewrite reverse_involutive, <-list_fmap_compose in H.
  destruct H as (l & Hl & ->). exists l. split; [|done].
  eapply Forall_impl; [exact Hl|]. intros w (w' & -> & Hw')%list_elem_of_fmap.
  cbn. by rewrite reverse_involutive.
Qed.

Lemma white_space_size w : w ∈ white_space → 1 ≤ length w ≤ 3.
Proof.
  revert w. apply Forall_forall. apply (bool_decide_unpack _). vm_compute. exact I.
Qed.

Lemma white_space_free w w' :
  w ∈ white_space → w' ∈ white_space → w `prefix_of` w' → w = w'.
Proof.
  revert w'. revert w. 
  assert (Forall (λ w, Forall (λ w', w `prefix_of` w' → w = w') white_space) white_space) as H.
  { apply (bool_decide_unpack _). vm_compute. exact I. }
  intros w w' Hw Hw'. rewrite Forall_forall in H. specialize (H w Hw).
  rewrite Forall_forall in H. by apply H.
Qed.

Lemma white_space_rev_size w : w ∈ reverse <$> white_space → 1 ≤ length w ≤ 3.
Proof.
  intros (w' & -> & Hw')%list_elem_of_fmap. rewrite length_reverse.
  by apply white_space_size.
Qed.

Lemma white_space_rev_free w w' :
  w ∈ reverse <$> white_space → w' ∈ reverse <$> white_space → w `prefix_of` w' → w = w'.
Proof.
  revert w'. revert w. 
  assert (Forall (λ w, Forall (λ w', w `prefix_of` w' → w = w') (reverse <$> white_space))
            (reverse <$> white_space)) as H.
  { apply (bool_decide_unpack _). vm_compute. exact I. }
  intros w w' Hw Hw'. rewrite Forall_forall in H. specialize (H w Hw).
  rewrite Forall_forall in H. by apply H.
Qed.

Lemma chars_nil s : list_ascii_of_string s = [] ↔ s = "".
Proof. destruct s; split; intros H; (done || discriminate). Qed.

Lemma text_nil l : string_of_list_ascii l = "" ↔ l = [].
Proof. destruct l; split; intros H; (done || discriminate). Qed.

Lemma chars_trim s :
  list_ascii_of_string (trim s)
  = reverse (strip (reverse <$> white_space)
               (reverse (strip white_space (list_ascii_of_string s)))).
Proof.
  unfold trim, trimEnd, trimStart. by rewrite !list_ascii_of_string_of_list_ascii.
Qed.

(** The code points that [trim] removes are the white space code points. *)
Lemma white_code_point_iff cp : white_code_point cp ↔ cp ∈ white_space_code_points.
Proof.
  split.
  - intros [Hin|Hrange].
    + revert cp Hin. apply Forall_forall. apply (bool_decide_unpack _). vm_compute. exact I.
    + assert (Forall (λ k, (0x2000 + N.of_nat k)%N ∈ white_space_code_points) (seq 0 11))
        as Hall by (apply (bool_decide_unpack _); vm_compute; exact I).
      rewrite Forall_forall in Hall.
      replace cp with (0x2000 + N.of_nat (N.to_nat (cp - 0x2000)))%N by lia.
      apply Hall, elem_of_seq. lia.
  - revert cp. apply Forall_forall. unfold white_code_point.
    apply (bool_decide_unpack _). vm_compute. exact I.
Qed.

Lemma white_only_concat_of s : white_only s ↔ concat_of white_space (list_ascii_of_string s).
Proof.
  split.
  - intros (cps & Hcps & ->). exists (utf8 <$> cps). split.
    + apply Forall_fmap. eapply Forall_impl; [exact Hcps|]. intros cp Hcp.
      apply white_code_point_iff in Hcp.
      by apply (list_elem_of_fmap_2 utf8) in Hcp.
    + unfold utf8_text. by rewrite list_ascii_of_string_of_list_ascii.
  - intros (l & Hl & Heq).
    assert (∃ cps, Forall white_code_point cps ∧ l = utf8 <$> cps)
      as (cps & Hcps & ->).
    { clear Heq. induction Hl as [|w l Hw Hl (cps & Hcps & ->)]; [by exists []|].
      change white_space with (utf8 <$> white_space_code_points) in Hw.
      apply list_elem_of_fmap in Hw as (cp & -> & Hcp).
      apply white_code_point_iff in Hcp.
      exists (cp :: cps). split; [by constructor|done]. }
    exists cps. split; [done|]. unfold utf8_text. rewrite <-Heq.
    by rewrite string_of_list_ascii_of_string.
Qed.

Lemma trim_empty s : trim s = "" ↔ white_only s.
Proof.
  rewrite white_only_concat_of, <-chars_nil, chars_trim.
  set (t := strip white_space (list_ascii_of_string s)).
  destruct (strip_spec white_space white_space_size (list_ascii_of_string s))
    as (l & Hl & Heq & Hno & Hid). fold t in Heq, Hno, Hid.
  split.
  - intros Hu. apply (f_equal reverse) in Hu. rewrite reverse_involutive in Hu.
    rewrite reverse_nil in Hu. apply (strip_nil_iff _ white_space_rev_size white_space_rev_free) in Hu.
    apply (proj1 (concat_of_reverse _ _)) in Hu.
    apply (concat_of_strip _ white_space_size white_space_free) in Hu.
    rewrite Hid in Hu. rewrite Hu, app_nil_r in Heq. by exists l.
  - intros Hs. apply (concat_of_strip _ white_space_size white_space_free) in Hs.
    fold t in Hs. rewrite Hs. done.
Qed.

(** [!s.trim()] holds exactly of the strings made of white space. *)
Lemma blank_white_only s : blank s = true ↔ white_only s.
Proof. unfold blank. rewrite String.eqb_eq. apply trim_empty. Qed.

Example white_only_samples :
  white_only "" ∧ white_only "  " ∧ white_only (utf8_text [0xA0; 0x2003; 0x0A]%N)
  ∧ ¬ white_only " A " ∧ ¬ white_only "_".
Proof.
  split_and!; try (apply blank_white_only; vm_compute; reflexivity);
    rewrite <-blank_white_only; vm_compute; discriminate.
Qed.

Lemma blank_false_head c r :
  Forall (λ w, head w ≠ Some c) white_space → blank (String c r) = false.
Proof.
  intros Hc. apply not_true_iff_false. rewrite blank_white_only, white_only_concat_of.
  intros [Hnil|(w & t & Hw & Heq)]%concat_of_cases; [discriminate|].
  rewrite Forall_forall in Hc. apply (Hc w Hw).
  pose proof (white_space_size w Hw). destruct w; cbn in *; [lia|]. congruence.
Qed.

Lemma blank_empty : blank "" = true.
Proof. reflexivity. Qed.

Lemma blank_false_nonempty s : blank s = false → s ≠ "".
Proof. by intros H ->. Qed.

(** A trimmed string that is not empty is not blank. *)
Lemma trim_not_blank s : trim s ≠ "" → blank (trim s) = false.
Proof.
  intros Hne. apply not_true_iff_false. rewrite blank_white_only, white_only_concat_of.
  intros Hu. apply Hne, chars_nil.
  destruct (concat_of_cases _ _ Hu) as [|Hhead]; [done|]. exfalso.
  rewrite chars_trim in Hhead.
  destruct (strip_spec white_space white_space_size (list_ascii_of_string s))
    as (_ & _ & _ & Hno & _).
  set (t := strip white_space (list_ascii_of_string s)) in *.
  destruct (strip_spec _ white_space_rev_size (reverse t)) as (l & _ & Heq & _).
  apply Hno. eapply headed_prefix; [|exact Hhead].
  exists (reverse (mjoin l)). apply (f_equal reverse) in Heq.
  by rewrite reverse_involutive, reverse_app in Heq.
Qed.

End StringFacts.

(** ** Validation *)

Module ValidateFacts.
Import ValidationError ListFacts.

(** *** The per-node rounds *)

Lemma foldl_node_round nodes l errors seen :
  (foldl (node_round nodes) (errors, seen) l).1 = errors ++ mjoin (rounds nodes seen l).
Proof.
  revert errors seen. induction l as [|n l IH]; intros errors seen; cbn.
  - by rewrite app_nil_r.
  - unfold node_round at 2. cbn. rewrite IH. by rewrite <-app_assoc.
Qed.

Lemma rounds_imap nodes seen l :
  rounds nodes seen l
  = imap (λ i n, node_issues nodes (list_to_set (FlowNode.id <$> take i l) ∪ seen) n) l.
Proof.
  revert seen. induction l as [|n l IH]; intros seen; [done|]. cbn. f_equal.
  - f_equal. set_solver.
  - rewrite IH. apply imap_ext. intros i m _. cbn. f_equal. set_solver.
Qed.

Lemma node_chunks_rounds nodes : node_chunks nodes = rounds nodes ∅ nodes.
Proof.
  rewrite rounds_imap. apply imap_ext. intros i n _. cbn. f_equal. set_solver.
Qed.

Lemma validateFlow_structure nodes startNodeId :
  validateFlow nodes startNodeId
  = global_issues nodes startNodeId ++ mjoin (node_chunks nodes)
    ++ reachability_issues nodes startNodeId.
Proof.
  unfold validateFlow. by rewrite foldl_node_round, node_chunks_rounds, <-app_assoc.
Qed.

Lemma node_chunks_lookup nodes i n :
  nodes !! i = Some n →
  node_chunks nodes !! i
  = Some (node_issues nodes (list_to_set (FlowNode.id <$> take i nodes)) n).
Proof. intros Hn. unfold node_chunks. by rewrite list_lookup_imap, Hn. Qed.

(** *** Telling the issues apart *)

Lemma occurrences_cons `{EqDecision A} (a b : A) (l : list A) :
  occurrences a (b :: l) = (if decide (b = a) then 1 else 0) + occurrences a l.
Proof. unfold occurrences. rewrite filter_cons. by case_decide. Qed.

Lemma occurrences_app `{EqDecision A} (a : A) (l1 l2 : list A) :
  occurrences a (l1 ++ l2) = occurrences a l1 + occurrences a l2.
Proof. unfold occurrences. by rewrite filter_app, length_app. Qed.

Lemma occurrences_none `{EqDecision A} (a : A) (l : list A) :
  a ∉ l ↔ occurrences a l = 0.
Proof.
  induction l as [|b l IH].
  - split; [done|]. intros _. apply not_elem_of_nil.
  - rewrite occurrences_cons, not_elem_of_cons, IH.
    case_decide as Hb; cbn; split.
    + intros [Hne _]. by destruct Hne.
    + lia.
    + by intros [_ ->].
    + intros ->. split; [congruence|done].
Qed.

Lemma edge_part_concat nodes node es acc :
  foldl (λ errors edge, errors ++ edge_issues nodes node edge) acc es
  = acc ++ mjoin (edge_issues nodes node <$> es).
Proof.
  revert acc. induction es as [|e es IH]; intros acc; cbn.
  - by rewrite app_nil_r.
  - by rewrite IH, <-app_assoc.
Qed.

Lemma edge_issues_have_edgeId nodes node es v :
  v ∈ mjoin (edge_issues nodes node <$> es) → is_Some (edgeId v) ∧ type v = error.
Proof.
  intros Hv. apply list_elem_of_join in Hv as (chunk & Hv & Hchunk).
  apply list_elem_of_fmap in Hchunk as (e & -> & _).
  unfold edge_issues in Hv.
  apply elem_of_app in Hv as [Hv|Hv]; repeat case_match;
    try (by apply elem_of_nil in Hv);
    apply list_elem_of_singleton in Hv as ->; cbn; eauto.
Qed.

Lemma duplicate_id_inj s s' : Issue.duplicate_id s = Issue.duplicate_id s' → s = s'.
Proof. by intros [= ->]. Qed.

Lemma empty_id_not_duplicate s s' : Issue.empty_id s ≠ Issue.duplicate_id s'.
Proof. intros [= _ Hmsg]. Qed.

(** *** Duplicate ids *)

Lemma duplicate_id_occurrences_round nodes seen n s :
  occurrences (Issue.duplicate_id s) (node_issues nodes seen n)
  = if decide (FlowNode.id n = s ∧ blank s = false ∧ s ∈ seen) then 1 else 0.
Proof.
  unfold node_issues. rewrite edge_part_concat. cbn [app].
  rewrite !occurrences_app.
  assert (occurrences (Issue.duplicate_id s)
            (mjoin (edge_issues nodes n <$> FlowNode.edges n)) = 0) as ->.
  { apply occurrences_none. intros Hin.
    apply edge_issues_have_edgeId in Hin as [[? Hedge] _]. discriminate Hedge. }
  assert (occurrences (Issue.duplicate_id s)
            (if blank (FlowNode.description n)
             then [Issue.description_required (FlowNode.id n)] else []) = 0) as ->.
  { case_match; [|done]. rewrite occurrences_cons, decide_False; [done|]. intros [=]. }
  rewrite !Nat.add_0_r.
  destruct (blank (FlowNode.id n)) eqn:Hblank.
  - rewrite occurrences_cons, decide_False by apply empty_id_not_duplicate.
    rewrite decide_False; [done|]. intros (<- & Hs & _). congruence.
  - destruct (decide (FlowNode.id n ∈ seen)) as [Hseen|Hseen].
    + rewrite occurrences_cons. cbn.
      destruct (decide (FlowNode.id n = s)) as [<-|Hne].
      * by rewrite !decide_True.
      * rewrite !decide_False; [done| |]; [by intros [? _]|].
        intros Heq. by apply duplicate_id_inj in Heq.
    + rewrite decide_False; [done|]. intros (<- & _ & Hs). done.
Qed.

Lemma duplicate_id_in_round nodes seen n s :
  Issue.duplicate_id s ∈ node_issues nodes seen n
  ↔ FlowNode.id n = s ∧ blank s = false ∧ s ∈ seen.
Proof.
  pose proof (duplicate_id_occurrences_round nodes seen n s) as Hocc.
  pose proof (occurrences_none (Issue.duplicate_id s) (node_issues nodes seen n)) as Hnone.
  case_decide as Hcase; split; intros Hin; try done.
  - apply dec_stable. intros Hnot. apply Hnone in Hnot. lia.
  - exfalso. revert Hin. apply Hnone. done.
Qed.

Lemma duplicate_id_occurrences_rounds nodes seen l s :
  blank s = false →
  occurrences (Issue.duplicate_id s) (mjoin (rounds nodes seen l))
  = if decide (s ∈ seen) then occurrences s (FlowNode.id <$> l)
    else pred (occurrences s (FlowNode.id <$> l)).
Proof.
  intros Hs. revert seen. induction l as [|n l IH]; intros seen.
  - cbn. by case_decide.
  - cbn [rounds mjoin list_join fmap list_fmap].
    rewrite occurrences_app, duplicate_id_occurrences_round, IH, occurrences_cons.
    destruct (decide (FlowNode.id n = s)) as [Hn|Hn].
    + rewrite (decide_True (P := s ∈ {[FlowNode.id n]} ∪ seen)) by set_solver.
      destruct (decide (s ∈ seen)) as [Hseen|Hseen].
      * by rewrite decide_True.
      * rewrite decide_False by tauto. done.
    + rewrite (decide_False (P := _ ∧ _)) by tauto. cbn.
      destruct (decide (s ∈ seen)) as [Hseen|Hseen].
      * rewrite decide_True by set_solver. done.
      * rewrite decide_False by set_solver. done.
Qed.

Lemma global_issues_no_node nodes startNodeId v :
  v ∈ global_issues nodes startNodeId → nodeId v = None ∧ type v = error.
Proof.
  unfold global_issues. intros Hv.
  repeat case_match; try (by apply elem_of_nil in Hv);
    apply list_elem_of_singleton in Hv as ->; done.
Qed.

Lemma warnings_fold (reachable : gset string) l acc :
  foldl (λ errors n,
           if decide (FlowNode.id n ∈ reachable) then errors
           else errors ++ [Issue.unreachable (FlowNode.id n)]) acc l
  = acc ++ ((λ n, Issue.unreachable (FlowNode.id n))
              <$> filter (λ n, FlowNode.id n ∉ reachable) l).
Proof.
  revert acc. induction l as [|n l IH]; intros acc.
  - cbn. by rewrite app_nil_r.
  - cbn [foldl]. rewrite IH, filter_cons. destruct (decide (FlowNode.id n ∈ reachable)).
    + by rewrite decide_False by tauto.
    + rewrite decide_True by done. cbn. by rewrite <-app_assoc.
Qed.

Lemma reachability_issues_warnings nodes startNodeId v :
  v ∈ reachability_issues nodes startNodeId → type v = warning.
Proof.
  unfold reachability_issues. intros Hv.
  repeat case_match; try (by apply elem_of_nil in Hv).
  rewrite warnings_fold in Hv. cbn in Hv.
  by apply list_elem_of_fmap in Hv as (n & -> & _).
Qed.

Lemma duplicate_id_occurrences nodes startNodeId s :
  blank s = false →
  occurrences (Issue.duplicate_id s) (validateFlow nodes startNodeId)
  = pred (occurrences s (FlowNode.id <$> nodes)).
Proof.
  intros Hs. rewrite validateFlow_structure, !occurrences_app.
  rewrite node_chunks_rounds, duplicate_id_occurrences_rounds by done.
  rewrite decide_False by set_solver.
  assert (occurrences (Issue.duplicate_id s) (global_issues nodes startNodeId) = 0) as ->.
  { apply occurrences_none. intros Hin. by apply global_issues_no_node in Hin as [? _]. }
  assert (occurrences (Issue.duplicate_id s) (reachability_issues nodes startNodeId) = 0) as ->.
  { apply occurrences_none. intros Hin. by apply reachability_issues_warnings in Hin. }
  lia.
Qed.

Lemma node_chunks_elem nodes chunk :
  chunk ∈ node_chunks nodes →
  ∃ i n, nodes !! i = Some n
         ∧ chunk = node_issues nodes (list_to_set (FlowNode.id <$> take i nodes)) n.
Proof.
  intros Hin. apply list_elem_of_lookup in Hin as [i Hi].
  unfold node_chunks in Hi. rewrite list_lookup_imap in Hi.
  destruct (nodes !! i) as [n|] eqn:Hn; [|done]. injection Hi as <-. eauto.
Qed.

Lemma duplicate_id_in_validateFlow nodes startNodeId s :
  Issue.duplicate_id s ∈ validateFlow nodes startNodeId →
  ∃ i n, nodes !! i = Some n ∧ FlowNode.id n = s ∧ blank s = false
         ∧ s ∈ FlowNode.id <$> take i nodes.
Proof.
  rewrite validateFlow_structure, !elem_of_app. intros [Hin|[Hin|Hin]].
  - by apply global_issues_no_node in Hin as [? _].
  - apply list_elem_of_join in Hin as (chunk & Hin & Hchunk).
    apply node_chunks_elem in Hchunk as (i & n & Hn & ->).
    apply duplicate_id_in_round in Hin as (Hid & Hs & Hseen).
    exists i, n. split_and!; try done. by apply elem_of_list_to_set in Hseen.
  - by apply reachability_issues_warnings in Hin.
Qed.

Lemma earlier_occurrence (nodes : list FlowNode.t) i s :
  s ∈ FlowNode.id <$> take i nodes ↔
  ∃ j m, j < i ∧ nodes !! j = Some m ∧ FlowNode.id m = s.
Proof.
  rewrite list_elem_of_fmap. split.
  - intros (m & -> & Hm). apply list_elem_of_lookup in Hm as [j Hj].
    apply lookup_take_Some in Hj as [Hj Hlt]. eauto.
  - intros (j & m & Hlt & Hj & <-). exists m. split; [done|].
    apply list_elem_of_lookup. exists j. by apply lookup_take_Some.
Qed.


(** Three nodes with the id A: the second and the third are flagged, the first
    is not. *)
Example duplicate_id_three_times :
  validateFlow
    [FlowNode.mk "A" "first" "" [] 100 100; FlowNode.mk "A" "second" "" [] 360 100;
     FlowNode.mk "A" "third" "" [] 620 100]
    (Some "A")
  = [Issue.duplicate_id "A"; Issue.duplicate_id "A"].
Proof. vm_compute. reflexivity. Qed.

(** C10. A node whose id is empty or made of white space only (any of the
    characters that [trim] removes, not only the one-byte ones) gets the
    empty-id error, in its round and so in the output, and no duplicate-id
    error, whatever the other nodes are; no duplicate-id error for such an id
    is in the output at all. A node gets a duplicate-id error only when an
    earlier node carries exactly the same id, byte for byte: a node whose id
    no earlier node carries gets none in its round, whatever the earlier ids
    trim to, and an id that occurs once is not reported. *)
Theorem blank_id_is_empty_not_duplicate nodes startNodeId :
  (∀ i n, nodes !! i = Some n → white_only (FlowNode.id n) →
     let round := node_issues nodes (list_to_set (FlowNode.id <$> take i nodes)) n in
     node_chunks nodes !! i = Some round
     ∧ Issue.empty_id (FlowNode.id n) ∈ round
     ∧ Issue.empty_id (FlowNode.id n) ∈ validateFlow nodes startNodeId
     ∧ ∀ s, Issue.duplicate_id s ∉ round)
  ∧ (∀ s, white_only s → Issue.duplicate_id s ∉ validateFlow nodes startNodeId)
  ∧ (∀ i n, nodes !! i = Some n → (FlowNode.id n ∉ FlowNode.id <$> take i nodes) →
       ∀ s, Issue.duplicate_id s
            ∉ node_issues nodes (list_to_set (FlowNode.id <$> take i nodes)) n)
  ∧ (∀ s, Issue.duplicate_id s ∈ validateFlow nodes startNodeId →
       ∃ i j n m, j < i ∧ nodes !! i = Some n ∧ nodes !! j = Some m
                  ∧ FlowNode.id n = s ∧ FlowNode.id m = s)
  ∧ (∀ s, (occurrences s (FlowNode.id <$> nodes) ≤ 1)%nat →
       Issue.duplicate_id s ∉ validateFlow nodes startNodeId).
Proof.
  split_and!.
  - intros i n Hn Hblank%StringFacts.blank_white_only round.
    assert (Issue.empty_id (FlowNode.id n) ∈ round) as Hround.
    { unfold round, node_issues. rewrite Hblank. apply elem_of_app. left. left. }
    split_and!; [by apply node_chunks_lookup|done| |].
    + rewrite validateFlow_structure, !elem_of_app. right. left.
      apply list_elem_of_join. exists round. split; [done|].
      apply list_elem_of_lookup. exists i. by apply node_chunks_lookup.
    + intros s Hin. apply duplicate_id_in_round in Hin as (<- & Hs & _). congruence.
  - intros s Hblank%StringFacts.blank_white_only Hin.
    apply duplicate_id_in_validateFlow in Hin as (_ & _ & _ & _ & Hs & _). congruence.
  - intros i n Hn Hnew s Hin. apply duplicate_id_in_round in Hin as (<- & _ & Hseen).
    by apply elem_of_list_to_set in Hseen.
  - intros s Hin. apply duplicate_id_in_validateFlow in Hin as (i & n & Hn & Hid & _ & Hseen).
    apply earlier_occurrence in Hseen as (j & m & Hlt & Hm & Hmid).
    exists i, j, n, m. done.
  - intros s Hocc Hin.
    pose proof Hin as (_ & _ & _ & _ & Hs & _)%duplicate_id_in_validateFlow.
    apply occurrences_none in Hin; [done|].
    rewrite duplicate_id_occurrences by done. lia.
Qed.

(** Two ids that differ only in surrounding whitespace are not duplicates of
    each other. *)
Example padded_id_is_not_a_duplicate :
  validateFlow
    [FlowNode.mk "A" "first" "" [] 100 100; FlowNode.mk " A " "second" "" [] 360 100]
    (Some "A")
  = [Issue.unreachable " A "].
Proof. vm_compute. reflexivity. Qed.

(** Blank ids shared by several nodes: each gets the empty-id error, none the
    duplicate-id error. *)
Example shared_blank_ids :
  validateFlow
    [FlowNode.mk " " "first" "" [] 100 100; FlowNode.mk " " "second" "" [] 360 100]
    (Some " ")
  = [Issue.empty_id " "; Issue.empty_id " "].
Proof. vm_compute. reflexivity. Qed.

(** The same for white space beyond one byte: two nodes whose id is a no-break
    space (U+00A0) each get the empty-id error; and an id padded with a
    no-break space and a U+FEFF trims to the bare id and is no duplicate of
    it. *)
Example shared_no_break_space_ids :
  let nbsp := utf8_text [0xA0]%N in
  let padded := utf8_text [0xA0; 0x41; 0xFEFF]%N in
  validateFlow
    [FlowNode.mk "A" "first" "" [FlowEdge.mk "e1" nbsp "go" ∅] 100 100;
     FlowNode.mk nbsp "second" "" [] 360 100;
     FlowNode.mk nbsp "third" "" [] 620 100]
    (Some "A")
  = [Issue.empty_id nbsp; Issue.empty_id nbsp]
  ∧ trim padded = "A"
  ∧ validateFlow
      [FlowNode.mk "A" "first" "" [] 100 100; FlowNode.mk padded "second" "" [] 360 100]
      (Some "A")
    = [Issue.unreachable padded].
Proof. vm_compute. done. Qed.

(** *** Reachability *)

Lemma find_node_Some nodes cur n :
  find_node nodes cur = Some n → n ∈ nodes ∧ FlowNode.id n = cur.
Proof.
  unfold find_node. intros Hfind.
  destruct (list_find _ nodes) as [[i m]|] eqn:Hm; [|done]. injection Hfind as ->.
  apply list_find_Some in Hm as (Hi & Hid & _). split; [|done].
  apply list_elem_of_lookup. eauto.
Qed.

(** With unique ids, an id resolves to the one node that carries it. *)
Lemma find_node_unique nodes cur n :
  NoDup (FlowNode.id <$> nodes) →
  find_node nodes cur = Some n ↔ n ∈ nodes ∧ FlowNode.id n = cur.
Proof.
  intros Hnodup. split; [apply find_node_Some|]. intros [Hn Hid].
  unfold find_node. apply list_elem_of_lookup in Hn as [i Hi].
  destruct (list_find _ nodes) as [[j m]|] eqn:Hm.
  - apply list_find_Some in Hm as (Hj & Hmid & _). cbn. f_equal.
    assert (i = j) as ->; [|congruence].
    apply (NoDup_lookup _ i j cur Hnodup); rewrite list_lookup_fmap.
    + by rewrite Hi; cbn; rewrite Hid.
    + by rewrite Hj; cbn; rewrite Hmid.
  - apply list_find_None in Hm. rewrite Forall_forall in Hm.
    destruct (Hm n); [|done]. apply list_elem_of_lookup. eauto.
Qed.

Lemma push_targets (es : list FlowEdge.t) (queue : list string) :
  foldl (λ q e, FlowEdge.toNodeId e :: q) queue es
  = reverse (FlowEdge.toNodeId <$> es) ++ queue.
Proof.
  revert queue. induction es as [|e es IH]; intros queue; [done|].
  cbn [foldl]. rewrite IH, fmap_cons, reverse_cons, <-app_assoc. done.
Qed.

Lemma pending_mono nodes (r r' : gset string) :
  r ⊆ r' → pending nodes r' ≤ pending nodes r.
Proof.
  intros Hsub. unfold pending. induction nodes as [|n nodes IH]; cbn; [done|].
  repeat case_decide; try lia. set_solver.
Qed.

Lemma pending_visit nodes (r : gset string) n :
  n ∈ nodes → FlowNode.id n ∉ r →
  pending nodes ({[FlowNode.id n]} ∪ r) + length (FlowNode.edges n) ≤ pending nodes r.
Proof.
  intros Hn Hr. induction Hn as [n nodes|n m nodes Hn IH].
  - pose proof (pending_mono nodes r ({[FlowNode.id n]} ∪ r)) as Hmono.
    unfold pending in *. cbn.
    rewrite decide_True by set_solver. rewrite decide_False by done.
    specialize (Hmono ltac:(set_solver)). lia.
  - specialize (IH Hr). unfold pending in *. cbn.
    destruct (decide (FlowNode.id m ∈ r)) as [Hm|Hm].
    + rewrite decide_True by set_solver. lia.
    + case_decide; lia.
Qed.

Lemma traverse_terminates nodes fuel queue reachable :
  length queue + pending nodes reachable ≤ fuel →
  is_Some (traverse fuel nodes queue reachable).
Proof.
  revert queue reachable. induction fuel as [|fuel IH]; intros queue reachable Hfuel.
  - destruct queue; cbn in *; [by eexists|lia].
  - destruct queue as [|cur queue]; cbn [traverse]; [by eexists|].
    cbn in Hfuel. case_decide as Hcur.
    + apply IH. lia.
    + apply IH. rewrite push_targets, length_app, length_reverse, length_fmap.
      destruct (find_node nodes cur) as [n|] eqn:Hfind; cbn.
      * apply find_node_Some in Hfind as [Hn <-].
        pose proof (pending_visit nodes reachable n Hn Hcur). lia.
      * pose proof (pending_mono nodes reachable ({[cur]} ∪ reachable)
                      ltac:(set_solver)). lia.
Qed.

Lemma traverse_more_fuel nodes fuel fuel' queue reachable R :
  traverse fuel nodes queue reachable = Some R → fuel ≤ fuel' →
  traverse fuel' nodes queue reachable = Some R.
Proof.
  revert fuel' queue reachable.
  induction fuel as [|fuel IH]; intros fuel' queue reachable Hrun Hle.
  - destruct queue; [|done]. by destruct fuel'.
  - destruct queue as [|cur queue]; [by destruct fuel'|].
    destruct fuel' as [|fuel']; [lia|]. cbn [traverse] in *.
    case_decide; apply IH; (done || lia).
Qed.

Lemma traverse_sound nodes start fuel queue reachable R :
  traverse fuel nodes queue reachable = Some R →
  (∀ x, x ∈ reachable → Reach nodes start x) →
  (∀ x, x ∈ queue → Reach nodes start x) →
  (∀ cur n e, cur ∈ reachable → find_node nodes cur = Some n → e ∈ FlowNode.edges n →
     FlowEdge.toNodeId e ∈ reachable ∨ FlowEdge.toNodeId e ∈ queue) →
  (start ∈ reachable ∨ start ∈ queue) →
  ∀ x, x ∈ R ↔ Reach nodes start x.
Proof.
  revert queue reachable.
  induction fuel as [|fuel IH]; intros queue reachable Hrun Hr Hq Hclosed Hstart.
  - destruct queue as [|cur queue]; [|done]. injection Hrun as <-.
    intros x. split; [apply Hr|]. induction 1 as [|cur n e _ IHreach Hfind He].
    + destruct Hstart as [?|Hnil]; [done|]. by apply elem_of_nil in Hnil.
    + destruct (Hclosed cur n e IHreach Hfind He) as [?|Hnil]; [done|].
      by apply elem_of_nil in Hnil.
  - destruct queue as [|cur queue].
    { injection Hrun as <-. intros x. split; [apply Hr|].
      induction 1 as [|cur n e _ IHreach Hfind He].
      - destruct Hstart as [?|Hnil]; [done|]. by apply elem_of_nil in Hnil.
      - destruct (Hclosed cur n e IHreach Hfind He) as [?|Hnil]; [done|].
        by apply elem_of_nil in Hnil. }
    cbn [traverse] in Hrun. case_decide as Hcur.
    + apply (IH queue reachable Hrun Hr).
      * intros x Hx. apply Hq. by right.
      * intros c n e Hc Hfind He.
        destruct (Hclosed c n e Hc Hfind He) as [?|Hin]; [by left|].
        apply elem_of_cons in Hin as [->|?]; [by left|by right].
      * destruct Hstart as [?|Hin]; [by left|].
        apply elem_of_cons in Hin as [->|?]; [by left|by right].
    + rewrite push_targets in Hrun.
      assert (Reach nodes start cur) as Hreach by (apply Hq; left).
      apply (IH _ _ Hrun).
      * intros x Hx. apply elem_of_union in Hx as [Hx|Hx]; [|by apply Hr].
        by apply elem_of_singleton in Hx as ->.
      * intros x Hx. apply elem_of_app in Hx as [Hx|Hx]; [|apply Hq; by right].
        apply elem_of_reverse, list_elem_of_fmap in Hx as (e & -> & He).
        destruct (find_node nodes cur) as [n|] eqn:Hfind; cbn in He.
        -- by apply (Reach_edge nodes start cur n e).
        -- by apply elem_of_nil in He.
      * intros c n e Hc Hfind He. apply elem_of_union in Hc as [Hc|Hc].
        -- apply elem_of_singleton in Hc as ->. right. rewrite Hfind. cbn.
           apply elem_of_app. left. apply elem_of_reverse, list_elem_of_fmap. eauto.
        -- destruct (Hclosed c n e Hc Hfind He) as [?|Hin]; [left; set_solver|].
           apply elem_of_cons in Hin as [->|?]; [left; set_solver|].
           right. apply elem_of_app. by right.
      * destruct Hstart as [?|Hin]; [left; set_solver|].
        apply elem_of_cons in Hin as [->|?]; [left; set_solver|].
        right. apply elem_of_app. by right.
Qed.

Lemma node_issues_errors nodes seen n v :
  v ∈ node_issues nodes seen n → type v = error.
Proof.
  unfold node_issues. rewrite edge_part_concat. cbn [app].
  rewrite !elem_of_app. intros [Hv|[Hv|Hv]].
  - repeat case_match; try (by apply elem_of_nil in Hv);
      by apply list_elem_of_singleton in Hv as ->.
  - case_match; try (by apply elem_of_nil in Hv);
      by apply list_elem_of_singleton in Hv as ->.
  - by apply edge_issues_have_edgeId in Hv as [_ ?].
Qed.

Lemma node_chunks_errors nodes :
  Forall (λ v, type v = error) (mjoin (node_chunks nodes)).
Proof.
  apply Forall_forall. intros v Hv.
  apply list_elem_of_join in Hv as (chunk & Hv & Hchunk).
  apply node_chunks_elem in Hchunk as (i & n & _ & ->).
  by apply node_issues_errors in Hv.
Qed.

Lemma traverse_from_start nodes s :
  ∃ R : gset string,
    (∀ fuel, traverse_fuel nodes ≤ fuel → traverse fuel nodes [s] ∅ = Some R)
    ∧ (∀ x, x ∈ R ↔ Reach nodes s x).
Proof.
  destruct (traverse_terminates nodes (traverse_fuel nodes) [s] ∅) as [R HR].
  { unfold traverse_fuel, pending. cbn. apply le_n_S.
    clear. induction nodes as [|n nodes IH]; cbn; [done|].
    rewrite decide_False by set_solver. lia. }
  exists R. split.
  - intros fuel Hfuel. by apply (traverse_more_fuel nodes (traverse_fuel nodes)).
  - apply (traverse_sound nodes s _ _ _ _ HR).
    + intros x Hx. by apply elem_of_empty in Hx.
    + intros x Hx. apply list_elem_of_singleton in Hx as ->. constructor.
    + intros cur n e Hcur. by apply elem_of_empty in Hcur.
    + right. by left.
Qed.



(** A cycle A -> B -> A with C outside it: the traversal ends, and C alone is
    warned about. *)
Example cyclic_graph_warns_outsider :
  validateFlow
    [FlowNode.mk "A" "first" "" [FlowEdge.mk "e1" "B" "next" ∅] 100 100;
     FlowNode.mk "B" "second" "" [FlowEdge.mk "e2" "A" "back" ∅] 360 100;
     FlowNode.mk "C" "third" "" [FlowEdge.mk "e3" "A" "back" ∅] 620 100]
    (Some "A")
  = [Issue.unreachable "C"].
Proof. vm_compute. reflexivity. Qed.


End ValidateFacts.

(** ** Schema codec: import *)

Module ImportFacts.
Import ListFacts.

(** *** Running [M] computations *)

Lemma bind_run {A B} (m : M A) (k : A → M B) c :
  (m ≫= k) c
  = match m c with
    | (inr a, c') => k a c'
    | (inl e, c') => (inl e, c')
    end.
Proof. reflexivity. Qed.

Lemma get_run key v c :
  get key v c
  = match v with
    | JNull => (inl TypeError, c)
    | JObject fields => (inr (assoc key fields), c)
    | _ => (inr None, c)
    end.
Proof. by destruct v. Qed.

Lemma ret_run {A} (a : A) c : (mret a : M A) c = (inr a, c).
Proof. reflexivity. Qed.

(** One step at a time: unfold a bind, read a property, reduce the match. *)
Ltac run_M :=
  repeat first
    [ rewrite bind_run | rewrite get_run | rewrite ret_run | progress (cbn beta iota) ].

Lemma throws_mapM_from {A B} (f : nat → A → M B) (bad : A → bool) :
  (∀ i x c, throws (f i x c) = bad x) →
  ∀ xs i c, throws (mapM_from f i xs c) = existsb bad xs.
Proof.
  intros Hf. induction xs as [|x xs IH]; intros i c; [done|].
  cbn [mapM_from existsb]. rewrite bind_run.
  specialize (Hf i x c). destruct (f i x c) as [[e|y] c1]; cbn in Hf; rewrite <-Hf; [done|].
  rewrite bind_run. specialize (IH (S i) c1).
  destruct (mapM_from f (S i) xs c1) as [[e|ys] c2]; cbn in IH; by rewrite <-IH.
Qed.

(** *** When the import throws *)

Lemma throws_importEdge i e c : throws (importEdge i e c) = malformed_edge e.
Proof.
  unfold importEdge. rewrite bind_run. cbn. rewrite !bind_run, !get_run.
  by destruct e.
Qed.

Lemma truthy_or_fresh_runs n_id c :
  ∃ id c', truthy_or n_id (s ← generateNodeId; mret (JString s)) c = (inr id, c').
Proof.
  unfold truthy_or. destruct n_id as [v|]; [destruct (js_truthy (Some v))|]; by eexists _, _.
Qed.

Lemma throws_importNode i n c : throws (importNode i n c) = malformed_node n.
Proof.
  unfold importNode. rewrite bind_run, get_run.
  destruct n as [|b|v|s|items|fields]; try done.
  rewrite bind_run.
  destruct (truthy_or_fresh_runs (assoc "id" fields) c) as (nid & c' & ->).
  run_M. cbn [malformed_node].
  destruct (assoc "edges" fields) as [[|b|v|s|items|fs]|]; try done.
  cbn [nullish_or coalesce default from_option id].
  pose proof (throws_mapM_from importEdge malformed_edge throws_importEdge items 0 c') as Hm.
  destruct (mapM_from importEdge 0 items c') as [[e|es] c'']; cbn in Hm; by rewrite <-Hm.
Qed.

Lemma throws_importFlow JSON_parse text c :
  throws (importFlow JSON_parse text c)
  = match JSON_parse text with
    | None => true
    | Some data =>
        match nodes_array data with
        | Some items => existsb malformed_node items
        | None => true
        end
    end.
Proof.
  unfold importFlow. destruct (JSON_parse text) as [data|]; [|done].
  rewrite bind_run, get_run. unfold nodes_array.
  destruct data as [|b|v|s|items|fields]; try done.
  destruct (assoc "nodes" fields) as [[|b|v|s|items|fs]|] eqn:Hnodes; try done.
  - cbn [js_truthy isArray negb orb]. by destruct b.
  - cbn [js_truthy isArray negb orb]. by destruct (negb _).
  - cbn [js_truthy isArray negb orb]. by destruct (negb _).
  - cbn [js_truthy isArray negb orb]. rewrite bind_run.
    pose proof (throws_mapM_from importNode malformed_node throws_importNode items 0 c) as Hm.
    destruct (mapM_from importNode 0 items c) as [[e|ns] c']; cbn in Hm; rewrite <-Hm; [done|].
    by rewrite bind_run, get_run.
Qed.

(** C7, amended. [importFlow] throws exactly when the text does not parse, or
    the parsed document has no array-typed [nodes] field, or some element of
    [nodes] is malformed for the importer ([null], or with an [edges] field that
    is neither absent, [null] nor an array, or with a [null] among its edges);
    [handleImport] throws exactly when [importFlow] does, and then the store's
    graph and the selections are what they were. *)
Theorem import_fails_all_or_nothing JSON_parse text w :
  ((∃ e c', importFlow JSON_parse text (App._counter w) = (inl e, c'))
   ↔ JSON_parse text = None
     ∨ ∃ data, JSON_parse text = Some data
         ∧ (nodes_array data = None
            ∨ ∃ items, nodes_array data = Some items
                ∧ ∃ n, n ∈ items ∧ malformed_node n = true))
  ∧ ((∃ e w', App.handleImport JSON_parse text w = App.Threw e w')
     ↔ ∃ e c', importFlow JSON_parse text (App._counter w) = (inl e, c'))
  ∧ (∀ e w', App.handleImport JSON_parse text w = App.Threw e w' →
       App.state w' = App.state w
       ∧ App.selectedNodeId w' = App.selectedNodeId w
       ∧ App.selectedEdge w' = App.selectedEdge w).
Proof.
  split_and!.
  - pose proof (throws_importFlow JSON_parse text (App._counter w)) as Hthrows.
    unfold throws in Hthrows.
    destruct (importFlow JSON_parse text (App._counter w)) as [[e|r] c'] eqn:Hrun;
      cbn in Hthrows.
    + split; [intros _|by eauto].
      destruct (JSON_parse text) as [data|]; [right|by left].
      exists data. split; [done|].
      destruct (nodes_array data) as [items|]; [right|by left].
      exists items. split; [done|].
      symmetry in Hthrows. apply existsb_exists in Hthrows as (n & Hn & Hbad).
      exists n. split; [by apply list_elem_of_In|done].
    + split; [by intros (e & c'' & [=])|].
      intros [Hnone|(data & Hdata & [Hnodes|(items & Hitems & n & Hn & Hbad)])].
      * by rewrite Hnone in Hthrows.
      * by rewrite Hdata, Hnodes in Hthrows.
      * rewrite Hdata, Hitems in Hthrows.
        assert (existsb malformed_node items = true); [|congruence].
        apply existsb_exists. exists n. split; [by apply list_elem_of_In|done].
  - unfold App.handleImport.
    destruct (importFlow JSON_parse text (App._counter w)) as [[e|r] c'].
    + split; by eauto.
    + split.
      * intros (e & w' & Hthrew). destruct (typed_flow r) as [[ns sid]|]; done.
      * by intros (e & c'' & [=]).
  - intros e w'. unfold App.handleImport.
    destruct (importFlow JSON_parse text (App._counter w)) as [[e'|r] c'].
    + by intros [= _ <-].
    + destruct (typed_flow r) as [[ns sid]|]; done.
Qed.

(** C7 as stated fails: the document with [nodes] equal to [[null]] parses and
    has an array-typed [nodes] field, and the import throws a TypeError on
    reading [n.id] of [null]. *)
Lemma import_throws_on_null_node :
  let data := JObject [("nodes", JArray [JNull])] in
  let text := "{" +:+ dquote +:+ "nodes" +:+ dquote +:+ ":[null]}" in
  let JSON_parse := λ _ : string, Some data in
  importFlow JSON_parse text 0 = (inl TypeError, 0)
  ∧ JSON_parse text ≠ None
  ∧ nodes_array data = Some [JNull].
Proof. cbn zeta. split_and!; [reflexivity|done|reflexivity]. Qed.

(** *** Importing an exported document *)

Lemma as_parameters_json p : as_parameters (json_of_parameters p) = Some p.
Proof.
  unfold as_parameters, json_of_parameters.
  rewrite mapM_fmap_Some by (by intros [k v]). cbn.
  by rewrite list_to_map_to_list.
Qed.

Lemma importEdge_exported i e c :
  ∃ ie e',
    importEdge i (json_of_edge (exportedEdge e)) c = (inr ie, S c)
    ∧ typed_edge ie = Some e'
    ∧ edge_content e' = edge_content e.
Proof.
  exists (ImportedEdge.mk ("edge_" +:+ pretty (S c))
            (JString (FlowEdge.toNodeId e)) (JString (FlowEdge.condition e))
            (json_of_parameters (FlowEdge.parameters e))),
         (FlowEdge.mk ("edge_" +:+ pretty (S c))
            (FlowEdge.toNodeId e) (FlowEdge.condition e) (FlowEdge.parameters e)).
  split_and!.
  - unfold importEdge, json_of_edge. rewrite ExportFacts.exportedEdge_parameters.
    rewrite bind_run. cbn [generateEdgeId]. run_M.
    destruct (decide (FlowEdge.parameters e = ∅)) as [->|Hp]; reflexivity.
  - unfold typed_edge. cbn -[json_of_parameters as_parameters].
    by rewrite as_parameters_json.
  - done.
Qed.

Lemma importEdges_exported es i c :
  ∃ ies es' c',
    mapM_from importEdge i (json_of_edge <$> (exportedEdge <$> es)) c = (inr ies, c')
    ∧ mapM typed_edge ies = Some es'
    ∧ edge_content <$> es' = edge_content <$> es.
Proof.
  revert i c. induction es as [|e es IH]; intros i c.
  - by exists [], [], c.
  - destruct (importEdge_exported i e c) as (ie & e' & Hrun & Htyped & Hcontent).
    destruct (IH (S i) (S c)) as (ies & es' & c' & Hruns & Htypeds & Hcontents).
    exists (ie :: ies), (e' :: es'), c'. split_and!.
    + cbn [fmap list_fmap mapM_from]. rewrite bind_run, Hrun, bind_run, Hruns. done.
    + cbn. rewrite Htyped. cbn. rewrite Htypeds. done.
    + cbn. by rewrite Hcontent, Hcontents.
Qed.

Lemma importNode_run i fields c s items ies c' :
  assoc "id" fields = Some (JString s) → s ≠ "" →
  assoc "edges" fields = Some (JArray items) →
  mapM_from importEdge 0 items c = (inr ies, c') →
  importNode i (JObject fields) c
  = (inr (ImportedNode.mk (JString s)
            (nullish_or (assoc "description" fields) (JString ""))
            (nullish_or (assoc "prompt" fields) (JString ""))
            ies
            (snapToGrid (100 + Z.of_nat (i mod 4) * 260))
            (snapToGrid (100 + Z.of_nat (i / 4) * 140))),
     c').
Proof.
  intros Hid Hs Hedges Hruns. unfold importNode. run_M.
  rewrite Hid. unfold truthy_or.
  assert (js_truthy (Some (JString s)) = true) as ->.
  { cbn. by apply negb_true_iff, String.eqb_neq. }
  run_M. rewrite Hedges.
  change (nullish_or (Some (JArray items)) (JArray [])) with (JArray items).
  run_M. rewrite Hruns. reflexivity.
Qed.

Lemma typed_node_strings s d p ies es' x y :
  mapM typed_edge ies = Some es' →
  typed_node (ImportedNode.mk (JString s) (JString d) (JString p) ies x y)
  = Some (FlowNode.mk s d p es' x y).
Proof. intros Htypeds. unfold typed_node. cbn. by rewrite Htypeds. Qed.

Lemma importNode_exported i n c :
  FlowNode.id n ≠ "" →
  ∃ im n' c',
    importNode i (json_of_node (exportedNode n)) c = (inr im, c')
    ∧ typed_node im = Some n'
    ∧ node_content n' = node_content n.
Proof.
  intros Hid.
  destruct (importEdges_exported (FlowNode.edges n) 0 c)
    as (ies & es' & c' & Hruns & Htypeds & Hcontents).
  eexists _, (FlowNode.mk (FlowNode.id n) (FlowNode.description n) (FlowNode.prompt n) es'
                (snapToGrid (100 + Z.of_nat (i mod 4) * 260))
                (snapToGrid (100 + Z.of_nat (i / 4) * 140))),
         c'.
  split_and!.
  - unfold json_of_node.
    apply (importNode_run i _ c (FlowNode.id n)
             (json_of_edge <$> (exportedEdge <$> FlowNode.edges n)) ies c');
      [reflexivity|done|reflexivity|done].
  - exact (typed_node_strings (FlowNode.id n) (FlowNode.description n) (FlowNode.prompt n)
             ies es' _ _ Htypeds).
  - unfold node_content. cbn. by rewrite Hcontents.
Qed.

Lemma importNodes_exported ns i c :
  Forall (λ n, FlowNode.id n ≠ "") ns →
  ∃ ims ns' c',
    mapM_from importNode i (json_of_node <$> (exportedNode <$> ns)) c = (inr ims, c')
    ∧ mapM typed_node ims = Some ns'
    ∧ node_content <$> ns' = node_content <$> ns.
Proof.
  intros Hids. revert i c. induction Hids as [|n ns Hid _ IH]; intros i c.
  - by exists [], [], c.
  - destruct (importNode_exported i n c Hid) as (im & n' & c1 & Hrun & Htyped & Hcontent).
    destruct (IH (S i) c1) as (ims & ns' & c' & Hruns & Htypeds & Hcontents).
    exists (im :: ims), (n' :: ns'), c'. split_and!.
    + cbn [fmap list_fmap mapM_from]. rewrite bind_run, Hrun, bind_run, Hruns. done.
    + cbn. rewrite Htyped. cbn. rewrite Htypeds. done.
    + cbn. by rewrite Hcontent, Hcontents.
Qed.

Lemma importFlow_run JSON_parse text c fields items ims c' :
  JSON_parse text = Some (JObject fields) →
  assoc "nodes" fields = Some (JArray items) →
  mapM_from importNode 0 items c = (inr ims, c') →
  importFlow JSON_parse text c
  = (inr (ims,
          nullish_or (coalesce (assoc "start_node_id" fields) (ImportedNode.id <$> head ims))
            JNull),
     c').
Proof.
  intros Hparse Hnodes Hruns. unfold importFlow. rewrite Hparse. run_M.
  rewrite Hnodes. cbn [js_truthy isArray negb orb]. run_M. rewrite Hruns. by run_M.
Qed.

Lemma typed_start_of_import (startNodeId : option string) ims ns' :
  mapM typed_node ims = Some ns' →
  ∃ start',
    typed_start
      (nullish_or
         (coalesce (Some (from_option JString JNull startNodeId))
            (ImportedNode.id <$> head ims))
         JNull)
    = Some start'.
Proof.
  intros Htyped. destruct startNodeId as [s|]; [by eexists|]. cbn.
  destruct ims as [|im ims]; [by eexists|]. cbn in *.
  destruct (typed_node im) as [n'|] eqn:Him; [|done].
  unfold typed_node in Him. destruct (ImportedNode.id im); try done. by eexists.
Qed.

(** C1, amended. For a graph whose node ids are all non-empty, importing the
    text of the export (a text that [JSON.parse] reads as the JSON value of the
    exported document) succeeds, its values have the declared types, and the
    graph that [handleImport] loads has the same sequence of node ids,
    descriptions and prompts and, node by node, the same sequence of edge
    targets, conditions and parameter maps. *)
Theorem import_export_round_trip
    (JSON_parse : string → option json) (JSON_stringify : ExportedFlow.t → string)
    (nodes : list FlowNode.t) (startNodeId : option string) (w : App.World) :
  Forall (λ n, FlowNode.id n ≠ "") nodes →
  JSON_parse (JSON_stringify (buildExportedFlow nodes startNodeId))
  = Some (json_of_flow (buildExportedFlow nodes startNodeId)) →
  ∃ imported sid c' nodes' start',
    importFlow JSON_parse (JSON_stringify (buildExportedFlow nodes startNodeId))
      (App._counter w)
    = (inr (imported, sid), c')
    ∧ typed_flow (imported, sid) = Some (nodes', start')
    ∧ App.handleImport JSON_parse (JSON_stringify (buildExportedFlow nodes startNodeId)) w
      = App.Returned (App.mk c' (FlowState.mk nodes' start') None None)
    ∧ node_content <$> nodes' = node_content <$> nodes.
Proof.
  intros Hids Hparse.
  destruct (importNodes_exported nodes 0 (App._counter w) Hids)
    as (ims & ns' & c' & Hruns & Htypeds & Hcontents).
  destruct (typed_start_of_import startNodeId ims ns' Htypeds) as [start' Hstart].
  assert (importFlow JSON_parse (JSON_stringify (buildExportedFlow nodes startNodeId))
            (App._counter w)
          = (inr (ims,
                  nullish_or
                    (coalesce (Some (from_option JString JNull startNodeId))
                       (ImportedNode.id <$> head ims))
                    JNull),
             c')) as Hrun.
  { exact (importFlow_run JSON_parse _ (App._counter w) _ _ ims c' Hparse eq_refl Hruns). }
  assert (typed_flow
            (ims,
             nullish_or
               (coalesce (Some (from_option JString JNull startNodeId))
                  (ImportedNode.id <$> head ims))
               JNull)
          = Some (ns', start')) as Htyped.
  { unfold typed_flow. cbn [fst snd]. rewrite Htypeds. cbn [mbind option_bind].
    rewrite Hstart. reflexivity. }
  eexists ims, _, c', ns', start'. split_and!.
  - exact Hrun.
  - exact Htyped.
  - unfold App.handleImport. rewrite Hrun, Htyped. reflexivity.
  - exact Hcontents.
Qed.

Lemma import_export_round_trip_witness :
  let nodes :=
    [FlowNode.mk "welcome" "Entry point of the flow" "Greet the user."
       [FlowEdge.mk "edge_2" "billing" "asks about an invoice" {[ "team" := "finance" ]};
        FlowEdge.mk "edge_3" "welcome" "default" ∅] 100 180;
     FlowNode.mk "billing" "Billing questions" "" [] 360 180] in
  let startNodeId := Some "welcome" in
  let doc := buildExportedFlow nodes startNodeId in
  let JSON_stringify := λ _ : ExportedFlow.t, "<the text of the export>" in
  let JSON_parse := λ _ : string, Some (json_of_flow doc) in
  let w := App.mk 3 (FlowState.mk nodes startNodeId) None None in
  (Forall (λ n, FlowNode.id n ≠ "") nodes
   ∧ JSON_parse (JSON_stringify doc) = Some (json_of_flow doc))
  ∧ ∃ imported sid c' nodes' start',
      importFlow JSON_parse (JSON_stringify doc) (App._counter w)
      = (inr (imported, sid), c')
      ∧ typed_flow (imported, sid) = Some (nodes', start')
      ∧ App.handleImport JSON_parse (JSON_stringify doc) w
        = App.Returned (App.mk c' (FlowState.mk nodes' start') None None)
      ∧ node_content <$> nodes' = node_content <$> nodes.
Proof.
  intros nodes startNodeId doc JSON_stringify JSON_parse w.
  assert (Forall (λ n, FlowNode.id n ≠ "") nodes) as Hids.
  { repeat constructor; done. }
  split; [by split|].
  apply (import_export_round_trip JSON_parse JSON_stringify nodes startNodeId w Hids).
  reflexivity.
Defined.

(** C1 as stated fails on a node with the empty id: [n.id || generateNodeId()]
    takes the empty string for a missing id and draws a fresh one, so the
    imported node is called [node_1]. *)
Lemma import_regenerates_empty_id :
  let nodes := [FlowNode.mk "" "untitled" "" [] 100 180] in
  let doc := buildExportedFlow nodes None in
  let JSON_parse := λ _ : string, Some (json_of_flow doc) in
  importFlow JSON_parse "<the text of the export>" 0
  = (inr ([ImportedNode.mk (JString "node_1") (JString "untitled") (JString "") [] 100 100],
          JString "node_1"),
     1)
  ∧ typed_flow
      ([ImportedNode.mk (JString "node_1") (JString "untitled") (JString "") [] 100 100],
       JString "node_1")
    = Some ([FlowNode.mk "node_1" "untitled" "" [] 100 100], Some "node_1")
  ∧ node_content <$> [FlowNode.mk "node_1" "untitled" "" [] 100 100]
    ≠ node_content <$> nodes.
Proof. cbn zeta. split_and!; [vm_compute; reflexivity|reflexivity|done]. Qed.

End ImportFacts.

(** ** Wheel zoom *)

Module ZoomFacts.
Local Open Scope Z_scope.

(** *** Rounding in the binary64 format *)

Lemma digits2_log2 p : Zpos (SpecFloat.digits2_pos p) = Z.succ (Z.log2 (Zpos p)).
Proof.
  assert (SpecFloat.digits2_pos p = Pos.size p) as ->.
  { induction p as [p IH|p IH|]; cbn; congruence. }
  destruct p; cbn [Pos.size Z.log2]; rewrite ?Pos2Z.inj_succ; reflexivity.
Qed.

Lemma digits2_of_range p k :
  0 <= k -> 2 ^ k <= Zpos p < 2 ^ (k + 1) -> Zpos (SpecFloat.digits2_pos p) = k + 1.
Proof.
  intros Hk Hp. rewrite digits2_log2. rewrite (Z.log2_unique (Zpos p) k); lia.
Qed.

Lemma digits2_range p :
  2 ^ (Zpos (SpecFloat.digits2_pos p) - 1) <= Zpos p < 2 ^ Zpos (SpecFloat.digits2_pos p).
Proof.
  rewrite digits2_log2. replace (Z.succ (Z.log2 (Zpos p)) - 1) with (Z.log2 (Zpos p)) by lia.
  apply Z.log2_spec. lia.
Qed.

Lemma shr_1_m mrs : 0 <= shr_m mrs -> shr_m (shr_1 mrs) = shr_m mrs / 2 /\ 0 <= shr_m (shr_1 mrs).
Proof.
  destruct mrs as [m r s]. cbn [shr_m]. intros Hm.
  destruct m as [|[p|p|]|p]; cbn [shr_1 shr_m].
  - split; [reflexivity|lia].
  - split; [|lia]. rewrite (Pos2Z.inj_xI p). apply (Z.div_unique _ _ _ 1); lia.
  - split; [|lia]. rewrite (Pos2Z.inj_xO p). apply (Z.div_unique _ _ _ 0); lia.
  - split; [reflexivity|lia].
  - lia.
Qed.

Lemma iter_shr_1_m p : forall mrs,
  0 <= shr_m mrs ->
  shr_m (SpecFloat.iter_pos shr_1 p mrs) = shr_m mrs / 2 ^ Zpos p /\ 0 <= shr_m (SpecFloat.iter_pos shr_1 p mrs).
Proof.
  induction p as [p IH|p IH|]; intros mrs Hm; cbn [SpecFloat.iter_pos].
  - destruct (shr_1_m mrs Hm) as [H1 H1'].
    destruct (IH _ H1') as [H2 H2']. destruct (IH _ H2') as [H3 H3'].
    split; [|assumption]. rewrite H3, H2, H1.
    assert (0 < 2 ^ Zpos p) by (apply Z.pow_pos_nonneg; lia).
    rewrite !Z.div_div by lia. f_equal.
    rewrite (Pos2Z.inj_xI p).
    replace (2 * Zpos p + 1) with (1 + Zpos p + Zpos p) by lia.
    rewrite !Z.pow_add_r by lia. change (2 ^ 1) with 2. ring.
  - destruct (IH _ Hm) as [H2 H2']. destruct (IH _ H2') as [H3 H3'].
    split; [|assumption]. rewrite H3, H2.
    assert (0 < 2 ^ Zpos p) by (apply Z.pow_pos_nonneg; lia).
    rewrite !Z.div_div by lia. f_equal.
    rewrite (Pos2Z.inj_xO p). replace (2 * Zpos p) with (Zpos p + Zpos p) by lia.
    rewrite Z.pow_add_r by lia. ring.
  - apply shr_1_m. assumption.
Qed.

Lemma round_nearest_even_range m l :
  m <= round_nearest_even m l <= m + 1.
Proof.
  destruct l as [|[| |]]; cbn [round_nearest_even]; try lia. destruct (Z.even m); lia.
Qed.

Lemma fexp_normal x : -1074 <= x - 53 -> fexp prec emax x = x - 53.
Proof. intros Hx. unfold fexp, emin, prec, emax. lia. Qed.

Lemma round_aux_spec (P : positive) (ex : Z) :
  53 < Zpos (digits2_pos P) ->
  -1074 <= ex + (Zpos (digits2_pos P) - 53) ->
  ex + (Zpos (digits2_pos P) - 53) + 1 <= 971 ->
  exists m3 e3,
    binary_round_aux prec emax false (Zpos P) ex loc_Exact = S754_finite false m3 e3
    /\ 2 ^ 52 <= Zpos m3 < 2 ^ 53
    /\ ((e3 = ex + (Zpos (digits2_pos P) - 53)
         /\ Zpos P / 2 ^ (Zpos (digits2_pos P) - 53) <= Zpos m3
            <= Zpos P / 2 ^ (Zpos (digits2_pos P) - 53) + 1)
        \/ (e3 = ex + (Zpos (digits2_pos P) - 53) + 1 /\ Zpos m3 = 2 ^ 52
            /\ Zpos P / 2 ^ (Zpos (digits2_pos P) - 53) = 2 ^ 53 - 1)).
Proof.
  pose proof (digits2_range P) as HP.
  set (d := Zpos (digits2_pos P)) in *. intros Hd Hlo Hhi.
  destruct (d - 53) as [|q|q] eqn:Hq; try lia.
  assert (0 < 2 ^ Zpos q) as Hpow by (apply Z.pow_pos_nonneg; lia).
  assert (2 ^ (d - 1) = 2 ^ 52 * 2 ^ Zpos q) as Hlow.
  { rewrite <-Z.pow_add_r by lia. f_equal. lia. }
  assert (2 ^ d = 2 ^ 53 * 2 ^ Zpos q) as Hupp.
  { rewrite <-Z.pow_add_r by lia. f_equal. lia. }
  unfold binary_round_aux.
  assert (shr_fexp prec emax (Zpos P) ex loc_Exact
          = (SpecFloat.iter_pos shr_1 q (Build_shr_record (Zpos P) false false), ex + Zpos q)) as ->.
  { unfold shr_fexp. cbn [Zdigits2 shr_record_of_loc]. fold d.
    rewrite fexp_normal by lia.
    replace (d + ex - 53 - ex) with (Zpos q) by lia. reflexivity. }
  destruct (iter_shr_1_m q (Build_shr_record (Zpos P) false false)) as [Hm1 _];
    [cbn; lia|]. cbn [shr_m] in Hm1.
  set (mrs := SpecFloat.iter_pos shr_1 q _) in *.
  assert (2 ^ 52 <= shr_m mrs < 2 ^ 53) as Hm1range.
  { rewrite Hm1. split.
    - apply Z.div_le_lower_bound; lia.
    - apply Z.div_lt_upper_bound; lia. }
  pose proof (round_nearest_even_range (shr_m mrs) (loc_of_shr_record mrs)) as Hm2.
  set (m2 := round_nearest_even (shr_m mrs) (loc_of_shr_record mrs)) in *.
  destruct m2 as [|p2|p2] eqn:Hp2; try lia.
  destruct (Z.eq_dec (Zpos p2) (2 ^ 53)) as [Hcarry|Hnocarry].
  - (* the rounded mantissa needs one more bit *)
    exists (4503599627370496%positive), (ex + Zpos q + 1).
    split; [|split; [split; [discriminate|reflexivity]|right; rewrite <-Hm1; lia]].
    change (2 ^ 53) with 9007199254740992 in Hcarry. injection Hcarry as ->.
    unfold shr_fexp. cbn [Zdigits2 shr_record_of_loc].
    change (Zpos (digits2_pos 9007199254740992)) with 54.
    rewrite fexp_normal by lia.
    replace (54 + (ex + Zpos q) - 53 - (ex + Zpos q)) with 1 by lia.
    cbn [shr SpecFloat.iter_pos shr_1 shr_m].
    replace (ex + Z.pos q + 1 <=? emax - prec) with true; [reflexivity|].
    symmetry. apply Z.leb_le. unfold emax, prec. lia.
  - exists p2, (ex + Zpos q).
    split; [|split; [lia|left; rewrite <-Hm1; lia]].
    unfold shr_fexp. cbn [Zdigits2 shr_record_of_loc].
    rewrite (digits2_of_range p2 52) by lia.
    rewrite fexp_normal by lia.
    replace (52 + 1 + (ex + Zpos q) - 53 - (ex + Zpos q)) with 0 by lia.
    cbn [shr shr_m].
    replace (ex + Z.pos q <=? emax - prec) with true; [reflexivity|].
    symmetry. apply Z.leb_le. unfold emax, prec. lia.
Qed.

Lemma SFleb_finite m1 e1 m2 e2 :
  SFleb (S754_finite false m1 e1) (S754_finite false m2 e2) = true
  <-> e1 < e2 \/ (e1 = e2 /\ Zpos m1 <= Zpos m2).
Proof.
  unfold SFleb, SFcompare.
  destruct (Z.compare_spec e1 e2) as [He|He|He].
  - change (Pos.compare_cont Eq m1 m2) with (Pos.compare m1 m2).
    destruct (Pos.compare_spec m1 m2) as [Hm|Hm|Hm]; split; intros H; try discriminate;
      try reflexivity; try (right; split; [assumption|lia]).
    destruct H as [H|[_ H]]; lia.
  - split; [intros _; left; assumption|reflexivity].
  - split; [discriminate|]. intros [H|[H _]]; lia.
Qed.

Lemma SFltb_finite m1 e1 m2 e2 :
  SFltb (S754_finite false m1 e1) (S754_finite false m2 e2) = true
  <-> e1 < e2 \/ (e1 = e2 /\ Zpos m1 < Zpos m2).
Proof.
  unfold SFltb, SFcompare.
  destruct (Z.compare_spec e1 e2) as [He|He|He].
  - change (Pos.compare_cont Eq m1 m2) with (Pos.compare m1 m2).
    destruct (Pos.compare_spec m1 m2) as [Hm|Hm|Hm]; split; intros H; try discriminate;
      try reflexivity; try (right; split; [assumption|lia]);
      destruct H as [H|[_ H]]; lia.
  - split; [intros _; left; assumption|reflexivity].
  - split; [discriminate|]. intros [H|[H _]]; lia.
Qed.

Lemma SFcompare_refl x : x <> S754_nan -> SFcompare x x = Some Eq.
Proof.
  destruct x as [s|s| |s m e]; intros Hx; try (destruct s; reflexivity); [congruence|].
  cbn [SFcompare]. rewrite Z.compare_refl.
  change (Pos.compare_cont Eq m m) with (Pos.compare m m). rewrite Pos.compare_refl.
  destruct s; reflexivity.
Qed.

Lemma SFcompare_Eq_finite x m e :
  SFcompare x (S754_finite false m e) = Some Eq -> x = S754_finite false m e.
Proof.
  destruct x as [s|s| |s m' e']; cbn [SFcompare]; try (destruct s; discriminate);
    try discriminate.
  destruct s; [discriminate|].
  destruct (Z.compare_spec e' e) as [He|He|He]; try discriminate.
  change (Pos.compare_cont Eq m' m) with (Pos.compare m' m).
  destruct (Pos.compare_spec m' m) as [Hm|Hm|Hm]; try discriminate. congruence.
Qed.

Lemma SFcompare_finite_Eq x m e :
  SFcompare (S754_finite false m e) x = Some Eq -> x = S754_finite false m e.
Proof.
  destruct x as [s|s| |s m' e']; cbn [SFcompare]; try (destruct s; discriminate);
    try discriminate.
  destruct s; [discriminate|].
  destruct (Z.compare_spec e e') as [He|He|He]; try discriminate.
  change (Pos.compare_cont Eq m m') with (Pos.compare m m').
  destruct (Pos.compare_spec m m') as [Hm|Hm|Hm]; try discriminate. congruence.
Qed.

Lemma leb_not_nan_r x y : (x <=? y)%float = true -> is_nan y = false.
Proof.
  rewrite FloatAxioms.leb_spec. intros Hle. unfold is_nan. rewrite FloatAxioms.eqb_spec. unfold SFeqb.
  rewrite SFcompare_refl; [reflexivity|].
  intros Hy. rewrite Hy in Hle. destruct (Prim2SF x); discriminate.
Qed.

Lemma leb_not_nan_l x y : (x <=? y)%float = true -> is_nan x = false.
Proof.
  rewrite FloatAxioms.leb_spec. intros Hle. unfold is_nan. rewrite FloatAxioms.eqb_spec. unfold SFeqb.
  rewrite SFcompare_refl; [reflexivity|].
  intros Hx. rewrite Hx in Hle. discriminate.
Qed.

Local Open Scope float_scope.

Lemma SF_quarter : Prim2SF 0.25 = S754_finite false 4503599627370496 (-54).
Proof. vm_compute. reflexivity. Qed.
Lemma SF_max_zoom : Prim2SF 2.5 = S754_finite false 5629499534213120 (-51).
Proof. vm_compute. reflexivity. Qed.
Lemma SF_zoom_in : Prim2SF 1.08 = S754_finite false 4863887597560136 (-52).
Proof. vm_compute. reflexivity. Qed.
Lemma SF_zoom_out : Prim2SF 0.92 = S754_finite false 8286623314361713 (-53).
Proof. vm_compute. reflexivity. Qed.

Local Open Scope Z_scope.

(** A zoom in [0.25, 2.5] is a normal positive number with exponent between
    [-54] and [-51]. *)
Lemma zoom_range_SF (z : float) :
  (0.25 <=? z)%float = true -> (z <=? 2.5)%float = true ->
  exists m e,
    Prim2SF z = S754_finite false m e
    /\ -54 <= e <= -51
    /\ 2 ^ 52 <= Zpos m < 2 ^ 53
    /\ (e = -51 -> Zpos m <= 5629499534213120).
Proof.
  rewrite !FloatAxioms.leb_spec, SF_quarter, SF_max_zoom. intros Hlo Hhi.
  pose proof (Prim2SF_valid z) as Hvalid.
  destruct (Prim2SF z) as [s|s| |s m e]; try (destruct s; discriminate); try discriminate.
  destruct s; [discriminate|].
  apply SFleb_finite in Hlo, Hhi.
  exists m, e. split; [reflexivity|].
  assert (-54 <= e <= -51) as He by lia. split; [assumption|].
  cbn [SpecFloat.valid_binary] in Hvalid. unfold bounded, canonical_mantissa in Hvalid.
  apply andb_prop in Hvalid as [Hcanon _]. apply Z.eqb_eq in Hcanon.
  unfold fexp, emin, prec, emax in Hcanon.
  pose proof (digits2_range m) as Hm.
  assert (Zpos (digits2_pos m) = 53) as Hd by lia. rewrite Hd in Hm.
  split; [exact Hm|]. lia.
Qed.

(** The product with a normal positive constant, rounded. *)
Lemma mul_normal_SF (m M : positive) (e E : Z) :
  2 ^ 52 <= Zpos m < 2 ^ 53 -> 2 ^ 52 <= Zpos M < 2 ^ 53 ->
  -200 <= e + E <= 200 ->
  exists m3 e3 d,
    SF64mul (S754_finite false m e) (S754_finite false M E) = S754_finite false m3 e3
    /\ (d = 52 \/ d = 53)
    /\ 2 ^ (52 + d) <= Zpos m * Zpos M < 2 ^ (53 + d)
    /\ 2 ^ 52 <= Zpos m3 < 2 ^ 53
    /\ ((e3 = e + E + d
         /\ Zpos m * Zpos M / 2 ^ d <= Zpos m3 <= Zpos m * Zpos M / 2 ^ d + 1)
        \/ (e3 = e + E + d + 1 /\ Zpos m3 = 2 ^ 52
            /\ Zpos m * Zpos M / 2 ^ d = 2 ^ 53 - 1)).
Proof.
  intros Hm HM He.
  unfold SF64mul, SFmul. cbn [xorb].
  pose proof (digits2_range (m * M)) as HP.
  rewrite Pos2Z.inj_mul in HP.
  set (d := Zpos (digits2_pos (m * M))) in *.
  assert (2 ^ 104 <= Zpos m * Zpos M < 2 ^ 106) as Hprod.
  { change (2 ^ 104) with (2 ^ 52 * 2 ^ 52). change (2 ^ 106) with (2 ^ 53 * 2 ^ 53).
    split; [apply Z.mul_le_mono_nonneg; lia|apply Z.mul_lt_mono_nonneg; lia]. }
  assert (104 < d) as Hd1.
  { apply (Z.pow_lt_mono_r_iff 2); lia. }
  assert (d - 1 < 106) as Hd2.
  { apply (Z.pow_lt_mono_r_iff 2); lia. }
  destruct (round_aux_spec (m * M) (e + E)) as (m3 & e3 & Hround & Hm3 & Hcases);
    fold d; try lia.
  exists m3, e3, (d - 53). split; [exact Hround|].
  split; [lia|].
  replace (52 + (d - 53)) with (d - 1) by lia. replace (53 + (d - 53)) with d by lia.
  split; [exact HP|]. split; [exact Hm3|].
  fold d in Hcases. rewrite Pos2Z.inj_mul in Hcases.
  destruct Hcases as [[-> Hc]|[-> Hc]]; [left|right]; (split; [lia|assumption]).
Qed.

(** The zoom-in step does not fall below the least zoom. *)
Lemma zoom_in_above_min (z : float) :
  (0.25 <=? z)%float = true -> (z <=? 2.5)%float = true ->
  (0.25 <=? z * 1.08)%float = true.
Proof.
  intros Hlo Hhi.
  destruct (zoom_range_SF z Hlo Hhi) as (m & e & Hz & He & Hm & _).
  rewrite FloatAxioms.leb_spec, FloatAxioms.mul_spec, SF_quarter, SF_zoom_in, Hz.
  destruct (mul_normal_SF m 4863887597560136 e (-52))
    as (m3 & e3 & d & -> & Hd & _ & Hm3 & Hcases); [exact Hm|lia|lia|].
  apply SFleb_finite. change (Z.pos 4503599627370496) with (2 ^ 52).
  destruct Hcases as [[-> _]|[-> _]]; lia.
Qed.

(** The zoom-out step does not rise above the greatest zoom. *)
Lemma zoom_out_below_max (z : float) :
  (0.25 <=? z)%float = true -> (z <=? 2.5)%float = true ->
  (z * 0.92 <=? 2.5)%float = true.
Proof.
  intros Hlo Hhi.
  destruct (zoom_range_SF z Hlo Hhi) as (m & e & Hz & He & Hm & Htop).
  rewrite FloatAxioms.leb_spec, FloatAxioms.mul_spec, SF_max_zoom, SF_zoom_out, Hz.
  destruct (mul_normal_SF m 8286623314361713 e (-53))
    as (m3 & e3 & d & -> & Hd & Hprod & Hm3 & Hcases); [exact Hm|lia|lia|].
  apply SFleb_finite.
  assert (e = -51 -> d = 53 ->
          Zpos m * 8286623314361713 / 2 ^ d <= 5179139571476070) as Hquot.
  { intros He' ->. specialize (Htop He').
    transitivity (5629499534213120 * 8286623314361713 / 2 ^ 53).
    - apply Z.div_le_mono; lia.
    - vm_compute. discriminate. }
  change (2 ^ 52) with 4503599627370496 in *.
  change (2 ^ 53) with 9007199254740992 in *.
  destruct Hcases as [[-> Hc]|[-> [Hc Hq]]]; destruct Hd as [-> | ->];
    destruct (Z.eq_dec e (-51)) as [He'|He']; lia.
Qed.

Lemma ltb_or_equal (c x : float) m e :
  Prim2SF c = S754_finite false m e ->
  (c <=? x)%float = true -> (c <? x)%float = false -> x = c.
Proof.
  intros Hc. rewrite FloatAxioms.leb_spec, FloatAxioms.ltb_spec. unfold SFleb, SFltb. intros Hle Hlt.
  apply Prim2SF_inj. rewrite Hc in *.
  apply SFcompare_finite_Eq.
  destruct (SFcompare (S754_finite false m e) (Prim2SF x)) as [[| |]|];
    (reflexivity || discriminate).
Qed.

Lemma equal_or_ltb (c x : float) m e :
  Prim2SF c = S754_finite false m e ->
  (x <=? c)%float = true -> (x <? c)%float = false -> x = c.
Proof.
  intros Hc. rewrite FloatAxioms.leb_spec, FloatAxioms.ltb_spec. unfold SFleb, SFltb. intros Hle Hlt.
  apply Prim2SF_inj. rewrite Hc in *.
  apply SFcompare_Eq_finite.
  destruct (SFcompare (Prim2SF x) (S754_finite false m e)) as [[| |]|];
    (reflexivity || discriminate).
Qed.

Lemma Math_max_above (x : float) :
  (0.25 <=? x)%float = true -> Canvas.Math_max 0.25 x = x.
Proof.
  intros Hle. unfold Canvas.Math_max.
  rewrite (leb_not_nan_r _ _ Hle).
  change (is_nan 0.25) with false. change (Canvas.is_neg_zero 0.25) with false.
  cbn [orb andb].
  destruct (0.25 <? x)%float eqn:Hlt; [reflexivity|].
  symmetry. exact (ltb_or_equal 0.25 x _ _ SF_quarter Hle Hlt).
Qed.

Lemma Math_min_below (x : float) :
  (x <=? 2.5)%float = true -> Canvas.Math_min 2.5 x = x.
Proof.
  intros Hle. unfold Canvas.Math_min.
  rewrite (leb_not_nan_l _ _ Hle).
  change (is_nan 2.5) with false. change (Canvas.is_pos_zero 2.5) with false.
  cbn [orb andb].
  destruct (x <? 2.5)%float eqn:Hlt; [reflexivity|].
  symmetry. exact (equal_or_ltb 2.5 x _ _ SF_max_zoom Hle Hlt).
Qed.

Lemma Math_max_below (x : float) :
  (x <=? 2.5)%float = true -> (Canvas.Math_max 0.25 x <=? 2.5)%float = true.
Proof.
  intros Hle. unfold Canvas.Math_max.
  rewrite (leb_not_nan_l _ _ Hle).
  change (is_nan 0.25) with false. change (Canvas.is_neg_zero 0.25) with false.
  cbn [orb andb].
  destruct (0.25 <? x)%float; [exact Hle|reflexivity].
Qed.

Lemma ltb_leb (x y : float) : (x <? y)%float = true -> (x <=? y)%float = true.
Proof.
  rewrite FloatAxioms.ltb_spec, FloatAxioms.leb_spec. unfold SFltb, SFleb.
  destruct (SFcompare (Prim2SF x) (Prim2SF y)) as [[| |]|]; (reflexivity || discriminate).
Qed.

Lemma Math_min_range (x : float) :
  (0.25 <=? x)%float = true ->
  (0.25 <=? Canvas.Math_min 2.5 x)%float = true
  /\ (Canvas.Math_min 2.5 x <=? 2.5)%float = true.
Proof.
  intros Hle. unfold Canvas.Math_min.
  rewrite (leb_not_nan_r _ _ Hle).
  change (is_nan 2.5) with false. change (Canvas.is_pos_zero 2.5) with false.
  cbn [orb andb].
  destruct (x <? 2.5)%float eqn:Hlt.
  - split; [exact Hle|exact (ltb_leb _ _ Hlt)].
  - split; reflexivity.
Qed.

Lemma Math_max_range (x : float) :
  (x <=? 2.5)%float = true ->
  (0.25 <=? Canvas.Math_max 0.25 x)%float = true
  /\ (Canvas.Math_max 0.25 x <=? 2.5)%float = true.
Proof.
  intros Hle. split; [|exact (Math_max_below x Hle)].
  unfold Canvas.Math_max.
  rewrite (leb_not_nan_l _ _ Hle).
  change (is_nan 0.25) with false. change (Canvas.is_neg_zero 0.25) with false.
  cbn [orb andb].
  destruct (0.25 <? x)%float eqn:Hlt; [exact (ltb_leb _ _ Hlt)|reflexivity].
Qed.

Lemma zoom_after_zoom_in_ticks (ticks : list float) (st : Canvas.State) :
  Forall (fun deltaY => (0 <? deltaY)%float = false) ticks ->
  Canvas.zoom (fold_left (fun st deltaY => Canvas.handleWheel deltaY st) ticks st)
  = Nat.iter (length ticks) zoom_in_step (Canvas.zoom st).
Proof.
  intros Hticks. revert st.
  induction Hticks as [|deltaY ticks Hin _ IH]; intros st; [reflexivity|].
  cbn [fold_left length]. rewrite IH, Nat.iter_succ_r.
  unfold Canvas.handleWheel at 1. rewrite Hin. reflexivity.
Qed.

(** C8. From a zoom in [0.25, 2.5], a wheel tick leaves the pan as it is and
    sets the zoom to [Math.min(2.5, zoom * 1.08)] when it zooms in ([deltaY] not
    above 0) and to [Math.max(0.25, zoom * 0.92)] when it zooms out, in binary64
    arithmetic, and the new zoom is in [0.25, 2.5] again; and from zoom 1, after
    any number of zoom-in ticks up to 100 the zoom is at most 2.5, and after 100
    of them it is exactly 2.5. *)
Theorem wheel_zoom_clamped :
  (forall (deltaY : float) (st : Canvas.State),
     (0.25 <=? Canvas.zoom st)%float = true ->
     (Canvas.zoom st <=? 2.5)%float = true ->
     let st' := Canvas.handleWheel deltaY st in
     Canvas.pan st' = Canvas.pan st
     /\ ((0 <? deltaY)%float = false ->
         Canvas.zoom st' = Canvas.Math_min 2.5 (Canvas.zoom st * 1.08))
     /\ ((0 <? deltaY)%float = true ->
         Canvas.zoom st' = Canvas.Math_max 0.25 (Canvas.zoom st * 0.92))
     /\ (0.25 <=? Canvas.zoom st')%float = true
     /\ (Canvas.zoom st' <=? 2.5)%float = true)
  /\ (forall (ticks : list float) (pan : Canvas.Pan),
        Forall (fun deltaY => (0 <? deltaY)%float = false) ticks ->
        (length ticks <= 100)%nat ->
        let st' :=
          fold_left (fun st deltaY => Canvas.handleWheel deltaY st) ticks
            (Canvas.mk pan 1) in
        (Canvas.zoom st' <=? 2.5)%float = true
        /\ (length ticks = 100%nat -> Canvas.zoom st' = 2.5%float)).
Proof.
  split.
  - intros deltaY st Hlo Hhi st'.
    pose proof (zoom_in_above_min _ Hlo Hhi) as Hin.
    pose proof (zoom_out_below_max _ Hlo Hhi) as Hout.
    assert (Canvas.zoom st'
            = if (0 <? deltaY)%float
              then Canvas.Math_max 0.25 (Canvas.zoom st * 0.92)
              else Canvas.Math_min 2.5 (Canvas.zoom st * 1.08)) as Hzoom.
    { unfold st', Canvas.handleWheel. cbn [Canvas.zoom].
      destruct (0 <? deltaY)%float.
      - apply Math_min_below, Math_max_below, Hout.
      - by rewrite (Math_max_above _ Hin). }
    split; [reflexivity|]. rewrite Hzoom.
    destruct (0 <? deltaY)%float.
    + split; [discriminate|]. split; [reflexivity|]. apply Math_max_range, Hout.
    + split; [reflexivity|]. split; [discriminate|]. apply Math_min_range, Hin.
  - intros ticks pan Hticks Hlen st'. unfold st'.
    rewrite (zoom_after_zoom_in_ticks ticks _ Hticks). cbn [Canvas.zoom].
    split.
    + assert (forallb (fun k => (Nat.iter k zoom_in_step 1 <=? 2.5)%float) (seq 0 101)
              = true) as Hall by (vm_compute; reflexivity).
      rewrite forallb_forall in Hall. apply Hall, in_seq. lia.
    + intros ->. vm_compute. reflexivity.
Qed.

(** One tick from zoom 1 in each direction, and the twelfth zoom-in tick, the
    first to hit the ceiling. *)
Example wheel_ticks_from_one :
  let st := Canvas.mk (Canvas.mkPan 40 (-12)) 1 in
  Canvas.handleWheel (-100) st = Canvas.mk (Canvas.mkPan 40 (-12)) 1.08
  /\ Canvas.handleWheel 100 st = Canvas.mk (Canvas.mkPan 40 (-12)) 0.92
  /\ (Nat.iter 11 zoom_in_step 1 <? 2.5)%float = true
  /\ Nat.iter 12 zoom_in_step 1%float = 2.5%float.
Proof. cbn zeta. repeat split; vm_compute; reflexivity. Qed.

End ZoomFacts.

(** ** The graph store: how its operations compose *)

Module StoreLaws.
Import FlowState Store ListFacts StoreFacts.

Lemma with_edges_with_edges n es es' : with_edges (with_edges n es) es' = with_edges n es'.
Proof. done. Qed.

(** The branch of [updateNode] for a node other than the renamed one rewrites
    the targets of all its edges; the test in front of it only saves the
    copy. *)
Lemma updateNode_rename_nodes old new prev :
  new ≠ "" →
  nodes (updateNode old (NodePatch.mk (Some new) None None) prev)
  = (λ n, if decide (FlowNode.id n = old)
          then FlowNode.mk new (FlowNode.description n) (FlowNode.prompt n)
                 (FlowNode.edges n) (FlowNode.x n) (FlowNode.y n)
          else with_edges n
                 ((λ e, if decide (FlowEdge.toNodeId e = old) then retarget e new else e)
                    <$> FlowNode.edges n)) <$> nodes prev.
Proof.
  intros Hnew. unfold updateNode. cbn [nodes NodePatch.id].
  apply list_fmap_ext. intros _ n _. case_decide as Hn; [done|].
  assert (truthy (Some new) = true) as ->.
  { cbn. by apply negb_true_iff, String.eqb_neq. }
  cbn [andb]. destruct (existsb _ _) eqn:Hex; [done|].
  rewrite fmap_id_on; [by rewrite with_edges_same|].
  intros e He. case_decide as Hto; [|done].
  apply not_true_iff_false in Hex. destruct Hex.
  apply existsb_exists. exists e. split; [by apply list_elem_of_In|].
  by apply bool_decide_eq_true.
Qed.

Lemma updateNode_rename_start old new prev :
  new ≠ "" →
  startNodeId (updateNode old (NodePatch.mk (Some new) None None) prev)
  = if decide (startNodeId prev = Some old) then Some new else startNodeId prev.
Proof.
  intros Hnew. unfold updateNode. cbn [startNodeId NodePatch.id].
  assert (truthy (Some new) = true) as ->.
  { cbn. by apply negb_true_iff, String.eqb_neq. }
  cbn [andb]. case_decide; [by rewrite bool_decide_eq_true_2|by rewrite bool_decide_eq_false_2].
Qed.

(** X1. Renaming a node to an id that is in use nowhere (no node carries it,
    no edge targets it, the start pointer is not it) and renaming it back
    restores the state. *)
Theorem updateNode_rename_back (old new : string) (prev : FlowState.t) :
  old ≠ "" → new ≠ "" →
  new ∉ FlowNode.id <$> nodes prev →
  (∀ n e, n ∈ nodes prev → e ∈ FlowNode.edges n → FlowEdge.toNodeId e ≠ new) →
  startNodeId prev ≠ Some new →
  updateNode new (NodePatch.mk (Some old) None None)
    (updateNode old (NodePatch.mk (Some new) None None) prev)
  = prev.
Proof.
  intros Hold Hnew Hfresh Htargets Hstart.
  destruct prev as [ns sid]. cbn [nodes startNodeId] in *.
  set (mid := updateNode old _ _).
  assert (updateNode new (NodePatch.mk (Some old) None None) mid
          = FlowState.mk (nodes (updateNode new (NodePatch.mk (Some old) None None) mid))
              (startNodeId (updateNode new (NodePatch.mk (Some old) None None) mid))) as ->
    by done.
  rewrite updateNode_rename_nodes, updateNode_rename_start by done.
  unfold mid. rewrite updateNode_rename_nodes, updateNode_rename_start by done.
  cbn [nodes startNodeId]. f_equal.
  - rewrite <-list_fmap_compose. apply fmap_id_on. intros n Hn. cbn.
    destruct (decide (FlowNode.id n = old)) as [Hid|Hid]; cbn.
    + rewrite decide_True by done. destruct n; cbn in *. by subst.
    + rewrite decide_False.
      2:{ intros Heq. apply Hfresh, list_elem_of_fmap. eauto. }
      rewrite with_edges_with_edges, <-list_fmap_compose.
      rewrite fmap_id_on; [apply with_edges_same|].
      intros e He. cbn. destruct (decide (FlowEdge.toNodeId e = old)) as [Hto|Hto]; cbn.
      * rewrite decide_True by done. destruct e; cbn in *. by subst.
      * rewrite decide_False; [done|]. by apply (Htargets n).
  - destruct (decide (sid = Some old)) as [->|Hs].
    + by rewrite decide_True.
    + by rewrite decide_False.
Qed.

Lemma updateNode_rename_back_witness :
  let prev :=
    FlowState.mk
      [FlowNode.mk "A" "first" "" [FlowEdge.mk "e1" "C" "next" ∅] 100 180;
       FlowNode.mk "C" "second" "" [FlowEdge.mk "e2" "A" "back" ∅] 360 180]
      (Some "A") in
  ("A" ≠ "" ∧ "B" ≠ "" ∧ ("B" ∉ FlowNode.id <$> nodes prev)
   ∧ (∀ n e, n ∈ nodes prev → e ∈ FlowNode.edges n → FlowEdge.toNodeId e ≠ "B")
   ∧ startNodeId prev ≠ Some "B")
  ∧ updateNode "B" (NodePatch.mk (Some "A") None None)
      (updateNode "A" (NodePatch.mk (Some "B") None None) prev)
    = prev.
Proof.
  intros prev.
  assert ("B" ∉ FlowNode.id <$> nodes prev) as Hfresh.
  { cbn. rewrite !elem_of_cons, elem_of_nil. intros [?|[?|[]]]; discriminate. }
  assert (∀ n e, n ∈ nodes prev → e ∈ FlowNode.edges n → FlowEdge.toNodeId e ≠ "B")
    as Htargets.
  { intros n e Hn He. cbn in Hn.
    rewrite !elem_of_cons, elem_of_nil in Hn.
    destruct Hn as [->|[->|[]]]; cbn in He;
      rewrite elem_of_cons, elem_of_nil in He; destruct He as [->|[]]; discriminate. }
  split; [by split_and!|].
  apply (updateNode_rename_back "A" "B" prev); done.
Defined.

(** X2. An edge added by [connectNodes] or [addEdge] under an id that no edge
    of the source nodes carries is taken away again by [deleteEdge] with that
    id, which leaves the state as it was before the edge was added. *)
Theorem deleteEdge_undoes_new_edge (edgeId nodeId toId : string) (prev : FlowState.t) :
  (∀ n e, n ∈ nodes prev → FlowNode.id n = nodeId → e ∈ FlowNode.edges n →
     FlowEdge.id e ≠ edgeId) →
  deleteEdge nodeId edgeId (connectNodes edgeId nodeId toId prev) = prev
  ∧ deleteEdge nodeId edgeId (addEdge edgeId nodeId prev) = prev.
Proof.
  intros Hfresh.
  assert (∀ edge, FlowEdge.id edge = edgeId →
            deleteEdge nodeId edgeId (append_edge nodeId edge prev) = prev) as Happend.
  { intros edge Hedge. destruct prev as [ns sid]. unfold deleteEdge, append_edge.
    cbn [nodes startNodeId] in *. f_equal.
    rewrite <-list_fmap_compose. apply fmap_id_on. intros n Hn. cbn.
    destruct (decide (FlowNode.id n = nodeId)) as [Hid|Hid]; cbn.
    - rewrite decide_True by done. rewrite with_edges_with_edges. cbn.
      rewrite filter_app, filter_cons_False, filter_nil, app_nil_r by (intros Hne; by apply Hne).
      rewrite filter_all; [apply with_edges_same|].
      intros e He. by apply (Hfresh n).
    - by rewrite decide_False. }
  split; apply Happend; done.
Qed.

Lemma deleteEdge_undoes_new_edge_witness :
  let prev :=
    FlowState.mk
      [FlowNode.mk "A" "first" "" [FlowEdge.mk "edge_1" "C" "next" ∅] 100 180;
       FlowNode.mk "C" "second" "" [] 360 180]
      (Some "A") in
  (∀ n e, n ∈ nodes prev → FlowNode.id n = "A" → e ∈ FlowNode.edges n →
     FlowEdge.id e ≠ "edge_2")
  ∧ deleteEdge "A" "edge_2" (connectNodes "edge_2" "A" "C" prev) = prev
  ∧ deleteEdge "A" "edge_2" (addEdge "edge_2" "A" prev) = prev.
Proof.
  intros prev.
  assert (∀ n e, n ∈ nodes prev → FlowNode.id n = "A" → e ∈ FlowNode.edges n →
            FlowEdge.id e ≠ "edge_2") as Hfresh.
  { intros n e Hn _ He. cbn in Hn. rewrite !elem_of_cons, elem_of_nil in Hn.
    destruct Hn as [->|[->|[]]]; cbn in He.
    - rewrite elem_of_cons, elem_of_nil in He. destruct He as [->|[]]. discriminate.
    - by apply elem_of_nil in He. }
  split; [exact Hfresh|].
  apply (deleteEdge_undoes_new_edge "edge_2" "A" "C" prev Hfresh).
Defined.

(** X3. [updateNode(id, patch)] with a patch that has no [id] key (a
    description or prompt edit) keeps the start pointer and, node by node, the
    id, the edges and the position; it leaves every node with another id as it
    is, and on a node with the id it sets the description and the prompt the
    patch gives and keeps the ones it does not give. *)
Theorem updateNode_fields_frame (id : string) (patch : NodePatch.t) (prev : FlowState.t) :
  NodePatch.id patch = None →
  let next := updateNode id patch prev in
  startNodeId next = startNodeId prev
  ∧ Forall2
      (λ n n',
         FlowNode.id n' = FlowNode.id n
         ∧ FlowNode.edges n' = FlowNode.edges n
         ∧ FlowNode.x n' = FlowNode.x n ∧ FlowNode.y n' = FlowNode.y n
         ∧ (FlowNode.id n ≠ id → n' = n)
         ∧ (FlowNode.id n = id →
            FlowNode.description n'
            = default (FlowNode.description n) (NodePatch.description patch)
            ∧ FlowNode.prompt n' = default (FlowNode.prompt n) (NodePatch.prompt patch)))
      (nodes prev) (nodes next).
Proof.
  intros Hid next. unfold next, updateNode. rewrite Hid. cbn. split; [done|].
  apply Forall2_fmap_diag. intros n _. case_decide as Hn; cbn.
  - unfold NodePatch.spread. rewrite Hid. cbn. split_and!; done.
  - split_and!; done.
Qed.

Lemma updateNode_fields_frame_witness :
  let patch := NodePatch.mk None (Some "Billing questions") None in
  let prev :=
    FlowState.mk
      [FlowNode.mk "A" "first" "ask" [FlowEdge.mk "e1" "C" "next" ∅] 100 180;
       FlowNode.mk "C" "second" "" [] 360 180]
      (Some "A") in
  NodePatch.id patch = None
  ∧ updateNode "A" patch prev
    = FlowState.mk
        [FlowNode.mk "A" "Billing questions" "ask" [FlowEdge.mk "e1" "C" "next" ∅] 100 180;
         FlowNode.mk "C" "second" "" [] 360 180]
        (Some "A")
  ∧ startNodeId (updateNode "A" patch prev) = startNodeId prev.
Proof.
  intros patch prev. split; [reflexivity|]. split; [reflexivity|].
  exact (proj1 (updateNode_fields_frame "A" patch prev eq_refl)).
Defined.

Lemma deleteNode_nodes a prev :
  nodes (deleteNode a prev)
  = (λ n, with_edges n (filter (λ e, FlowEdge.toNodeId e ≠ a) (FlowNode.edges n)))
      <$> filter (λ n, FlowNode.id n ≠ a) (nodes prev).
Proof. done. Qed.

Lemma deleteNode_twice_nodes a b (ns : list FlowNode.t) :
  (λ n, with_edges n (filter (λ e, FlowEdge.toNodeId e ≠ a) (FlowNode.edges n)))
    <$> filter (λ n, FlowNode.id n ≠ a)
          ((λ n, with_edges n (filter (λ e, FlowEdge.toNodeId e ≠ b) (FlowNode.edges n)))
             <$> filter (λ n, FlowNode.id n ≠ b) ns)
  = (λ n, with_edges n
            (filter (λ e, FlowEdge.toNodeId e ≠ a ∧ FlowEdge.toNodeId e ≠ b)
               (FlowNode.edges n)))
      <$> filter (λ n, FlowNode.id n ≠ a ∧ FlowNode.id n ≠ b) ns.
Proof.
  induction ns as [|n ns IH]; [done|].
  destruct (decide (FlowNode.id n = b)) as [Hb|Hb].
  - rewrite (filter_cons_False (λ n, FlowNode.id n ≠ b)) by (intros Hne; by apply Hne).
    rewrite (filter_cons_False (λ n, FlowNode.id n ≠ a ∧ FlowNode.id n ≠ b))
      by (intros [_ Hne]; by apply Hne).
    exact IH.
  - rewrite (filter_cons_True (λ n, FlowNode.id n ≠ b)) by done. rewrite fmap_cons.
    destruct (decide (FlowNode.id n = a)) as [Ha|Ha].
    + rewrite (filter_cons_False (λ n, FlowNode.id n ≠ a)) by (intros Hne; by apply Hne).
      rewrite (filter_cons_False (λ n, FlowNode.id n ≠ a ∧ FlowNode.id n ≠ b))
        by (intros [Hne _]; by apply Hne).
      exact IH.
    + rewrite (filter_cons_True (λ n, FlowNode.id n ≠ a)) by done.
      rewrite (filter_cons_True (λ n, FlowNode.id n ≠ a ∧ FlowNode.id n ≠ b)) by done.
      rewrite !fmap_cons, IH. f_equal.
      rewrite with_edges_with_edges. cbn. by rewrite list_filter_filter.
Qed.

(** X4. Deleting two nodes gives the same state in either order, and deleting
    a node a second time changes nothing. *)
Theorem deleteNode_comm_idemp (a b : string) (prev : FlowState.t) :
  deleteNode a (deleteNode b prev) = deleteNode b (deleteNode a prev)
  ∧ deleteNode a (deleteNode a prev) = deleteNode a prev.
Proof.
  assert (∀ a b,
            deleteNode a (deleteNode b prev)
            = FlowState.mk
                ((λ n, with_edges n
                         (filter (λ e, FlowEdge.toNodeId e ≠ a ∧ FlowEdge.toNodeId e ≠ b)
                            (FlowNode.edges n)))
                   <$> filter (λ n, FlowNode.id n ≠ a ∧ FlowNode.id n ≠ b) (nodes prev))
                (if decide (startNodeId prev = Some a ∨ startNodeId prev = Some b)
                 then None else startNodeId prev)) as Htwice.
  { intros a' b'. unfold deleteNode at 1. rewrite deleteNode_nodes, deleteNode_twice_nodes.
    f_equal. cbn [startNodeId deleteNode].
    destruct (decide (startNodeId prev = Some b')) as [Hb|Hb].
    - rewrite decide_False by done. rewrite decide_True; [done|by right].
    - destruct (decide (startNodeId prev = Some a')) as [Ha|Ha].
      + rewrite decide_True; [done|by left].
      + rewrite decide_False; [done|]. intros [?|?]; done. }
  split.
  - rewrite !Htwice. f_equal.
    + rewrite (list_filter_iff (λ n, FlowNode.id n ≠ a ∧ FlowNode.id n ≠ b)
                 (λ n, FlowNode.id n ≠ b ∧ FlowNode.id n ≠ a)) by tauto.
      apply list_fmap_ext. intros _ n _. f_equal. apply list_filter_iff. tauto.
    + destruct (decide (startNodeId prev = Some a ∨ startNodeId prev = Some b)) as [H|H].
      * rewrite decide_True; [done|tauto].
      * rewrite decide_False; [done|tauto].
  - rewrite Htwice. unfold deleteNode. f_equal.
    + rewrite (list_filter_iff (λ n, FlowNode.id n ≠ a ∧ FlowNode.id n ≠ a)
                 (λ n, FlowNode.id n ≠ a)) by tauto.
      apply list_fmap_ext. intros _ n _. f_equal. apply list_filter_iff. tauto.
    + destruct (decide (startNodeId prev = Some a)) as [H|H].
      * rewrite decide_True; [done|tauto].
      * rewrite decide_False; [done|tauto].
Qed.

End StoreLaws.

(** ** [snapToGrid] in binary64 *)

Module GridFacts.
Import ZoomFacts.
Local Open Scope Z_scope.

(** *** Exact results of rounding *)

Lemma shr_1_spec (m : Z) (r s : bool) :
  0 < m ->
  shr_1 (Build_shr_record m r s) = Build_shr_record (m / 2) (Z.odd m) (r || s).
Proof.
  intros Hm. destruct m as [|[p|p|]|p]; try lia; cbn [shr_1].
  - f_equal. rewrite (Pos2Z.inj_xI p). apply (Z.div_unique _ _ _ 1); lia.
  - f_equal. rewrite (Pos2Z.inj_xO p). apply (Z.div_unique _ _ _ 0); lia.
  - reflexivity.
Qed.

Lemma shr_1_zeros (m : Z) :
  0 < m ->
  shr_1 (Build_shr_record (m * 2) false false) = Build_shr_record m false false.
Proof.
  intros Hm. rewrite shr_1_spec by lia. f_equal.
  - apply Z.div_mul. lia.
  - rewrite Z.mul_comm. apply Z.odd_even.
Qed.

Lemma iter_shr_1_zeros (p : positive) : forall m,
  0 < m ->
  SpecFloat.iter_pos shr_1 p (Build_shr_record (m * 2 ^ Zpos p) false false)
  = Build_shr_record m false false.
Proof.
  induction p as [p IH|p IH|]; intros m Hm; cbn [SpecFloat.iter_pos].
  - assert (0 < 2 ^ Zpos p) as Hpow by (apply Z.pow_pos_nonneg; lia).
    replace (m * 2 ^ Zpos p~1) with (m * 2 ^ Zpos p * 2 ^ Zpos p * 2).
    2:{ rewrite (Pos2Z.inj_xI p).
        replace (2 * Zpos p + 1) with (Zpos p + Zpos p + 1) by lia.
        rewrite !Z.pow_add_r by lia. change (2 ^ 1) with 2. ring. }
    rewrite shr_1_zeros by nia. rewrite (IH (m * 2 ^ Zpos p)) by nia. by apply IH.
  - assert (0 < 2 ^ Zpos p) as Hpow by (apply Z.pow_pos_nonneg; lia).
    replace (m * 2 ^ Zpos p~0) with (m * 2 ^ Zpos p * 2 ^ Zpos p).
    2:{ rewrite (Pos2Z.inj_xO p). replace (2 * Zpos p) with (Zpos p + Zpos p) by lia.
        rewrite Z.pow_add_r by lia. ring. }
    rewrite (IH (m * 2 ^ Zpos p)) by nia. by apply IH.
  - change (2 ^ 1) with 2. by apply shr_1_zeros.
Qed.

(** A mantissa of 53 bits followed by [q] zero bits rounds to itself. *)
Lemma round_aux_exact (sx : bool) (m : positive) (q ex P : Z) :
  2 ^ 52 <= Zpos m < 2 ^ 53 -> 0 <= q ->
  -1074 <= ex + q -> ex + q <= 971 ->
  P = Zpos m * 2 ^ q ->
  binary_round_aux prec emax sx P ex loc_Exact = S754_finite sx m (ex + q).
Proof.
  intros Hm Hq Hlo Hhi ->.
  assert (0 < 2 ^ q) as Hpow by (apply Z.pow_pos_nonneg; lia).
  destruct (Zpos m * 2 ^ q) as [|P|P] eqn:HP; try lia.
  assert (Zpos (digits2_pos P) = 52 + q + 1) as HdP.
  { apply digits2_of_range; [lia|]. rewrite <-HP.
    rewrite !Z.pow_add_r by lia. change (2 ^ 1) with 2. nia. }
  unfold binary_round_aux.
  assert (shr_fexp prec emax (Zpos P) ex loc_Exact
          = (Build_shr_record (Zpos m) false false, ex + q)) as ->.
  { unfold shr_fexp. cbn [Zdigits2 shr_record_of_loc]. rewrite HdP.
    rewrite fexp_normal by lia.
    replace (52 + q + 1 + ex - 53 - ex) with q by lia.
    destruct q as [|q'|q']; [| |lia]; cbn [shr].
    - rewrite Z.pow_0_r, Z.mul_1_r in HP. rewrite <-HP, Z.add_0_r. reflexivity.
    - rewrite <-HP. rewrite iter_shr_1_zeros by lia. reflexivity. }
  cbn [shr_m loc_of_shr_record round_nearest_even].
  unfold shr_fexp. cbn [Zdigits2 shr_record_of_loc].
  rewrite (digits2_of_range m 52) by lia.
  rewrite fexp_normal by lia.
  replace (52 + 1 + (ex + q) - 53 - (ex + q)) with 0 by lia.
  cbn [shr shr_m].
  replace (ex + q <=? emax - prec) with true; [reflexivity|].
  symmetry. apply Z.leb_le. unfold emax, prec. lia.
Qed.


(** *** The Number value of an integer *)

Lemma of_uint63_SF (u : Z) :
  0 < u < 2 ^ 53 ->
  exists m,
    Prim2SF (of_uint63 (Uint63.of_Z u)) = S754_finite false m (Z.log2 u - 52)
    /\ 2 ^ 52 <= Zpos m < 2 ^ 53
    /\ Zpos m = u * 2 ^ (52 - Z.log2 u).
Proof.
  intros Hu. rewrite FloatAxioms.of_uint63_spec, Uint63.of_Z_spec.
  rewrite Z.mod_small.
  2:{ change Uint63.wB with (2 ^ 63). change (2 ^ 53) with 9007199254740992 in Hu.
      change (2 ^ 63) with 9223372036854775808. lia. }
  destruct u as [|p|p]; try lia. cbn [binary_normalize]. unfold binary_round.
  pose proof (Z.log2_spec (Zpos p) ltac:(lia)) as Hlog.
  set (k := Z.log2 (Zpos p)) in *.
  assert (0 <= k < 53) as Hk.
  { split; [apply Z.log2_nonneg|]. apply (Z.pow_lt_mono_r_iff 2); lia. }
  assert (0 < 2 ^ (52 - k)) as Hpow by (apply Z.pow_pos_nonneg; lia).
  assert (2 ^ 52 <= Zpos p * 2 ^ (52 - k) < 2 ^ 53) as Hrange.
  { replace (2 ^ 52) with (2 ^ k * 2 ^ (52 - k)).
    2:{ rewrite <-Z.pow_add_r by lia. f_equal. lia. }
    replace (2 ^ 53) with (2 ^ Z.succ k * 2 ^ (52 - k)).
    2:{ rewrite <-Z.pow_add_r by lia. f_equal. lia. }
    nia. }
  rewrite digits2_log2. fold k. rewrite fexp_normal by lia.
  replace (Z.succ k + 0 - 53) with (k - 52) by lia.
  assert (exists mz, shl_align p 0 (k - 52) = (mz, k - 52)
                     /\ Zpos mz = Zpos p * 2 ^ (52 - k)) as (mz & -> & Hmz).
  { unfold shl_align. destruct (k - 52 - 0) as [|d|d] eqn:Hd; try lia.
    - exists p. replace k with 52 by lia. split; [reflexivity|].
      change (2 ^ (52 - 52)) with 1. lia.
    - exists (shift_pos d p). split; [reflexivity|].
      rewrite shift_pos_correct, Z.pow_pos_fold.
      replace (52 - k) with (Zpos d) by lia. lia. }
  exists mz. rewrite <-Hmz in Hrange. split; [|by split].
  rewrite (round_aux_exact false mz 0 (k - 52) (Zpos mz)) by lia.
  by rewrite Z.add_0_r.
Qed.

Lemma Number_of_Z_SF (v : Z) :
  v <> 0 -> Z.abs v < 2 ^ 53 ->
  exists m,
    Prim2SF (Number_of_Z v) = S754_finite (v <? 0) m (Z.log2 (Z.abs v) - 52)
    /\ 2 ^ 52 <= Zpos m < 2 ^ 53
    /\ Zpos m = Z.abs v * 2 ^ (52 - Z.log2 (Z.abs v)).
Proof.
  intros Hv Hsafe. unfold Number_of_Z.
  destruct (of_uint63_SF (Z.abs v)) as (m & Hm & Hrange & Hval); [lia|].
  exists m. split; [|by split].
  destruct (Z.ltb_spec v 0) as [Hneg|Hpos].
  - rewrite FloatAxioms.opp_spec. replace (- v) with (Z.abs v) by lia. by rewrite Hm.
  - replace v with (Z.abs v) at 1 by lia. exact Hm.
Qed.


(** *** The quotient by the grid unit *)

Lemma SF_grid : Prim2SF 20 = S754_finite false 5629499534213120 (-48).
Proof. vm_compute. reflexivity. Qed.

Lemma div_eucl_eq a b : Z.div_eucl a b = (a / b, a mod b).
Proof. unfold Z.div, Z.modulo. by destruct (Z.div_eucl a b). Qed.

Lemma loc_of_shr_record_of_loc m l : loc_of_shr_record (shr_record_of_loc m l) = l.
Proof. by destruct l as [|[| |]]. Qed.

Lemma shr_record_of_loc_m m l : shr_m (shr_record_of_loc m l) = m.
Proof. by destruct l as [|[| |]]. Qed.

Lemma round_aux_final (sx : bool) (m2 : positive) (ex : Z) :
  2 ^ 52 <= Zpos m2 < 2 ^ 53 -> -1074 <= ex <= 971 ->
  (let '(mrs, e) := shr_fexp prec emax (Zpos m2) ex loc_Exact in
   match shr_m mrs with
   | 0 => S754_zero sx
   | Zpos m => if e <=? emax - prec then S754_finite sx m e else S754_infinity sx
   | Zneg _ => S754_nan
   end) = S754_finite sx m2 ex.
Proof.
  intros Hm He. unfold shr_fexp. cbn [Zdigits2 shr_record_of_loc].
  rewrite (digits2_of_range m2 52) by lia. rewrite fexp_normal by lia.
  replace (52 + 1 + ex - 53 - ex) with 0 by lia. cbn [shr shr_m].
  replace (ex <=? emax - prec) with true; [reflexivity|].
  symmetry. apply Z.leb_le. unfold emax, prec. lia.
Qed.

(** A mantissa of 53 bits with a location: no bit is shifted out. *)
Lemma round_aux_keep (sx : bool) (Q m2 : positive) (ex : Z) (l : location) :
  2 ^ 52 <= Zpos Q < 2 ^ 53 -> -1074 <= ex <= 971 ->
  round_nearest_even (Zpos Q) l = Zpos m2 -> Zpos m2 < 2 ^ 53 ->
  binary_round_aux prec emax sx (Zpos Q) ex l = S754_finite sx m2 ex.
Proof.
  intros HQ He Hm2 Hlt.
  assert (Zpos Q <= Zpos m2).
  { rewrite <-Hm2. destruct l as [|[| |]]; cbn [round_nearest_even]; try lia.
    destruct (Z.even _); lia. }
  unfold binary_round_aux.
  assert (shr_fexp prec emax (Zpos Q) ex l = (shr_record_of_loc (Zpos Q) l, ex)) as ->.
  { unfold shr_fexp. cbn [Zdigits2]. rewrite (digits2_of_range Q 52) by lia.
    rewrite fexp_normal by lia. replace (52 + 1 + ex - 53 - ex) with 0 by lia.
    reflexivity. }
  rewrite shr_record_of_loc_m, loc_of_shr_record_of_loc, Hm2.
  apply round_aux_final; lia.
Qed.

(** A mantissa of 54 bits with a location: one bit is shifted out. *)
Lemma round_aux_halve (sx : bool) (Q m2 : positive) (ex : Z) (l : location) :
  2 ^ 53 <= Zpos Q < 2 ^ 54 -> -1074 <= ex + 1 <= 971 ->
  round_nearest_even (shr_m (shr_1 (shr_record_of_loc (Zpos Q) l)))
    (loc_of_shr_record (shr_1 (shr_record_of_loc (Zpos Q) l))) = Zpos m2 ->
  2 ^ 52 <= Zpos m2 < 2 ^ 53 ->
  binary_round_aux prec emax sx (Zpos Q) ex l = S754_finite sx m2 (ex + 1).
Proof.
  intros HQ He Hm2 Hlt. unfold binary_round_aux.
  assert (shr_fexp prec emax (Zpos Q) ex l
          = (shr_1 (shr_record_of_loc (Zpos Q) l), ex + 1)) as ->.
  { unfold shr_fexp. cbn [Zdigits2]. rewrite (digits2_of_range Q 53) by lia.
    rewrite fexp_normal by lia. replace (53 + 1 + ex - 53 - ex) with 1 by lia.
    reflexivity. }
  rewrite Hm2. apply round_aux_final; lia.
Qed.

(** The quotient of a normal number by 20 is the nearest number to the exact
    quotient: in units of the last place, five times its mantissa is within 2
    of eight (or four) times the mantissa of the dividend. *)
Lemma div_grid_SF (s : bool) (m : positive) (e : Z) :
  2 ^ 52 <= Zpos m < 2 ^ 53 -> -200 <= e <= 0 ->
  exists m3 q,
    SF64div (S754_finite s m e) (S754_finite false 5629499534213120 (-48))
    = S754_finite s m3 (e - 5 + q)
    /\ 2 ^ 52 <= Zpos m3 < 2 ^ 53
    /\ ((q = 0 /\ -2 <= 5 * Zpos m3 - 8 * Zpos m <= 2)
        \/ (q = 1 /\ -2 <= 5 * Zpos m3 - 4 * Zpos m <= 2)).
Proof.
  intros Hm He.
  change (2 ^ 52) with 4503599627370496 in Hm.
  change (2 ^ 53) with 9007199254740992 in Hm.
  unfold SF64div, SFdiv, SFdiv_core_binary. cbn [Zdigits2]. rewrite Bool.xorb_false_r.
  rewrite (digits2_of_range m 52) by (change (2 ^ 52) with 4503599627370496;
    change (2 ^ (52 + 1)) with 9007199254740992; lia).
  change (Zpos (digits2_pos 5629499534213120)) with 53.
  rewrite fexp_normal by lia.
  replace (Z.min (52 + 1 + e - (53 + -48) - 53) (e - -48)) with (e - 5) by lia.
  replace (e - -48 - (e - 5)) with 53 by lia. cbn beta iota.
  rewrite Z.shiftl_mul_pow2 by lia. rewrite div_eucl_eq.
  assert (Zpos m * 2 ^ 53 = 8 * Zpos m * 2 ^ 50) as -> by (change (2 ^ 53) with (8 * 2 ^ 50); ring).
  change 5629499534213120 with (5 * 2 ^ 50).
  rewrite Z.div_mul_cancel_r by lia. rewrite Z.mul_mod_distr_r by lia.
  pose proof (Z.div_mod (8 * Zpos m) 5 ltac:(lia)) as Hdm.
  pose proof (Z.mod_pos_bound (8 * Zpos m) 5 ltac:(lia)) as Hrho.
  set (Q := 8 * Zpos m / 5) in *. set (rho := (8 * Zpos m) mod 5) in *.
  cbn beta iota.
  assert (new_location (5 * 2 ^ 50) (rho * 2 ^ 50)
          = if rho =? 0 then loc_Exact
            else loc_Inexact (if rho <=? 2 then Lt else Gt)) as ->.
  { assert (rho = 0 \/ rho = 1 \/ rho = 2 \/ rho = 3 \/ rho = 4) as Hcases by lia.
    destruct Hcases as [-> | [-> | [-> | [-> | ->]]]]; vm_compute; reflexivity. }
  destruct Q as [|Q'|Q'] eqn:HQ; try lia.
  destruct (Z_lt_le_dec (Zpos Q') 9007199254740992) as [Hsmall|Hbig].
  - set (l := if rho =? 0 then _ else _).
    assert (exists m3, round_nearest_even (Zpos Q') l = Zpos m3
                       /\ -2 <= 5 * Zpos m3 - 8 * Zpos m <= 2
                       /\ Zpos m3 < 9007199254740992) as (m3 & Hm3 & Hnear & Hlt).
    { unfold l. destruct (Z.eqb_spec rho 0) as [Hz|Hnz].
      - exists Q'. cbn [round_nearest_even]. lia.
      - destruct (Z.leb_spec rho 2) as [Hle|Hgt]; cbn [round_nearest_even].
        + exists Q'. lia.
        + exists (Q' + 1)%positive. rewrite Pos2Z.inj_add. lia. }
    exists m3, 0. rewrite Z.add_0_r. split; [|split; [|left]].
    + apply round_aux_keep; try done.
      * change (2 ^ 52) with 4503599627370496. change (2 ^ 53) with 9007199254740992. lia.
      * lia.
    + change (2 ^ 52) with 4503599627370496. change (2 ^ 53) with 9007199254740992. lia.
    + done.
  - set (l := if rho =? 0 then _ else _).
    assert (exists m3,
              round_nearest_even (shr_m (shr_1 (shr_record_of_loc (Zpos Q') l)))
                (loc_of_shr_record (shr_1 (shr_record_of_loc (Zpos Q') l))) = Zpos m3
              /\ -2 <= 5 * Zpos m3 - 4 * Zpos m <= 2) as (m3 & Hm3 & Hnear).
    { pose proof (Z.div_mod (Zpos Q') 2 ltac:(lia)) as Hhalf.
      rewrite Zmod_odd in Hhalf.
      assert (0 < Zpos Q' / 2) as Hpos by (apply Z.div_str_pos; lia).
      destruct (Zpos Q' / 2) as [|h|h] eqn:Hh; try lia.
      unfold l. destruct (Z.eqb_spec rho 0) as [Hz|Hnz].
      - cbn [shr_record_of_loc]. rewrite shr_1_spec, Hh by lia.
        destruct (Z.odd (Zpos Q')); [lia|]. exists h.
        cbn [shr_m loc_of_shr_record orb round_nearest_even]. lia.
      - destruct (Z.leb_spec rho 2) as [Hle|Hgt]; cbn [shr_record_of_loc];
          rewrite shr_1_spec, Hh by lia;
          destruct (Z.odd (Zpos Q'));
          cbn [shr_m loc_of_shr_record orb round_nearest_even];
          first [exists h; lia | exists (h + 1)%positive; rewrite Pos2Z.inj_add; lia]. }
    exists m3, 1. split; [|split; [|right]].
    + replace (e - 5 + 1) with (e - 5 + 1) by lia. apply round_aux_halve; try done.
      * change (2 ^ 53) with 9007199254740992. change (2 ^ 54) with 18014398509481984. lia.
      * lia.
      * change (2 ^ 52) with 4503599627370496. change (2 ^ 53) with 9007199254740992. lia.
    + change (2 ^ 52) with 4503599627370496. change (2 ^ 53) with 9007199254740992. lia.
    + done.
Qed.


(** *** Rounding the quotient to an integer *)

(** [Math.round] sends a half up, also below zero, and keeps the sign of a
    number that rounds to zero. *)
Example Math_round_halves :
  (Math_round 2.5 = 3 /\ Math_round (-2.5) = -2 /\ Math_round 0.25 = 0
   /\ Math_round (-0.5) = -0 /\ Math_round 4503599627370495.5 = 4503599627370496
   /\ Math_round (-7.75) = -8 /\ Math_round 1152921504606846976 = 1152921504606846976
   /\ Math_round infinity = infinity)%float.
Proof. vm_compute. done. Qed.

Lemma round_half_up (u m3 B : Z) :
  8 <= B -> -4 <= 10 * m3 - u * B <= 4 ->
  (m3 * 2 + 2 * B) / (4 * B) = (2 * u + 20) / 40
  /\ (- m3 * 2 + 2 * B) / (4 * B) = (2 * - u + 20) / 40.
Proof.
  intros HB Hnear. split.
  - pose proof (Z.div_mod (2 * u + 20) 40 ltac:(lia)) as Hdm.
    pose proof (Z.mod_pos_bound (2 * u + 20) 40 ltac:(lia)) as Hmod.
    set (k := (2 * u + 20) / 40) in *.
    assert (0 <= (u - (20 * k - 10)) * B) as H1 by (apply Z.mul_nonneg_nonneg; lia).
    assert (0 <= (20 * k + 9 - u) * B) as H2 by (apply Z.mul_nonneg_nonneg; lia).
    symmetry. apply (Z.div_unique _ _ _ (m3 * 2 + 2 * B - 4 * B * k)); lia.
  - pose proof (Z.div_mod (2 * - u + 20) 40 ltac:(lia)) as Hdm.
    pose proof (Z.mod_pos_bound (2 * - u + 20) 40 ltac:(lia)) as Hmod.
    set (k := (2 * - u + 20) / 40) in *.
    assert (0 <= (- u - (20 * k - 10)) * B) as H1 by (apply Z.mul_nonneg_nonneg; lia).
    assert (0 <= (20 * k + 9 + u) * B) as H2 by (apply Z.mul_nonneg_nonneg; lia).
    symmetry. apply (Z.div_unique _ _ _ (- m3 * 2 + 2 * B - 4 * B * k)); lia.
Qed.

Lemma Math_round_SF (x : float) (s : bool) (m : positive) (e : Z) :
  Prim2SF x = S754_finite s m e -> e < 0 ->
  Math_round x
  = let n := ((if s then Z.neg m else Z.pos m) * 2 + 2 ^ (- e)) / 2 ^ (1 - e) in
    if n =? 0 then (if s then (-0)%float else 0%float) else Number_of_Z n.
Proof.
  intros Hx He. unfold Math_round. rewrite Hx.
  destruct (Z.leb_spec 0 e); [lia|reflexivity].
Qed.

(** *** The product with the grid unit *)

Lemma mul_grid_SF (s : bool) (mk : positive) (ek a : Z) :
  2 ^ 52 <= Zpos mk < 2 ^ 53 -> -52 <= ek <= -4 -> Zpos mk = a * 2 ^ (- ek) ->
  exists m' e',
    SF64mul (S754_finite s mk ek) (S754_finite false 5629499534213120 (-48))
    = S754_finite s m' e'
    /\ -52 <= e' /\ Zpos m' * 2 ^ (e' + 52) = 20 * a * 2 ^ 52.
Proof.
  intros Hmk Hek Hval.
  unfold SF64mul, SFmul. rewrite Bool.xorb_false_r.
  assert (0 < 2 ^ (- ek - 3)) as Hpow by (apply Z.pow_pos_nonneg; lia).
  assert (2 ^ (- ek) = 2 ^ (- ek - 3) * 8) as Hsplit.
  { change 8 with (2 ^ 3). rewrite <-Z.pow_add_r by lia. f_equal. lia. }
  set (j := a * 2 ^ (- ek - 3)).
  assert (Zpos mk = 8 * j) as Hj by (unfold j; rewrite Hval, Hsplit; ring).
  change (2 ^ 52) with 4503599627370496 in Hmk.
  change (2 ^ 53) with 9007199254740992 in Hmk.
  rewrite Pos2Z.inj_mul.
  destruct (Z_lt_le_dec (10 * j) 9007199254740992) as [Hsmall|Hbig].
  - destruct (10 * j) as [|m'|m'] eqn:Hm'; try lia.
    exists m', (ek - 48 + 52). split; [|split; [lia|]].
    + apply round_aux_exact; try lia;
        try (change (2 ^ 52) with 4503599627370496;
             change (2 ^ 53) with 9007199254740992; lia).
    + rewrite <-Hm'. unfold j.
      transitivity (10 * a * (2 ^ (- ek - 3) * 2 ^ (ek - 48 + 52 + 52))); [ring|].
      rewrite <-Z.pow_add_r by lia.
      replace (- ek - 3 + (ek - 48 + 52 + 52)) with 53 by lia.
      change (2 ^ 53) with (2 * 2 ^ 52). ring.
  - destruct (5 * j) as [|m'|m'] eqn:Hm'; try lia.
    exists m', (ek - 48 + 53). split; [|split; [lia|]].
    + apply round_aux_exact; try lia;
        try (change (2 ^ 52) with 4503599627370496;
             change (2 ^ 53) with 9007199254740992; lia).
    + rewrite <-Hm'. unfold j.
      transitivity (5 * a * (2 ^ (- ek - 3) * 2 ^ (ek - 48 + 53 + 52))); [ring|].
      rewrite <-Z.pow_add_r by lia.
      replace (- ek - 3 + (ek - 48 + 53 + 52)) with 54 by lia.
      change (2 ^ 54) with (4 * 2 ^ 52). ring.
Qed.

Lemma integer_of_SF (x : float) (s : bool) (m : positive) (e N : Z) :
  Prim2SF x = S754_finite s m e -> -52 <= e ->
  Zpos m * 2 ^ (e + 52) = N * 2 ^ 52 ->
  integer_of x = Some (if s then - N else N).
Proof.
  intros Hx He Hval. unfold integer_of. rewrite Hx.
  assert ((if s then Z.neg m else Zpos m) = (if s then - Zpos m else Zpos m)) as ->
    by (by destruct s).
  destruct (Z.leb_spec 0 e) as [Hpos|Hneg].
  - f_equal. rewrite Z.pow_add_r in Hval by lia.
    assert (Zpos m * 2 ^ e = N) as <-.
    { apply (Z.mul_reg_r _ _ (2 ^ 52)); [by vm_compute|]. rewrite <-Hval. ring. }
    destruct s; ring.
  - assert (0 < 2 ^ (- e)) as Hpow by (apply Z.pow_pos_nonneg; lia).
    assert (Zpos m = N * 2 ^ (- e)) as Hm.
    { apply (Z.mul_reg_r _ _ (2 ^ (e + 52))); [apply Z.pow_nonzero; lia|].
      rewrite Hval, <-Z.mul_assoc, <-Z.pow_add_r by lia. do 2 f_equal. lia. }
    rewrite Hm.
    assert ((if s then - (N * 2 ^ (- e)) else N * 2 ^ (- e))
            = (if s then - N else N) * 2 ^ (- e)) as -> by (destruct s; ring).
    rewrite Z.mod_mul, Z.eqb_refl, Z.div_mul by lia. reflexivity.
Qed.

(** *** [snapToGrid] against its binary64 computation *)

(** At a safe integer the code's computation in binary64 gives the integer
    that [snapToGrid] gives. *)
Lemma snapToGrid_binary64_exact (v : Z) :
  safe_integer v ->
  integer_of (snapToGrid_binary64 (Number_of_Z v)) = Some (snapToGrid v).
Proof.
  unfold safe_integer. intros Hsafe. destruct (Z.eq_dec v 0) as [->|Hv]; [vm_compute; reflexivity|].
  destruct (Number_of_Z_SF v Hv Hsafe) as (m & Hm & Hmrange & Hmval).
  pose proof (Z.log2_nonneg (Z.abs v)) as Hlog0.
  assert (Z.log2 (Z.abs v) < 53) as Hlog.
  { apply Z.log2_lt_pow2; lia. }
  set (e := Z.log2 (Z.abs v) - 52) in *.
  destruct (div_grid_SF (v <? 0) m e) as (m3 & q & Hdiv & Hm3 & Hq); [done|lia|].
  unfold snapToGrid_binary64.
  assert (Prim2SF (Number_of_Z v / 20) = S754_finite (v <? 0) m3 (e - 5 + q)) as Hquot.
  { by rewrite FloatAxioms.div_spec, Hm, SF_grid. }
  rewrite (Math_round_SF _ _ _ _ Hquot) by lia. cbn zeta.
  set (B := 2 ^ (4 - q - e)).
  assert (8 <= B) as HB.
  { unfold B. change 8 with (2 ^ 3). apply Z.pow_le_mono_r; lia. }
  assert (2 ^ (- (e - 5 + q)) = 2 * B) as ->.
  { unfold B. change 2 with (2 ^ 1) at 2. rewrite <-Z.pow_add_r by lia. f_equal. lia. }
  assert (2 ^ (1 - (e - 5 + q)) = 4 * B) as ->.
  { unfold B. change 4 with (2 ^ 2). rewrite <-Z.pow_add_r by lia. f_equal. lia. }
  assert (-4 <= 10 * Zpos m3 - Z.abs v * B <= 4) as Hnear.
  { assert (Z.abs v * B = 2 ^ (4 - q) * Zpos m) as ->.
    { unfold B. rewrite Hmval.
      replace (4 - q - e) with (4 - q + (52 - Z.log2 (Z.abs v))) by lia.
      rewrite Z.pow_add_r by lia. ring. }
    destruct Hq as [[-> Hq]|[-> Hq]].
    - change (2 ^ (4 - 0)) with 16. lia.
    - change (2 ^ (4 - 1)) with 8. lia. }
  destruct (round_half_up (Z.abs v) (Zpos m3) B HB Hnear) as [Hup Hdown].
  assert (((if v <? 0 then Z.neg m3 else Zpos m3) * 2 + 2 * B) / (4 * B)
          = (2 * v + 20) / 40) as ->.
  { destruct (Z.ltb_spec v 0).
    - change (Z.neg m3) with (- Zpos m3). rewrite Hdown. do 2 f_equal. lia.
    - rewrite Hup. do 2 f_equal. lia. }
  unfold snapToGrid, GRID. change (2 * 20) with 40.
  set (k := (2 * v + 20) / 40).
  pose proof (Z.div_mod (2 * v + 20) 40 ltac:(lia)) as Hdm.
  pose proof (Z.mod_pos_bound (2 * v + 20) 40 ltac:(lia)) as Hmod. fold k in Hdm.
  destruct (Z.eqb_spec k 0) as [->|Hk].
  - unfold integer_of. rewrite FloatAxioms.mul_spec, SF_grid.
    by destruct (v <? 0).
  - assert (Z.abs k < 2 ^ 49) as Hksafe.
    { change (2 ^ 53) with 9007199254740992 in Hsafe.
      change (2 ^ 49) with 562949953421312. lia. }
    destruct (Number_of_Z_SF k Hk) as (mk & Hmk & Hmkrange & Hmkval).
    { change (2 ^ 53) with 9007199254740992. change (2 ^ 49) with 562949953421312 in Hksafe.
      lia. }
    pose proof (Z.log2_nonneg (Z.abs k)) as Hlogk0.
    assert (Z.log2 (Z.abs k) < 49) as Hlogk by (apply Z.log2_lt_pow2; lia).
    set (ek := Z.log2 (Z.abs k) - 52) in *.
    destruct (mul_grid_SF (k <? 0) mk ek (Z.abs k)) as (m' & e' & Hmul & He' & Hval);
      [done|lia| |].
    { rewrite Hmkval. do 2 f_equal. lia. }
    rewrite (integer_of_SF _ (k <? 0) m' e' (20 * Z.abs k)); [| |done|done].
    + f_equal. destruct (Z.ltb_spec k 0); lia.
    + by rewrite FloatAxioms.mul_spec, Hmk, SF_grid.
Qed.


(** Beyond the safe integers the two differ: at 2^60 the quotient by 20 is
    already an integer after rounding, and the product rounds back to 2^60. *)
Example snapToGrid_beyond_safe_integers :
  integer_of (snapToGrid_binary64 (Number_of_Z (2 ^ 60))) = Some (2 ^ 60)
  /\ snapToGrid (2 ^ 60) = 2 ^ 60 + 4.
Proof. vm_compute. done. Qed.

End GridFacts.

(** ** Ids from the counter, and the grid *)

Module HookFacts.
Import FlowState ListFacts StoreFacts StoreLaws ValidateFacts ImportFacts StringFacts.

Lemma numbered_inj prefix (k k' : nat) :
  prefix +:+ pretty k = prefix +:+ pretty k' → k = k'.
Proof. intros H. by apply (inj (String.app prefix)), (inj pretty) in H. Qed.

Lemma numbered_mono prefix lo hi lo' hi' id :
  lo' ≤ lo → hi ≤ hi' → numbered prefix lo hi id → numbered prefix lo' hi' id.
Proof. intros ? ? (k & ? & ->). exists k. split; [lia|done]. Qed.

Lemma numbered_disjoint prefix a b c id :
  numbered prefix a b id → numbered prefix b c id → False.
Proof.
  intros (k & Hk & ->) (k' & Hk' & Heq). apply numbered_inj in Heq. lia.
Qed.

Lemma node_id_not_edge_id (k k' : nat) : "node_" +:+ pretty k ≠ "edge_" +:+ pretty k'.
Proof. discriminate. Qed.

Lemma generateNodeId_run c : generateNodeId c = (inr ("node_" +:+ pretty (S c)), S c).
Proof. done. Qed.

Lemma generateEdgeId_run c : generateEdgeId c = (inr ("edge_" +:+ pretty (S c)), S c).
Proof. done. Qed.

(** X5. Whatever mix of node ids and edge ids is drawn from the counter, one
    after the other, no draw throws, each advances the counter by one, and the
    ids drawn are pairwise distinct. *)
Theorem drawn_ids_are_distinct (kinds : list bool) (c : nat) :
  ∃ ids,
    mapM_from (λ _, draw) 0 kinds c = (inr ids, c + length kinds)
    ∧ length ids = length kinds
    ∧ NoDup ids.
Proof.
  assert (∀ i,
            ∃ ids,
              mapM_from (λ _, draw) i kinds c = (inr ids, c + length kinds)
              ∧ length ids = length kinds
              ∧ NoDup ids
              ∧ Forall (λ id, numbered "node_" c (c + length kinds) id
                              ∨ numbered "edge_" c (c + length kinds) id) ids) as H.
  { revert c. induction kinds as [|node kinds IH]; intros c i.
    - exists []. cbn. rewrite Nat.add_0_r. split_and!; [done|done|constructor|constructor].
    - destruct (IH (S c) (S i)) as (ids & Hrun & Hlen & Hnodup & Hnum).
      cbn [mapM_from length]. rewrite bind_run.
      assert (∃ id, draw node c = (inr id, S c)
                    ∧ (numbered "node_" c (S c) id ∨ numbered "edge_" c (S c) id))
        as (id & -> & Hid).
      { destruct node; eexists; (split; [reflexivity|]); [left|right];
          exists (S c); (split; [lia|done]). }
      rewrite bind_run, Hrun, ret_run.
      replace (S c + length kinds) with (c + S (length kinds)) in * by lia.
      exists (id :: ids). split_and!; [done|by cbn; rewrite Hlen| |].
      + apply NoDup_cons. split; [|done]. intros Hin.
        rewrite Forall_forall in Hnum. specialize (Hnum _ Hin).
        destruct Hid as [Hid|Hid], Hnum as [Hnum|Hnum].
        * eapply numbered_disjoint; [exact Hid|exact Hnum].
        * destruct Hid as (k & _ & ->), Hnum as (k' & _ & Heq). discriminate Heq.
        * destruct Hid as (k & _ & ->), Hnum as (k' & _ & Heq). discriminate Heq.
        * eapply numbered_disjoint; [exact Hid|exact Hnum].
      + constructor.
        * destruct Hid as [Hid|Hid]; [left|right];
            (eapply numbered_mono; [| |exact Hid]; lia).
        * eapply Forall_impl; [exact Hnum|]. intros id' [H'|H']; [left|right];
            (eapply numbered_mono; [| |exact H']; lia). }
  destruct (H 0) as (ids & ? & ? & ? & _). by exists ids.
Qed.

Lemma snapToGrid_on_grid v : (GRID | snapToGrid v)%Z.
Proof. unfold snapToGrid. apply Z.divide_factor_r. Qed.

Lemma snapToGrid_fixes v : (GRID | v)%Z → snapToGrid v = v.
Proof.
  intros [k ->]. unfold snapToGrid, GRID.
  replace (2 * (k * 20) + 20)%Z with (20 + k * (2 * 20))%Z by lia.
  rewrite Z.div_add by lia. change (20 / (2 * 20))%Z with 0%Z. lia.
Qed.

(** X6. At a safe integer (magnitude below 2^53) the code's computation
    [Math.round(v / 20) * 20] in binary64 gives the integer [snapToGrid v],
    which is the multiple of the grid unit nearest to [v], the upper one when
    two are equally near; so [snapToGrid] leaves a multiple of the grid unit
    where it is, and snapping twice is snapping once. *)
Theorem snapToGrid_nearest (v : Z) :
  safe_integer v →
  (integer_of (snapToGrid_binary64 (Number_of_Z v)) = Some (snapToGrid v)
   ∧ (GRID | snapToGrid v)
   ∧ snapToGrid v - 10 ≤ v < snapToGrid v + 10
   ∧ ((GRID | v) → snapToGrid v = v)
   ∧ snapToGrid (snapToGrid v) = snapToGrid v)%Z.
Proof.
  intros Hsafe. split; [by apply GridFacts.snapToGrid_binary64_exact|].
  split; [apply snapToGrid_on_grid|]. split.
  - unfold snapToGrid, GRID.
    pose proof (Z.div_mod (2 * v + 20) (2 * 20) ltac:(lia)) as Hdm.
    pose proof (Z.mod_pos_bound (2 * v + 20) (2 * 20) ltac:(lia)) as Hmod. lia.
  - split; [apply snapToGrid_fixes|apply snapToGrid_fixes, snapToGrid_on_grid].
Qed.

Lemma snapToGrid_nearest_witness :
  (safe_integer 230 ∧ safe_integer (-31))
  ∧ (snapToGrid 230 = 240 ∧ snapToGrid (-31) = -40)%Z
  ∧ (integer_of (snapToGrid_binary64 (Number_of_Z 230)) = Some (snapToGrid 230)
     ∧ (GRID | snapToGrid 230)
     ∧ snapToGrid 230 - 10 ≤ 230 < snapToGrid 230 + 10
     ∧ ((GRID | 230) → snapToGrid 230 = 230)
     ∧ snapToGrid (snapToGrid 230) = snapToGrid 230)%Z.
Proof.
  assert (safe_integer 230) as Hsafe by (unfold safe_integer; cbn; lia).
  split; [split; [exact Hsafe|unfold safe_integer; cbn; lia]|].
  split; [split; reflexivity|]. apply (snapToGrid_nearest 230 Hsafe).
Defined.




End HookFacts.

(** ** Validation: when nothing is reported *)

Module ValidityFacts.
Import FlowState ValidationError ListFacts StoreFacts ValidateFacts StringFacts.

Lemma truthy_Some s : truthy (Some s) = true ↔ s ≠ "".
Proof. cbn. rewrite negb_true_iff. apply String.eqb_neq. Qed.

Lemma mjoin_nil {A} (ls : list (list A)) : mjoin ls = [] ↔ Forall (λ l, l = []) ls.
Proof.
  induction ls as [|l ls IH].
  - split; [constructor|done].
  - change (mjoin (l :: ls)) with (l ++ mjoin ls). rewrite Forall_cons, <-IH. split.
    + intros H. by apply app_eq_nil in H.
    + by intros [-> ->].
Qed.

Lemma global_issues_nil nodes startNodeId :
  global_issues nodes startNodeId = []
  ↔ ∃ s, startNodeId = Some s ∧ s ≠ "" ∧ s ∈ FlowNode.id <$> nodes.
Proof.
  unfold global_issues. destruct startNodeId as [s|]; cbn [includes].
  - destruct (truthy (Some s)) eqn:Ht; cbn [negb].
    + apply truthy_Some in Ht. case_bool_decide as Hin; cbn [negb].
      * split; [intros _; by exists s|done].
      * split; [done|]. intros (s' & [= <-] & _ & Hin'). done.
    + split; [done|]. intros (s' & [= <-] & Hne & _).
      apply truthy_Some in Hne. congruence.
  - cbn. split; [done|]. by intros (s & ? & _).
Qed.

Lemma edge_issues_nil nodes node edge :
  edge_issues nodes node edge = []
  ↔ FlowEdge.toNodeId edge ≠ ""
    ∧ FlowEdge.toNodeId edge ∈ FlowNode.id <$> nodes
    ∧ blank (FlowEdge.condition edge) = false.
Proof.
  unfold edge_issues.
  destruct (truthy (Some (FlowEdge.toNodeId edge))) eqn:Ht; cbn [negb].
  - apply truthy_Some in Ht. case_bool_decide as Hin; cbn [negb].
    + destruct (blank _); cbn; split; try done. by intros (_ & _ & ?).
    + split; [done|]. by intros (_ & ? & _).
  - split; [done|]. intros (Hne & _). apply truthy_Some in Hne. congruence.
Qed.

Lemma node_issues_nil nodes seen n :
  node_issues nodes seen n = []
  ↔ blank (FlowNode.id n) = false
    ∧ (FlowNode.id n ∉ seen)
    ∧ blank (FlowNode.description n) = false
    ∧ Forall (λ e, FlowEdge.toNodeId e ≠ ""
                   ∧ FlowEdge.toNodeId e ∈ FlowNode.id <$> nodes
                   ∧ blank (FlowEdge.condition e) = false)
        (FlowNode.edges n).
Proof.
  unfold node_issues. rewrite edge_part_concat. cbn [app].
  assert (mjoin (edge_issues nodes n <$> FlowNode.edges n) = []
          ↔ Forall (λ e, FlowEdge.toNodeId e ≠ ""
                         ∧ FlowEdge.toNodeId e ∈ FlowNode.id <$> nodes
                         ∧ blank (FlowEdge.condition e) = false)
              (FlowNode.edges n)) as <-.
  { rewrite mjoin_nil, Forall_fmap. apply Forall_iff. intros e. apply edge_issues_nil. }
  destruct (blank (FlowNode.id n)); [split; [done|by intros [? _]]|].
  destruct (decide (FlowNode.id n ∈ seen)) as [Hseen|Hseen];
    [split; [done|by intros (_ & ? & _)]|].
  destruct (blank (FlowNode.description n)); [split; [done|by intros (_ & _ & ? & _)]|].
  cbn [app]. split; [by intros ->|by intros (_ & _ & _ & ?)].
Qed.

Lemma rounds_nil nodes seen l :
  mjoin (rounds nodes seen l) = []
  ↔ NoDup (FlowNode.id <$> l)
    ∧ (∀ s, s ∈ FlowNode.id <$> l → s ∉ seen)
    ∧ Forall
        (λ n, blank (FlowNode.id n) = false
              ∧ blank (FlowNode.description n) = false
              ∧ Forall (λ e, FlowEdge.toNodeId e ≠ ""
                             ∧ FlowEdge.toNodeId e ∈ FlowNode.id <$> nodes
                             ∧ blank (FlowEdge.condition e) = false)
                  (FlowNode.edges n))
        l.
Proof.
  revert seen. induction l as [|n l IH]; intros seen.
  - cbn. split; [|done]. intros _. split_and!; [constructor| |constructor].
    intros s Hs. by apply elem_of_nil in Hs.
  - cbn [rounds].
    change (mjoin (?a :: ?r)) with (a ++ mjoin r).
    rewrite fmap_cons, NoDup_cons, Forall_cons. split.
    + intros H. apply app_eq_nil in H as [Hn Hl].
      apply node_issues_nil in Hn as (Hid & Hseen & Hdesc & Hedges).
      apply IH in Hl as (Hnodup & Hfresh & Hall).
      split_and!; try done.
      * intros Hin. apply (Hfresh _ Hin). set_solver.
      * intros s Hs. apply elem_of_cons in Hs as [->|Hs]; [done|].
        specialize (Hfresh _ Hs). set_solver.
    + intros ((Hnotin & Hnodup) & Hfresh & (Hid & Hdesc & Hedges) & Hall).
      assert (node_issues nodes seen n = []) as ->.
      { apply node_issues_nil. split_and!; try done. apply Hfresh. by left. }
      cbn [app]. apply IH. split_and!; try done.
      intros s Hs Hin. apply elem_of_union in Hin as [Hin|Hin].
      * apply elem_of_singleton in Hin as ->. done.
      * apply (Hfresh s); [by right|done].
Qed.

Lemma filter_errors_validateFlow nodes startNodeId :
  filter (λ v, type v = error) (validateFlow nodes startNodeId)
  = global_issues nodes startNodeId ++ mjoin (node_chunks nodes).
Proof.
  rewrite validateFlow_structure, !filter_app.
  rewrite (filter_all _ (global_issues nodes startNodeId)).
  2:{ intros v Hv. by apply global_issues_no_node in Hv as [_ ?]. }
  rewrite (filter_all _ (mjoin (node_chunks nodes))).
  2:{ intros v Hv. pose proof (node_chunks_errors nodes) as Hall.
      rewrite Forall_forall in Hall. by apply Hall. }
  rewrite (filter_none _ (reachability_issues nodes startNodeId)).
  2:{ apply Forall_forall. intros v Hv. apply reachability_issues_warnings in Hv.
      cbn. by rewrite Hv. }
  by rewrite app_nil_r.
Qed.

Lemma filter_warnings_validateFlow nodes startNodeId :
  filter (λ v, type v = warning) (validateFlow nodes startNodeId)
  = reachability_issues nodes startNodeId.
Proof.
  rewrite validateFlow_structure, !filter_app.
  rewrite (filter_none _ (global_issues nodes startNodeId)).
  2:{ apply Forall_forall. intros v Hv. apply global_issues_no_node in Hv as [_ Hv].
      cbn. by rewrite Hv. }
  rewrite (filter_none _ (mjoin (node_chunks nodes))).
  2:{ eapply Forall_impl; [apply node_chunks_errors|]. cbn. by intros v ->. }
  cbn [app]. apply filter_all. intros v Hv. by apply reachability_issues_warnings in Hv.
Qed.

Lemma no_errors_structurally_valid nodes startNodeId :
  global_issues nodes startNodeId ++ mjoin (node_chunks nodes) = []
  ↔ structurally_valid nodes startNodeId.
Proof.
  unfold structurally_valid. rewrite node_chunks_rounds. split.
  - intros H. apply app_eq_nil in H as [Hg Hc].
    apply global_issues_nil in Hg. apply rounds_nil in Hc as (Hnodup & _ & Hall).
    split_and!; [done|done|]. eapply Forall_impl; [exact Hall|].
    intros n (? & ? & Hedges). split_and!; [done|done|].
    eapply Forall_impl; [exact Hedges|]. by intros e (_ & ? & ?).
  - intros (Hstart & Hnodup & Hall).
    apply global_issues_nil in Hstart as ->. cbn [app].
    apply rounds_nil. split_and!; [done|set_solver|].
    rewrite Forall_forall in Hall. apply Forall_forall. intros n Hn.
    destruct (Hall n Hn) as (Hid & Hdesc & Hedges). split_and!; [done|done|].
    eapply Forall_impl; [exact Hedges|]. intros e [Hto Hcond]. split_and!; [|done|done].
    apply list_elem_of_fmap in Hto as (m & Heq & Hm).
    destruct (Hall m Hm) as (Hmid & _). rewrite Heq. by apply blank_false_nonempty.
Qed.

(** X8. [validateFlow] reports no error (it may report warnings) exactly for
    the graphs in which the start pointer is a non-empty id that some node
    carries, the node ids are pairwise distinct and not blank, no description
    is blank, and every edge targets the id of some node and has a condition
    that is not blank. *)
Theorem no_errors_iff_structurally_valid nodes startNodeId :
  filter (λ v, type v = error) (validateFlow nodes startNodeId) = []
  ↔ structurally_valid nodes startNodeId.
Proof.
  rewrite filter_errors_validateFlow. apply no_errors_structurally_valid.
Qed.

Lemma reachability_issues_nil nodes s :
  s ≠ "" → s ∈ FlowNode.id <$> nodes →
  reachability_issues nodes (Some s) = []
  ↔ ∀ n, n ∈ nodes → Reach nodes s (FlowNode.id n).
Proof.
  intros Hs Hin. destruct (traverse_from_start nodes s) as (R & Hrun & HR).
  unfold reachability_issues.
  assert (truthy (Some s) = true) as -> by by apply truthy_Some.
  cbn [includes]. rewrite bool_decide_eq_true_2 by done. cbn [andb].
  rewrite (Hrun (traverse_fuel nodes)) by done.
  rewrite warnings_fold. cbn [app]. split.
  - intros Hnil n Hn. apply fmap_nil_inv in Hnil. apply HR. destruct (decide (FlowNode.id n ∈ R)) as [|Hnot]; [done|].
    assert (n ∈ filter (λ n, FlowNode.id n ∉ R) nodes) as Hmem
      by by apply list_elem_of_filter.
    rewrite Hnil in Hmem. by apply elem_of_nil in Hmem.
  - intros Hall. rewrite filter_none; [done|]. apply Forall_forall. intros n Hn Hnot.
    apply Hnot, HR, Hall, Hn.
Qed.

(** X9. The toolbar shows its "Valid" badge exactly for the graphs that break
    none of the validator's error rules and in which every node's id is
    reached from the start pointer; such a graph has at least one node. *)
Theorem valid_badge_iff_well_formed nodes startNodeId :
  Toolbar.valid_badge (length nodes) (validateFlow nodes startNodeId) = true
  ↔ structurally_valid nodes startNodeId ∧ all_reachable nodes startNodeId.
Proof.
  unfold Toolbar.valid_badge, Toolbar.errCount, Toolbar.warnCount.
  rewrite !andb_true_iff, !bool_decide_eq_true, !length_zero_iff_nil.
  rewrite filter_errors_validateFlow, filter_warnings_validateFlow.
  rewrite no_errors_structurally_valid. unfold all_reachable. split.
  - intros [[Hvalid Hreach] _]. split; [done|].
    destruct Hvalid as ((s & -> & Hs & Hin) & _). exists s. split; [done|].
    by apply reachability_issues_nil.
  - intros [Hvalid (s & Hstart & Hreach)]. split; [split; [done|]|].
    + destruct Hvalid as ((s' & Hs' & Hne & Hin) & _).
      assert (s' = s) as -> by congruence. rewrite Hs'.
      by apply reachability_issues_nil.
    + destruct Hvalid as ((s' & _ & _ & Hin) & _).
      apply list_elem_of_fmap in Hin as (n & _ & Hn).
      destruct nodes; [by apply elem_of_nil in Hn|cbn; lia].
Qed.

End ValidityFacts.

(** ** Editing through the handlers *)

Module EditingFacts.
Import FlowState ValidationError ListFacts StoreFacts StoreLaws ExportFacts.
Import ValidateFacts ImportFacts StringFacts HookFacts ValidityFacts.

(** X10. The store never repairs the start pointer. After [deleteNode] of the
    start node the pointer is [null], and validation reports "No start node
    selected." first, then the per-node errors, and no warning at all; after
    [setStartNode] with a non-empty id that no node carries, validation
    reports "Selected start node no longer exists." first, then the per-node
    errors, and no warning either. *)
Theorem start_pointer_lost :
  (∀ id prev,
     startNodeId prev = Some id →
     let next := Store.deleteNode id prev in
     startNodeId next = None
     ∧ validateFlow (nodes next) (startNodeId next)
       = Issue.no_start :: mjoin (node_chunks (nodes next)))
  ∧ (∀ id prev,
       id ≠ "" → id ∉ FlowNode.id <$> nodes prev →
       let next := Store.setStartNode id prev in
       validateFlow (nodes next) (startNodeId next)
       = Issue.start_missing :: mjoin (node_chunks (nodes prev)))
  ∧ (∀ nodes startNodeId,
       global_issues nodes startNodeId ≠ [] →
       Forall (λ v, type v = error) (validateFlow nodes startNodeId)).
Proof.
  split_and!.
  - intros id prev Hstart next.
    assert (startNodeId next = None) as Hnone.
    { unfold next, Store.deleteNode. cbn. by rewrite decide_True. }
    split; [done|]. rewrite Hnone, validateFlow_structure. cbn. by rewrite app_nil_r.
  - intros id prev Hid Habsent next. unfold next, Store.setStartNode. cbn [nodes startNodeId].
    rewrite validateFlow_structure. unfold global_issues, reachability_issues.
    assert (truthy (Some id) = true) as -> by by apply truthy_Some.
    cbn [includes]. rewrite bool_decide_eq_false_2 by done. cbn. by rewrite app_nil_r.
  - intros ns sid Hglobal. rewrite validateFlow_structure.
    assert (reachability_issues ns sid = []) as ->.
    { unfold global_issues, reachability_issues in *. destruct sid as [s|]; [|done].
      destruct (truthy (Some s)); cbn [negb andb] in *; [|done].
      destruct (includes _ _); cbn [negb] in *; done. }
    rewrite app_nil_r. apply Forall_app. split; [|apply node_chunks_errors].
    apply Forall_forall. intros v Hv. by apply global_issues_no_node in Hv as [_ ?].
Qed.

Lemma occurrences_snoc `{EqDecision A} (a : A) (l : list A) :
  occurrences a (l ++ [a]) = S (occurrences a l).
Proof.
  rewrite occurrences_app, occurrences_cons, decide_True by done.
  unfold occurrences at 2. cbn. lia.
Qed.

Lemma node_id_not_blank (k : nat) : blank ("node_" +:+ pretty k) = false.
Proof.
  change ("node_" +:+ pretty k) with (String "n" ("ode_" +:+ pretty k)).
  apply blank_false_head. apply (bool_decide_unpack _). vm_compute. exact I.
Qed.

(** X11. [addNode], called with safe integers as coordinates (or with a
    coordinate left out), does not look at the ids in use. It appends a node
    with the next id of the counter, empty description, prompt and edges, at
    the coordinates that the binary64 computation of [snapToGrid] gives, on
    the grid, and returns that id; validation of the new state then reports
    "Duplicate node ID" for that id once for every node that carried it
    already (not at all if none did), and "Description is required." for
    it. *)
Theorem addNode_ignores_ids_in_use (x y : option Z) (prev : FlowState.t) (c : nat) :
  safe_integer (default 300%Z x) → safe_integer (default 200%Z y) →
  let id := "node_" +:+ pretty (S c) in
  ∃ node,
    Hook.addNode x y prev c
    = (inr (id, FlowState.mk (nodes prev ++ [node]) (startNodeId prev)), S c)
    ∧ node = FlowNode.mk id "" "" [] (snapToGrid (default 300%Z x))
               (snapToGrid (default 200%Z y))
    ∧ integer_of (snapToGrid_binary64 (Number_of_Z (default 300%Z x)))
      = Some (FlowNode.x node)
    ∧ integer_of (snapToGrid_binary64 (Number_of_Z (default 200%Z y)))
      = Some (FlowNode.y node)
    ∧ on_grid node
    ∧ occurrences (Issue.duplicate_id id)
        (validateFlow (nodes prev ++ [node]) (startNodeId prev))
      = occurrences id (FlowNode.id <$> nodes prev)
    ∧ Issue.description_required id
        ∈ validateFlow (nodes prev ++ [node]) (startNodeId prev).
Proof.
  intros Hx Hy id. eexists. split; [|split; [reflexivity|]].
  { unfold Hook.addNode, Hook.makeNode. run_M. rewrite generateNodeId_run. run_M.
    reflexivity. }
  split; [by apply GridFacts.snapToGrid_binary64_exact|].
  split; [by apply GridFacts.snapToGrid_binary64_exact|].
  split; [split; cbn; apply snapToGrid_on_grid|].
  set (node := FlowNode.mk id _ _ _ _ _). split.
  - rewrite duplicate_id_occurrences by apply node_id_not_blank.
    rewrite fmap_app. cbn [fmap list_fmap]. change (FlowNode.id node) with id.
    by rewrite occurrences_snoc.
  - rewrite validateFlow_structure. apply elem_of_app. right. apply elem_of_app. left.
    apply list_elem_of_join. eexists. split.
    2:{ eapply list_elem_of_lookup_2.
        apply (node_chunks_lookup _ (length (nodes prev)) node).
        by rewrite lookup_app_r, Nat.sub_diag by lia. }
    unfold node_issues. apply elem_of_app. right. apply elem_of_app. left.
    change (blank (FlowNode.description node)) with true. by left.
Qed.

Lemma addNode_ignores_ids_in_use_witness :
  let prev :=
    FlowState.mk
      [Hook.initialNode; FlowNode.mk "node_3" "taken" "" [] 360 180] (Some "welcome") in
  let node := FlowNode.mk "node_3" "" "" [] 240 200 in
  (safe_integer (default 300%Z (Some 230%Z)) ∧ safe_integer (default 200%Z None))
  ∧ ∃ node',
      Hook.addNode (Some 230%Z) None prev 2
      = (inr ("node_3", FlowState.mk (nodes prev ++ [node']) (startNodeId prev)), 3)
      ∧ node' = node
      ∧ integer_of (snapToGrid_binary64 (Number_of_Z (default 300%Z (Some 230%Z))))
        = Some (FlowNode.x node')
      ∧ integer_of (snapToGrid_binary64 (Number_of_Z (default 200%Z None)))
        = Some (FlowNode.y node')
      ∧ on_grid node'
      ∧ occurrences (Issue.duplicate_id "node_3")
          (validateFlow (nodes prev ++ [node']) (startNodeId prev))
        = occurrences "node_3" (FlowNode.id <$> nodes prev)
      ∧ Issue.description_required "node_3"
          ∈ validateFlow (nodes prev ++ [node']) (startNodeId prev).
Proof.
  intros prev node.
  assert (safe_integer (default 300%Z (Some 230%Z))) as Hx by (unfold safe_integer; cbn; lia).
  assert (safe_integer (default 200%Z None)) as Hy by (unfold safe_integer; cbn; lia).
  split; [by split|].
  apply (addNode_ignores_ids_in_use (Some 230%Z) None prev 2 Hx Hy).
Defined.

(** X12. An id that the inspector's id field accepts and hands to
    [updateNode] is the draft trimmed, is not blank and is carried by no node;
    after the update every node that had the old id has the new one, the other
    ids are as they were, and ids that were pairwise distinct still are. *)
Theorem commitId_keeps_ids_unique
    (node : FlowNode.t) (prev : FlowState.t) (idDraft : string) (patch : NodePatch.t) :
  NoDup (FlowNode.id <$> nodes prev) →
  NodeInspector.commitId node (nodes prev) idDraft = NodeInspector.Accepted (Some patch) →
  let next := Store.updateNode (FlowNode.id node) patch prev in
  patch = NodePatch.mk (Some (trim idDraft)) None None
  ∧ blank (trim idDraft) = false
  ∧ (trim idDraft ∉ FlowNode.id <$> nodes prev)
  ∧ FlowNode.id <$> nodes next
    = (λ i, if decide (i = FlowNode.id node) then trim idDraft else i)
        <$> (FlowNode.id <$> nodes prev)
  ∧ NoDup (FlowNode.id <$> nodes next).
Proof.
  intros Hnodup Hcommit next. unfold NodeInspector.commitId in Hcommit.
  destruct (truthy (Some (trim idDraft))) eqn:Ht; cbn [negb] in Hcommit; [|discriminate].
  apply truthy_Some in Ht.
  destruct (decide (trim idDraft ≠ FlowNode.id node)) as [Hne|Heq].
  2:{ destruct (_ && _); discriminate. }
  rewrite bool_decide_eq_true_2 in Hcommit by done. cbn [andb] in Hcommit.
  case_bool_decide as Hin; [discriminate|]. injection Hcommit as <-.
  assert (FlowNode.id <$> nodes next
          = (λ i, if decide (i = FlowNode.id node) then trim idDraft else i)
              <$> (FlowNode.id <$> nodes prev)) as Hids.
  { unfold next. rewrite updateNode_rename_nodes by done.
    rewrite <-!list_fmap_compose. apply list_fmap_ext. intros _ n _. cbn.
    by case_decide. }
  split_and!; [done|by apply trim_not_blank|done|done|].
  rewrite Hids. apply NoDup_fmap_2_strong; [|done].
  intros i j Hi Hj. repeat case_decide; intros Hij; subst; done.
Qed.

Lemma commitId_keeps_ids_unique_witness :
  let node := FlowNode.mk "A" "first" "" [] 100 180 in
  let prev :=
    FlowState.mk
      [node; FlowNode.mk "C" "second" "" [FlowEdge.mk "e2" "A" "back" ∅] 360 180]
      (Some "A") in
  let patch := NodePatch.mk (Some "B") None None in
  (NoDup (FlowNode.id <$> nodes prev)
   ∧ NodeInspector.commitId node (nodes prev) "  B " = NodeInspector.Accepted (Some patch))
  ∧ FlowNode.id <$> nodes (Store.updateNode "A" patch prev) = ["B"; "C"]
  ∧ NoDup (FlowNode.id <$> nodes (Store.updateNode "A" patch prev)).
Proof.
  intros node prev patch.
  assert (NoDup (FlowNode.id <$> nodes prev)) as Hnodup.
  { cbn. apply NoDup_cons. split; [|apply NoDup_singleton].
    rewrite list_elem_of_singleton. discriminate. }
  assert (NodeInspector.commitId node (nodes prev) "  B "
          = NodeInspector.Accepted (Some patch)) as Hcommit by reflexivity.
  split; [by split|]. split; [reflexivity|].
  apply (commitId_keeps_ids_unique node prev "  B " patch Hnodup Hcommit).
Defined.

Lemma find_node_None nodes cur :
  find_node nodes cur = None ↔ cur ∉ FlowNode.id <$> nodes.
Proof.
  unfold find_node. rewrite fmap_None, list_find_None, Forall_forall, list_elem_of_fmap.
  split.
  - intros Hall (n & -> & Hn). by apply (Hall n).
  - intros Hnot n Hn Heq. apply Hnot. eauto.
Qed.

(** X13. A rename through the inspector leaves the selection where it was:
    after the id field of the selected node is committed with an accepted new
    id, [selectedNodeId] still holds the old id, which no node carries any
    more, so the sidebar finds no selected node. *)
Theorem rename_loses_selection
    (idDraft : string) (w : App.World) (node : FlowNode.t) (patch : NodePatch.t) :
  Handlers.selectedNode w = Some node →
  NodeInspector.commitId node (nodes (App.state w)) idDraft
  = NodeInspector.Accepted (Some patch) →
  let w' := Handlers.commitSelectedId idDraft w in
  App.state w' = Store.updateNode (FlowNode.id node) patch (App.state w)
  ∧ App.selectedNodeId w' = Some (FlowNode.id node)
  ∧ (FlowNode.id node ∉ FlowNode.id <$> nodes (App.state w'))
  ∧ Handlers.selectedNode w' = None.
Proof.
  intros Hsel Hcommit w'.
  assert (App.selectedNodeId w = Some (FlowNode.id node)) as Hid.
  { unfold Handlers.selectedNode in Hsel. destruct (App.selectedNodeId w) as [id|]; [|done].
    cbn in Hsel. apply find_node_Some in Hsel as [_ ->]. done. }
  assert (w' = App.mk (App._counter w)
                 (Store.updateNode (FlowNode.id node) patch (App.state w))
                 (App.selectedNodeId w) (App.selectedEdge w)) as ->.
  { unfold w', Handlers.commitSelectedId. by rewrite Hsel, Hcommit. }
  cbn [App.state App.selectedNodeId].
  unfold NodeInspector.commitId in Hcommit.
  destruct (truthy (Some (trim idDraft))) eqn:Ht; cbn [negb] in Hcommit; [|discriminate].
  apply truthy_Some in Ht.
  destruct (decide (trim idDraft ≠ FlowNode.id node)) as [Hne|Heq].
  2:{ destruct (_ && _); discriminate. }
  rewrite bool_decide_eq_true_2 in Hcommit by done. cbn [andb] in Hcommit.
  case_bool_decide as Hin; [discriminate|]. injection Hcommit as <-.
  assert (FlowNode.id node
            ∉ FlowNode.id <$> nodes (Store.updateNode (FlowNode.id node)
                                       (NodePatch.mk (Some (trim idDraft)) None None)
                                       (App.state w))) as Hgone.
  { rewrite updateNode_rename_nodes by done. rewrite <-list_fmap_compose.
    rewrite list_elem_of_fmap. intros (n & Heq & _). cbn in Heq.
    case_decide; cbn in Heq; congruence. }
  split_and!; [done|done|done|].
  unfold Handlers.selectedNode. cbn [App.state App.selectedNodeId]. rewrite Hid. cbn.
  by apply find_node_None.
Qed.

Lemma rename_loses_selection_witness :
  let node := FlowNode.mk "A" "first" "" [] 100 180 in
  let w :=
    App.mk 0
      (FlowState.mk
         [node; FlowNode.mk "C" "second" "" [FlowEdge.mk "e2" "A" "back" ∅] 360 180]
         (Some "A"))
      (Some "A") None in
  let patch := NodePatch.mk (Some "B") None None in
  (Handlers.selectedNode w = Some node
   ∧ NodeInspector.commitId node (nodes (App.state w)) "B"
     = NodeInspector.Accepted (Some patch))
  ∧ Handlers.selectedNode (Handlers.commitSelectedId "B" w) = None.
Proof.
  intros node w patch. split; [by split|].
  apply (rename_loses_selection "B" w node patch eq_refl eq_refl).
Defined.

(** X14. With a node selected under a non-empty id, the Delete and Backspace
    keys (pressed outside an input) delete that node and clear the node
    selection, and neither delete an edge nor touch the edge selection. A
    click on an edge of the canvas selects the edge's source node too, so
    Delete after such a click deletes the source node, not the edge. *)
Theorem delete_key_prefers_node
    (e : Handlers.KeyboardEvent) (w : App.World) (cv : Canvas.State) (id : string) :
  Handlers.key e = "Delete" ∨ Handlers.key e = "Backspace" →
  id ≠ "" →
  (App.selectedNodeId w = Some id →
   (Handlers.onKeyDown e false (w, cv)).1
   = App.mk (App._counter w) (Store.deleteNode id (App.state w)) None (App.selectedEdge w))
  ∧ (∀ edgeId,
       (Handlers.onKeyDown e false (Handlers.handleEdgeClick id edgeId w, cv)).1
       = App.mk (App._counter w) (Store.deleteNode id (App.state w)) None
           (Some (App.mkSelectedEdge id edgeId)))
  ∧ (Handlers.onKeyDown e true (w, cv)).1 = w.
Proof.
  intros Hkey Hid.
  assert ((bool_decide (Handlers.key e = "Delete")
           || bool_decide (Handlers.key e = "Backspace")) = true) as Hpressed.
  { destruct Hkey as [->| ->]; reflexivity. }
  assert (∀ w', App.selectedNodeId w' = Some id →
            (Handlers.onKeyDown e false (w', cv)).1
            = App.mk (App._counter w') (Store.deleteNode id (App.state w')) None
                (App.selectedEdge w')) as Hnode.
  { intros w' Hsel. unfold Handlers.onKeyDown. cbn [fst snd]. rewrite Hpressed. cbn [negb andb].
    unfold Handlers.deleteSelection. rewrite Hsel.
    by rewrite (proj2 (truthy_Some id) Hid). }
  split_and!.
  - apply Hnode.
  - intros edgeId. by rewrite Hnode.
  - unfold Handlers.onKeyDown. cbn [fst snd negb]. by rewrite andb_false_r.
Qed.

Lemma delete_key_prefers_node_witness :
  let e := Handlers.mkKey "Delete" false false in
  let w :=
    App.mk 2
      (FlowState.mk
         [FlowNode.mk "A" "first" ""
            [FlowEdge.mk "edge_1" "C" "next" ∅; FlowEdge.mk "edge_2" "C" "other" ∅] 100 180;
          FlowNode.mk "C" "second" "" [] 360 180]
         (Some "C"))
      None None in
  ((Handlers.key e = "Delete" ∨ Handlers.key e = "Backspace") ∧ "A" ≠ "")
  ∧ (Handlers.onKeyDown e false (Handlers.handleEdgeClick "A" "edge_1" w, Viewport.initial)).1
    = App.mk 2 (FlowState.mk [FlowNode.mk "C" "second" "" [] 360 180] (Some "C")) None
        (Some (App.mkSelectedEdge "A" "edge_1")).
Proof.
  intros e w.
  assert (Handlers.key e = "Delete" ∨ Handlers.key e = "Backspace") as Hkey by by left.
  assert ("A" ≠ "") as Hid by done.
  split; [by split|].
  exact (proj1 (proj2 (delete_key_prefers_node e w Viewport.initial "A" Hkey Hid)) "edge_1").
Defined.

(** X15. [addParam] hands over no patch exactly when the key is blank.
    Otherwise the patched edge maps the trimmed key to the new value
    (replacing what the key had), keeps every other key, its id, target and
    condition, and is exported with a [parameters] field; and if the trimmed
    key was new, [removeParam] of it gives the edge back. *)
Theorem addParam_then_removeParam (edge : FlowEdge.t) (newKey newVal : string) :
  (EdgeEditor.addParam edge newKey newVal = None ↔ blank newKey = true)
  ∧ (∀ patch,
       EdgeEditor.addParam edge newKey newVal = Some patch →
       let k := trim newKey in
       let edge' := EdgePatch.spread edge patch in
       k ≠ ""
       ∧ FlowEdge.parameters edge' = <[k := newVal]> (FlowEdge.parameters edge)
       ∧ FlowEdge.parameters edge' !! k = Some newVal
       ∧ (∀ k', k' ≠ k → FlowEdge.parameters edge' !! k' = FlowEdge.parameters edge !! k')
       ∧ FlowEdge.id edge' = FlowEdge.id edge
       ∧ FlowEdge.toNodeId edge' = FlowEdge.toNodeId edge
       ∧ FlowEdge.condition edge' = FlowEdge.condition edge
       ∧ ExportedEdge.parameters (exportedEdge edge') = Some (FlowEdge.parameters edge')
       ∧ (FlowEdge.parameters edge !! k = None →
          EdgePatch.spread edge' (EdgeEditor.removeParam edge' k) = edge)).
Proof.
  unfold EdgeEditor.addParam. split.
  - destruct (blank newKey); split; done.
  - intros patch Hadd. cbn zeta. destruct (blank newKey) eqn:Hblank; [discriminate|].
    injection Hadd as <-. rewrite exportedEdge_parameters. unfold EdgePatch.spread. cbn.
    split_and!; try done.
    + intros Hk. unfold blank in Hblank. rewrite Hk in Hblank. discriminate.
    + apply lookup_insert_eq.
    + intros k' Hk'. by apply lookup_insert_ne.
    + rewrite decide_False; [done|]. apply insert_non_empty.
    + intros Hnew. destruct edge as [eid to cond params]. cbn in *. f_equal.
      by apply delete_insert_id.
Qed.

(** X16. [removeParam] takes the key away and keeps every other key; the
    edge is exported without a [parameters] field afterwards exactly when it
    had no other key. [updateParam] sets the key and keeps the others, and
    never changes how many keys there are when the key was there. *)
Theorem removeParam_updateParam (edge : FlowEdge.t) (key value : string) :
  (let edge' := EdgePatch.spread edge (EdgeEditor.removeParam edge key) in
   FlowEdge.parameters edge' !! key = None
   ∧ (∀ k', k' ≠ key → FlowEdge.parameters edge' !! k' = FlowEdge.parameters edge !! k')
   ∧ (ExportedEdge.parameters (exportedEdge edge') = None
      ↔ ∀ k', k' ≠ key → FlowEdge.parameters edge !! k' = None))
  ∧ (let edge' := EdgePatch.spread edge (EdgeEditor.updateParam edge key value) in
     FlowEdge.parameters edge' !! key = Some value
     ∧ (∀ k', k' ≠ key → FlowEdge.parameters edge' !! k' = FlowEdge.parameters edge !! k')
     ∧ (is_Some (FlowEdge.parameters edge !! key) →
        EdgeEditor.paramCount edge' = EdgeEditor.paramCount edge)).
Proof.
  split; cbn zeta; rewrite ?exportedEdge_parameters; unfold EdgePatch.spread; cbn.
  - split_and!.
    + apply lookup_delete_eq.
    + intros k' Hk'. by apply lookup_delete_ne.
    + case_decide as Hempty.
      * split; [|done]. intros _ k' Hk'.
        rewrite <-(lookup_delete_ne (FlowEdge.parameters edge) key k') by done.
        rewrite Hempty. apply lookup_empty.
      * split; [done|]. intros Hnone. destruct Hempty. apply map_empty. intros k'.
        destruct (decide (k' = key)) as [->|Hk']; [apply lookup_delete_eq|].
        rewrite lookup_delete_ne by done. by apply Hnone.
  - split_and!.
    + apply lookup_insert_eq.
    + intros k' Hk'. by apply lookup_insert_ne.
    + intros [v Hv]. unfold EdgeEditor.paramCount. cbn.
      rewrite <-(insert_delete_eq (FlowEdge.parameters edge)).
      rewrite <-(insert_delete_id (FlowEdge.parameters edge) key v) at 2 by done.
      rewrite !map_size_insert_None by apply lookup_delete_eq. done.
Qed.

End EditingFacts.

(** ** Schema codec: what the export keeps and what the import draws *)

Module CodecFacts.
Import FlowState ListFacts ExportFacts ImportFacts HookFacts.

Lemma fmap_eq_transfer {A B C} (f : A → B) (g : A → C) (l1 l2 : list A) :
  (∀ a b, f a = f b ↔ g a = g b) → f <$> l1 = f <$> l2 ↔ g <$> l1 = g <$> l2.
Proof.
  intros Hfg. revert l2. induction l1 as [|a l1 IH]; intros [|b l2]; cbn; try done.
  split; intros [= Hab Hl]; f_equal; (by apply Hfg || by apply IH).
Qed.

Lemma exportedEdge_eq e1 e2 :
  exportedEdge e1 = exportedEdge e2 ↔ edge_content e1 = edge_content e2.
Proof.
  split.
  - intros H.
    pose proof (f_equal ExportedEdge.to_node_id H) as Hto.
    pose proof (f_equal ExportedEdge.condition H) as Hcond.
    pose proof (f_equal ExportedEdge.parameters H) as Hp.
    rewrite !exportedEdge_parameters in Hp. cbn in Hto, Hcond.
    unfold edge_content. rewrite Hto, Hcond. f_equal.
    repeat case_decide; congruence.
  - unfold edge_content, exportedEdge. intros [= -> -> ->]. done.
Qed.

Lemma exportedNode_eq n1 n2 :
  exportedNode n1 = exportedNode n2 ↔ node_content n1 = node_content n2.
Proof.
  unfold exportedNode, node_content. split.
  - intros [= -> -> -> Hedges]. f_equal.
    by apply (fmap_eq_transfer exportedEdge edge_content), Hedges; apply exportedEdge_eq.
  - intros [= -> -> -> Hedges]. f_equal.
    by apply (fmap_eq_transfer exportedEdge edge_content); [apply exportedEdge_eq|].
Qed.

(** X17. Two graphs export to the same document exactly when they have the
    same start pointer and, node by node in order, the same id, description
    and prompt and the same sequence of edge targets, conditions and parameter
    maps: positions and edge ids never reach the export, and nothing else is
    lost. *)
Theorem export_determined_by_content
    (nodes1 nodes2 : list FlowNode.t) (start1 start2 : option string) :
  buildExportedFlow nodes1 start1 = buildExportedFlow nodes2 start2
  ↔ start1 = start2 ∧ node_content <$> nodes1 = node_content <$> nodes2.
Proof.
  unfold buildExportedFlow. split.
  - intros [= -> Hnodes]. split; [done|].
    by apply (fmap_eq_transfer exportedNode node_content), Hnodes; apply exportedNode_eq.
  - intros [-> Hnodes]. f_equal.
    by apply (fmap_eq_transfer exportedNode node_content); [apply exportedNode_eq|].
Qed.

(** *** A successful import, step by step *)

Lemma null_or_not (v : json) : v = JNull ∨ v ≠ JNull.
Proof. destruct v; (by left) || (by right). Qed.

Lemma get_field key v c : v ≠ JNull → get key v c = (inr (field key v), c).
Proof. intros Hv. rewrite get_run. by destruct v. Qed.

Lemma importEdge_inr j e c ie c' :
  importEdge j e c = (inr ie, c') →
  c' = S c ∧ ImportedEdge.id ie = "edge_" +:+ pretty (S c).
Proof.
  unfold importEdge. run_M. rewrite generateEdgeId_run. run_M.
  destruct e; run_M; intros H; try discriminate H; by injection H as <- <-.
Qed.

Lemma importEdges_inr items : ∀ j c ies c',
  mapM_from importEdge j items c = (inr ies, c') →
  c' = c + length items
  ∧ length ies = length items
  ∧ ∀ k ie, ies !! k = Some ie → ImportedEdge.id ie = "edge_" +:+ pretty (c + S k).
Proof.
  induction items as [|e items IH]; intros j c ies c' H.
  - cbn in H. injection H as <- <-. split; [cbn; lia|]. split; [done|].
    intros k ie Hk. done.
  - cbn [mapM_from] in H. rewrite bind_run in H.
    destruct (importEdge j e c) as [[ex|ie] c1] eqn:He; [discriminate H|].
    rewrite bind_run in H.
    destruct (mapM_from importEdge (S j) items c1) as [[ex|ies'] c2] eqn:Hes;
      [discriminate H|].
    rewrite ret_run in H. injection H as <- <-.
    apply importEdge_inr in He as [-> Hid]. apply IH in Hes as (-> & Hlen & Hids).
    split; [cbn; lia|]. split; [by cbn; rewrite Hlen|]. intros [|k] ie' Hk.
    + injection Hk as <-. by rewrite Nat.add_1_r.
    + cbn in Hk. rewrite (Hids k ie' Hk). do 2 f_equal. lia.
Qed.

Lemma importEdges_ids items j c ies c' :
  mapM_from importEdge j items c = (inr ies, c') →
  c ≤ c'
  ∧ NoDup (ImportedEdge.id <$> ies)
  ∧ Forall (numbered "edge_" c c') (ImportedEdge.id <$> ies).
Proof.
  intros H. apply importEdges_inr in H as (-> & Hlen & Hids).
  split; [lia|]. split.
  - apply NoDup_alt. intros k1 k2 id Hk1 Hk2.
    rewrite list_lookup_fmap in Hk1, Hk2.
    destruct (ies !! k1) as [ie1|] eqn:H1; [|done].
    destruct (ies !! k2) as [ie2|] eqn:H2; [|done].
    cbn in Hk1, Hk2. injection Hk1 as Hk1. injection Hk2 as Hk2.
    rewrite (Hids _ _ H1) in Hk1. rewrite (Hids _ _ H2) in Hk2.
    rewrite <-Hk2 in Hk1. apply numbered_inj in Hk1. lia.
  - apply Forall_forall. intros id Hid.
    apply list_elem_of_fmap in Hid as (ie & -> & Hie).
    apply list_elem_of_lookup in Hie as [k Hk].
    exists (c + S k). split; [|by apply Hids].
    apply lookup_lt_Some in Hk. lia.
Qed.

Lemma truthy_or_fresh_run n_id c :
  ∃ id c', truthy_or n_id (s ← generateNodeId; mret (JString s)) c = (inr id, c')
           ∧ c ≤ c' ≤ S c.
Proof.
  unfold truthy_or. destruct n_id as [v|].
  - destruct (js_truthy (Some v)).
    + exists v, c. split; [done|lia].
    + eexists _, (S c). split; [reflexivity|lia].
  - eexists _, (S c). split; [reflexivity|lia].
Qed.

Lemma importNode_inr i n c im c' :
  importNode i n c = (inr im, c') →
  ImportedNode.x im = snapToGrid (100 + Z.of_nat (i mod 4) * 260)
  ∧ ImportedNode.y im = snapToGrid (100 + Z.of_nat (i / 4) * 140)
  ∧ c ≤ c'
  ∧ NoDup (ImportedEdge.id <$> ImportedNode.edges im)
  ∧ Forall (numbered "edge_" c c') (ImportedEdge.id <$> ImportedNode.edges im).
Proof.
  intros H. unfold importNode in H.
  destruct (null_or_not n) as [->|Hn].
  { rewrite bind_run, get_run in H. discriminate H. }
  rewrite bind_run, (get_field "id") in H by done. cbn beta iota in H.
  rewrite bind_run in H.
  destruct (truthy_or_fresh_run (field "id" n) c) as (id & c1 & Hid & Hc1).
  rewrite Hid in H. cbn beta iota in H.
  rewrite bind_run, (get_field "description") in H by done. cbn beta iota in H.
  rewrite bind_run, (get_field "prompt") in H by done. cbn beta iota in H.
  rewrite bind_run, (get_field "edges") in H by done. cbn beta iota in H.
  rewrite bind_run in H.
  destruct (nullish_or (field "edges" n) (JArray [])) as [| | | |items|];
    try discriminate H.
  destruct (mapM_from importEdge 0 items c1) as [[ex|ies] c2] eqn:Hies; [discriminate H|].
  rewrite ret_run in H. injection H as <- <-. cbn.
  apply importEdges_ids in Hies as (Hc2 & Hnodup & Hnum).
  split_and!; [done|done|lia|done|].
  eapply Forall_impl; [exact Hnum|]. intros id'. apply numbered_mono; lia.
Qed.

Lemma importNodes_inr items : ∀ i c ns c',
  mapM_from importNode i items c = (inr ns, c') →
  c ≤ c'
  ∧ length ns = length items
  ∧ (∀ k n, ns !! k = Some n →
       ImportedNode.x n = snapToGrid (100 + Z.of_nat ((i + k) mod 4) * 260)
       ∧ ImportedNode.y n = snapToGrid (100 + Z.of_nat ((i + k) / 4) * 140))
  ∧ NoDup (imported_edge_ids ns)
  ∧ Forall (numbered "edge_" c c') (imported_edge_ids ns).
Proof.
  induction items as [|x items IH]; intros i c ns c' H.
  - cbn in H. injection H as <- <-. split_and!; try done; constructor.
  - cbn [mapM_from] in H. rewrite bind_run in H.
    destruct (importNode i x c) as [[ex|n] c1] eqn:Hn; [discriminate H|].
    rewrite bind_run in H.
    destruct (mapM_from importNode (S i) items c1) as [[ex|ns'] c2] eqn:Hns;
      [discriminate H|].
    rewrite ret_run in H. injection H as <- <-.
    apply importNode_inr in Hn as (Hx & Hy & Hc1 & Hnodup1 & Hnum1).
    apply IH in Hns as (Hc2 & Hlen & Hpos & Hnodup2 & Hnum2).
    assert (imported_edge_ids (n :: ns')
            = (ImportedEdge.id <$> ImportedNode.edges n) ++ imported_edge_ids ns') as Heq.
    { unfold imported_edge_ids. cbn [fmap list_fmap].
      change (mjoin (?a :: ?r)) with (a ++ mjoin r). by rewrite fmap_app. }
    split_and!.
    + lia.
    + cbn. by rewrite Hlen.
    + intros [|k] n' Hk.
      * injection Hk as <-. by rewrite Nat.add_0_r.
      * cbn in Hk. replace (i + S k) with (S i + k) by lia. by apply Hpos.
    + rewrite Heq. apply NoDup_app. split_and!; [done| |done].
      intros id Hid1 Hid2. rewrite Forall_forall in Hnum1, Hnum2.
      exact (numbered_disjoint _ _ _ _ _ (Hnum1 _ Hid1) (Hnum2 _ Hid2)).
    + rewrite Heq. apply Forall_app. split.
      * eapply Forall_impl; [exact Hnum1|]. intros id. apply numbered_mono; lia.
      * eapply Forall_impl; [exact Hnum2|]. intros id. apply numbered_mono; lia.
Qed.

Lemma importFlow_inr JSON_parse text c ns sid c' :
  importFlow JSON_parse text c = (inr (ns, sid), c') →
  ∃ data items,
    JSON_parse text = Some data
    ∧ nodes_array data = Some items
    ∧ mapM_from importNode 0 items c = (inr ns, c')
    ∧ sid = nullish_or (coalesce (field "start_node_id" data) (ImportedNode.id <$> head ns))
              JNull.
Proof.
  unfold importFlow. destruct (JSON_parse text) as [data|]; [|discriminate].
  intros H. exists data.
  destruct (null_or_not data) as [->|Hdata].
  { rewrite bind_run, get_run in H. discriminate H. }
  rewrite bind_run, (get_field "nodes") in H by done. cbn beta iota in H.
  destruct data as [| | | | |fields]; try discriminate H. cbn [field] in H.
  destruct (assoc "nodes" fields) as [[| | | |items|]|] eqn:Hnodes;
    cbn [isArray negb] in H; rewrite ?orb_true_r in H; try discriminate H.
  cbn [js_truthy negb orb] in H.
  rewrite bind_run in H.
  destruct (mapM_from importNode 0 items c) as [[ex|ns'] c1] eqn:Hns; [discriminate H|].
  rewrite bind_run, get_run, ret_run in H. injection H as <- <- <-.
  exists items. unfold nodes_array. rewrite Hnodes. done.
Qed.

(** X18. A successful import has one node for every element of the
    document's [nodes] array, and lays them out in rows of four: the node at
    index [i] sits at x = 100 + 260 * (i mod 4) and y = 100 + 140 * (i div 4),
    which are on the grid. *)
Theorem import_lays_out_grid
    (JSON_parse : string → option json) (text : string) (c : nat)
    (ns : list ImportedNode.t) (sid : json) (c' : nat) :
  importFlow JSON_parse text c = (inr (ns, sid), c') →
  ∃ data items,
    JSON_parse text = Some data
    ∧ nodes_array data = Some items
    ∧ length ns = length items
    ∧ ∀ i n, ns !! i = Some n →
        (ImportedNode.x n = 100 + 260 * Z.of_nat (i mod 4)
         ∧ ImportedNode.y n = 100 + 140 * Z.of_nat (i / 4)
         ∧ (GRID | ImportedNode.x n) ∧ (GRID | ImportedNode.y n))%Z.
Proof.
  intros H. apply importFlow_inr in H as (data & items & Hparse & Harray & Hrun & _).
  apply importNodes_inr in Hrun as (_ & Hlen & Hpos & _).
  exists data, items. split_and!; [done|done|done|].
  intros i n Hn. destruct (Hpos i n Hn) as [Hx Hy]. cbn [Nat.add] in Hx, Hy.
  assert (GRID | 100 + Z.of_nat (i mod 4) * 260)%Z as Hgx.
  { exists (5 + Z.of_nat (i mod 4) * 13)%Z. unfold GRID. lia. }
  assert (GRID | 100 + Z.of_nat (i / 4) * 140)%Z as Hgy.
  { exists (5 + Z.of_nat (i / 4) * 7)%Z. unfold GRID. lia. }
  rewrite snapToGrid_fixes in Hx, Hy by done.
  rewrite Hx, Hy. split_and!; [lia|lia|done|done].
Qed.

Lemma import_lays_out_grid_witness :
  let data :=
    JObject [("nodes", JArray [JObject [("id", JString "a")]; JObject []; JNumber 5;
                               JObject [("id", JString "d")];
                               JObject [("id", JString "e")]])] in
  let JSON_parse := λ _ : string, Some data in
  ∃ ns sid c',
    importFlow JSON_parse "<a document with five nodes>" 0 = (inr (ns, sid), c')
    ∧ length ns = 5
    ∧ ((λ n, (ImportedNode.x n, ImportedNode.y n)) <$> ns
       = [(100, 100); (360, 100); (620, 100); (880, 100); (100, 240)])%Z
    ∧ ∀ i n, ns !! i = Some n →
        (ImportedNode.x n = 100 + 260 * Z.of_nat (i mod 4)
         ∧ ImportedNode.y n = 100 + 140 * Z.of_nat (i / 4)
         ∧ (GRID | ImportedNode.x n) ∧ (GRID | ImportedNode.y n))%Z.
Proof.
  intros data JSON_parse.
  destruct (importFlow JSON_parse "<a document with five nodes>" 0)
    as [[ex|[ns sid]] c'] eqn:Hrun; [vm_compute in Hrun; discriminate Hrun|].
  exists ns, sid, c'. split; [reflexivity|].
  destruct (import_lays_out_grid JSON_parse _ 0 ns sid c' Hrun)
    as (data' & items & Hparse & Harray & Hlen & Hpos).
  vm_compute in Hrun. injection Hrun as <- <- <-.
  split; [reflexivity|]. split; [reflexivity|exact Hpos].
Defined.

(** X19. On a successful import the counter does not go down, and every edge
    of every imported node has an id drawn from the counter during the import:
    the edge ids are pairwise distinct across the whole graph, and each is
    [edge_k] for a [k] above the counter's value before the import and not
    above its value after. *)
Theorem import_draws_fresh_edge_ids
    (JSON_parse : string → option json) (text : string) (c : nat)
    (ns : list ImportedNode.t) (sid : json) (c' : nat) :
  importFlow JSON_parse text c = (inr (ns, sid), c') →
  c ≤ c'
  ∧ NoDup (imported_edge_ids ns)
  ∧ Forall (numbered "edge_" c c') (imported_edge_ids ns).
Proof.
  intros H. apply importFlow_inr in H as (data & items & _ & _ & Hrun & _).
  apply importNodes_inr in Hrun as (Hc & _ & _ & Hnodup & Hnum). done.
Qed.

Lemma import_draws_fresh_edge_ids_witness :
  let edge := JObject [("to_node_id", JString "a"); ("condition", JString "again")] in
  let data :=
    JObject [("nodes", JArray [JObject [("id", JString "a"); ("edges", JArray [edge; edge])];
                               JObject [("edges", JArray [edge])]])] in
  let JSON_parse := λ _ : string, Some data in
  ∃ ns sid c',
    importFlow JSON_parse "<a document with two nodes>" 7 = (inr (ns, sid), c')
    ∧ imported_edge_ids ns = ["edge_8"; "edge_9"; "edge_11"]
    ∧ 7 ≤ c'
    ∧ NoDup (imported_edge_ids ns)
    ∧ Forall (numbered "edge_" 7 c') (imported_edge_ids ns).
Proof.
  intros edge data JSON_parse.
  destruct (importFlow JSON_parse "<a document with two nodes>" 7)
    as [[ex|[ns sid]] c'] eqn:Hrun; [vm_compute in Hrun; discriminate Hrun|].
  exists ns, sid, c'. split; [reflexivity|].
  pose proof (import_draws_fresh_edge_ids JSON_parse _ 7 ns sid c' Hrun) as Hfresh.
  vm_compute in Hrun. injection Hrun as <- <- <-.
  split; [reflexivity|exact Hfresh].
Defined.

Lemma import_export_run
    (JSON_parse : string → option json) (JSON_stringify : ExportedFlow.t → string)
    (nodes : list FlowNode.t) (startNodeId : option string) (w : App.World) :
  Forall (λ n, FlowNode.id n ≠ "") nodes →
  JSON_parse (JSON_stringify (buildExportedFlow nodes startNodeId))
  = Some (json_of_flow (buildExportedFlow nodes startNodeId)) →
  ∃ c' nodes',
    App.handleImport JSON_parse (JSON_stringify (buildExportedFlow nodes startNodeId)) w
    = App.Returned
        (App.mk c'
           (FlowState.mk nodes'
              (match startNodeId with
               | Some s => Some s
               | None => FlowNode.id <$> head nodes
               end))
           None None)
    ∧ node_content <$> nodes' = node_content <$> nodes.
Proof.
  intros Hids Hparse.
  destruct (importNodes_exported nodes 0 (App._counter w) Hids)
    as (ims & ns' & c' & Hruns & Htypeds & Hcontents).
  assert (FlowNode.id <$> ns' = FlowNode.id <$> nodes) as Hsame.
  { apply (f_equal (fmap (λ nc : string * string * string * _, nc.1.1.1))) in Hcontents.
    by rewrite <-!list_fmap_compose in Hcontents. }
  assert (importFlow JSON_parse (JSON_stringify (buildExportedFlow nodes startNodeId))
            (App._counter w)
          = (inr (ims,
                  nullish_or
                    (coalesce (Some (from_option JString JNull startNodeId))
                       (ImportedNode.id <$> head ims))
                    JNull),
             c')) as Hrun.
  { exact (importFlow_run JSON_parse _ (App._counter w) _ _ ims c' Hparse eq_refl Hruns). }
  assert (typed_start
            (nullish_or
               (coalesce (Some (from_option JString JNull startNodeId))
                  (ImportedNode.id <$> head ims))
               JNull)
          = Some (match startNodeId with
                  | Some s => Some s
                  | None => FlowNode.id <$> head nodes
                  end)) as Hstart.
  { destruct startNodeId as [s|]; [done|]. cbn [from_option coalesce].
    destruct ims as [|im ims].
    - cbn in Htypeds. injection Htypeds as <-. destruct nodes; [done|discriminate Hsame].
    - cbn in Htypeds. destruct (typed_node im) as [n'|] eqn:Him; [|done].
      cbn in Htypeds. destruct (mapM typed_node ims); [|done]. injection Htypeds as <-.
      destruct nodes as [|n nodes]; [discriminate Hsame|]. injection Hsame as Hid _.
      unfold typed_node in Him. cbn [head fmap option_fmap option_map].
      destruct (ImportedNode.id im) as [| | |s| |]; try done. cbn in Him.
      destruct (as_string (ImportedNode.description im)); [|done]. cbn in Him.
      destruct (as_string (ImportedNode.prompt im)); [|done]. cbn in Him.
      destruct (mapM typed_edge (ImportedNode.edges im)); [|done].
      injection Him as <-. cbn in Hid. cbn. by rewrite Hid. }
  exists c', ns'. split; [|done].
  unfold App.handleImport. rewrite Hrun. unfold typed_flow. cbn [fst snd].
  rewrite Htypeds. cbn [mbind option_bind]. rewrite Hstart. reflexivity.
Qed.

(** X20. Importing the text of an export (for a graph whose node ids are all
    non-empty) keeps a start pointer that is set, and replaces one that is
    [null] by the id of the first node, if there is a node; the node ids come
    back as they were and both selections are cleared. *)
Theorem import_export_start
    (JSON_parse : string → option json) (JSON_stringify : ExportedFlow.t → string)
    (nodes : list FlowNode.t) (startNodeId : option string) (w : App.World) :
  Forall (λ n, FlowNode.id n ≠ "") nodes →
  JSON_parse (JSON_stringify (buildExportedFlow nodes startNodeId))
  = Some (json_of_flow (buildExportedFlow nodes startNodeId)) →
  ∃ c' nodes',
    App.handleImport JSON_parse (JSON_stringify (buildExportedFlow nodes startNodeId)) w
    = App.Returned
        (App.mk c'
           (FlowState.mk nodes'
              (match startNodeId with
               | Some s => Some s
               | None => FlowNode.id <$> head nodes
               end))
           None None)
    ∧ FlowNode.id <$> nodes' = FlowNode.id <$> nodes.
Proof.
  intros Hids Hparse.
  destruct (import_export_run JSON_parse JSON_stringify nodes startNodeId w Hids Hparse)
    as (c' & nodes' & Hrun & Hcontents).
  exists c', nodes'. split; [exact Hrun|].
  apply (f_equal (fmap (λ nc : string * string * string * _, nc.1.1.1))) in Hcontents.
  by rewrite <-!list_fmap_compose in Hcontents.
Qed.

Lemma import_export_start_witness :
  let nodes :=
    [FlowNode.mk "welcome" "Entry point of the flow" "Greet the user."
       [FlowEdge.mk "edge_2" "billing" "asks about an invoice" ∅] 100 180;
     FlowNode.mk "billing" "Billing questions" "" [] 360 180] in
  let doc := buildExportedFlow nodes None in
  let JSON_stringify := λ _ : ExportedFlow.t, "<the text of the export>" in
  let JSON_parse := λ _ : string, Some (json_of_flow doc) in
  let w := App.mk 2 (FlowState.mk nodes None) (Some "billing") None in
  (Forall (λ n, FlowNode.id n ≠ "") nodes
   ∧ JSON_parse (JSON_stringify doc) = Some (json_of_flow doc))
  ∧ ∃ c' nodes',
      App.handleImport JSON_parse (JSON_stringify doc) w
      = App.Returned (App.mk c' (FlowState.mk nodes' (Some "welcome")) None None)
      ∧ FlowNode.id <$> nodes' = FlowNode.id <$> nodes.
Proof.
  intros nodes doc JSON_stringify JSON_parse w.
  assert (Forall (λ n, FlowNode.id n ≠ "") nodes) as Hids by (repeat constructor; done).
  split; [by split|].
  apply (import_export_start JSON_parse JSON_stringify nodes None w Hids eq_refl).
Defined.

End CodecFacts.

(** ** Zoom buttons and zoom keys *)

Module ZoomLaws.
Import ZoomFacts.
Local Open Scope Z_scope.

Lemma SF_zoom_key : Prim2SF 1.15 = S754_finite false 5179139571476070 (-52).
Proof. vm_compute. reflexivity. Qed.

Lemma shr_m_of_loc m l : shr_m (shr_record_of_loc m l) = m.
Proof. destruct l as [|[| |]]; reflexivity. Qed.

(** Rounding a mantissa of at least 53 bits that comes with a location. *)
Lemma round_aux_any (P : positive) (ex : Z) (l : location) :
  53 <= Zpos (digits2_pos P) ->
  -1074 <= ex + (Zpos (digits2_pos P) - 53) ->
  ex + (Zpos (digits2_pos P) - 53) + 1 <= 971 ->
  exists m3 e3,
    binary_round_aux prec emax false (Zpos P) ex l = S754_finite false m3 e3
    /\ 2 ^ 52 <= Zpos m3 < 2 ^ 53
    /\ ((e3 = ex + (Zpos (digits2_pos P) - 53)
         /\ Zpos P / 2 ^ (Zpos (digits2_pos P) - 53) <= Zpos m3
            <= Zpos P / 2 ^ (Zpos (digits2_pos P) - 53) + 1)
        \/ (e3 = ex + (Zpos (digits2_pos P) - 53) + 1 /\ Zpos m3 = 2 ^ 52
            /\ Zpos P / 2 ^ (Zpos (digits2_pos P) - 53) = 2 ^ 53 - 1)).
Proof.
  pose proof (digits2_range P) as HP.
  set (d := Zpos (digits2_pos P)) in *. intros Hd Hlo Hhi.
  set (q := d - 53) in *.
  assert (0 <= q) as Hq by (unfold q; lia).
  assert (0 < 2 ^ q) as Hpow by (apply Z.pow_pos_nonneg; lia).
  assert (2 ^ (d - 1) = 2 ^ 52 * 2 ^ q) as Hlow.
  { rewrite <-Z.pow_add_r by lia. f_equal. unfold q. lia. }
  assert (2 ^ d = 2 ^ 53 * 2 ^ q) as Hupp.
  { rewrite <-Z.pow_add_r by lia. f_equal. unfold q. lia. }
  unfold binary_round_aux.
  assert (exists mrs,
            shr_fexp prec emax (Zpos P) ex l = (mrs, ex + q)
            /\ shr_m mrs = Zpos P / 2 ^ q) as (mrs & -> & Hm1).
  { unfold shr_fexp. cbn [Zdigits2]. fold d.
    rewrite fexp_normal by (unfold q in *; lia).
    replace (d + ex - 53 - ex) with q by (unfold q; lia).
    destruct q as [|q'|q'] eqn:Hq'; [| |lia].
    - exists (shr_record_of_loc (Zpos P) l). cbn [shr]. rewrite Z.add_0_r.
      split; [reflexivity|]. rewrite shr_m_of_loc, Z.pow_0_r, Z.div_1_r. reflexivity.
    - eexists. cbn [shr]. split; [reflexivity|].
      destruct (iter_shr_1_m q' (shr_record_of_loc (Zpos P) l)) as [Hm _].
      { rewrite shr_m_of_loc. lia. }
      rewrite Hm, shr_m_of_loc. reflexivity. }
  assert (2 ^ 52 <= shr_m mrs < 2 ^ 53) as Hm1range.
  { rewrite Hm1. split.
    - apply Z.div_le_lower_bound; lia.
    - apply Z.div_lt_upper_bound; lia. }
  pose proof (round_nearest_even_range (shr_m mrs) (loc_of_shr_record mrs)) as Hm2.
  set (m2 := round_nearest_even (shr_m mrs) (loc_of_shr_record mrs)) in *.
  destruct m2 as [|p2|p2] eqn:Hp2; try lia.
  destruct (Z.eq_dec (Zpos p2) (2 ^ 53)) as [Hcarry|Hnocarry].
  - exists (4503599627370496%positive), (ex + q + 1).
    split; [|split; [split; [discriminate|reflexivity]|right; rewrite <-Hm1; lia]].
    change (2 ^ 53) with 9007199254740992 in Hcarry. injection Hcarry as ->.
    unfold shr_fexp. cbn [Zdigits2 shr_record_of_loc].
    change (Zpos (digits2_pos 9007199254740992)) with 54.
    rewrite fexp_normal by lia.
    replace (54 + (ex + q) - 53 - (ex + q)) with 1 by lia.
    cbn [shr SpecFloat.iter_pos shr_1 shr_m].
    replace (ex + q + 1 <=? emax - prec) with true; [reflexivity|].
    symmetry. apply Z.leb_le. unfold emax, prec. lia.
  - exists p2, (ex + q).
    split; [|split; [lia|left; rewrite <-Hm1; lia]].
    unfold shr_fexp. cbn [Zdigits2 shr_record_of_loc].
    rewrite (digits2_of_range p2 52) by lia.
    rewrite fexp_normal by lia.
    replace (52 + 1 + (ex + q) - 53 - (ex + q)) with 0 by lia.
    cbn [shr shr_m].
    replace (ex + q <=? emax - prec) with true; [reflexivity|].
    symmetry. apply Z.leb_le. unfold emax, prec. lia.
Qed.

(** The quotient by a normal positive constant, rounded. *)
Lemma div_normal_SF (m M : positive) (e E : Z) :
  2 ^ 52 <= Zpos m < 2 ^ 53 -> 2 ^ 52 <= Zpos M < 2 ^ 53 ->
  -200 <= e - E <= 200 ->
  exists m3 e3 d,
    SF64div (S754_finite false m e) (S754_finite false M E) = S754_finite false m3 e3
    /\ (d = 0 \/ d = 1)
    /\ 2 ^ (52 + d) <= Zpos m * 2 ^ 53 / Zpos M < 2 ^ (53 + d)
    /\ 2 ^ 52 <= Zpos m3 < 2 ^ 53
    /\ ((e3 = e - E - 53 + d
         /\ Zpos m * 2 ^ 53 / Zpos M / 2 ^ d <= Zpos m3
            <= Zpos m * 2 ^ 53 / Zpos M / 2 ^ d + 1)
        \/ (e3 = e - E - 53 + d + 1 /\ Zpos m3 = 2 ^ 52
            /\ Zpos m * 2 ^ 53 / Zpos M / 2 ^ d = 2 ^ 53 - 1)).
Proof.
  intros Hm HM He.
  unfold SF64div, SFdiv, SFdiv_core_binary. cbn [xorb Zdigits2].
  rewrite (digits2_of_range m 52), (digits2_of_range M 52) by lia.
  rewrite fexp_normal by lia.
  replace (Z.min (52 + 1 + e - (52 + 1 + E) - 53) (e - E)) with (e - E - 53) by lia.
  replace (e - E - (e - E - 53)) with 53 by lia. cbn beta iota.
  rewrite Z.shiftl_mul_pow2 by lia.
  set (q := Zpos m * 2 ^ 53 / Zpos M).
  assert (2 ^ 52 <= q < 2 ^ 54) as Hq.
  { unfold q. change (2 ^ 52) with 4503599627370496 in *.
    change (2 ^ 53) with 9007199254740992 in *. change (2 ^ 54) with 18014398509481984.
    split.
    - apply Z.div_le_lower_bound; lia.
    - apply Z.div_lt_upper_bound; lia. }
  assert (Z.div_eucl (Zpos m * 2 ^ 53) (Zpos M) = (q, (Zpos m * 2 ^ 53) mod Zpos M)) as ->.
  { unfold q, Z.div, Z.modulo. by destruct (Z.div_eucl _ _). }
  cbn beta iota.
  destruct q as [|Q|Q] eqn:HQ; try lia.
  destruct (Z_lt_le_dec (Zpos Q) (2 ^ 53)) as [Hsmall|Hbig].
  - pose proof (digits2_of_range Q 52 ltac:(lia) ltac:(lia)) as HdQ.
    destruct (round_aux_any Q (e - E - 53) (new_location (Zpos M) ((Zpos m * 2 ^ 53) mod Zpos M)))
      as (m3 & e3 & Hround & Hm3 & Hcases); rewrite ?HdQ; try lia.
    exists m3, e3, 0. rewrite HdQ in Hcases.
    replace (52 + 1 - 53) with 0 in Hcases by lia.
    rewrite Z.pow_0_r, Z.div_1_r in *.
    split; [exact Hround|]. split; [by left|]. split; [lia|]. split; [exact Hm3|].
    destruct Hcases as [[-> Hc]|[-> Hc]]; [left|right]; (split; [lia|assumption]).
  - pose proof (digits2_of_range Q 53 ltac:(lia) ltac:(lia)) as HdQ.
    destruct (round_aux_any Q (e - E - 53) (new_location (Zpos M) ((Zpos m * 2 ^ 53) mod Zpos M)))
      as (m3 & e3 & Hround & Hm3 & Hcases); rewrite ?HdQ; try lia.
    exists m3, e3, 1. rewrite HdQ in Hcases.
    replace (53 + 1 - 53) with 1 in Hcases by lia.
    split; [exact Hround|]. split; [by right|]. split; [lia|]. split; [exact Hm3|].
    destruct Hcases as [[-> Hc]|[-> Hc]]; [left|right]; (split; [lia|assumption]).
Qed.

(** The zoom-in step of the buttons and keys does not fall below the least
    zoom. *)
Lemma zoom_in_key_above_min (z : float) :
  (0.25 <=? z)%float = true -> (z <=? 2.5)%float = true ->
  (0.25 <=? z * 1.15)%float = true.
Proof.
  intros Hlo Hhi.
  destruct (zoom_range_SF z Hlo Hhi) as (m & e & Hz & He & Hm & _).
  rewrite FloatAxioms.leb_spec, FloatAxioms.mul_spec, SF_quarter, SF_zoom_key, Hz.
  destruct (mul_normal_SF m 5179139571476070 e (-52))
    as (m3 & e3 & d & -> & Hd & _ & Hm3 & Hcases); [exact Hm|lia|lia|].
  apply SFleb_finite. change (Z.pos 4503599627370496) with (2 ^ 52).
  destruct Hcases as [[-> _]|[-> _]]; lia.
Qed.

(** The zoom-out step of the buttons and keys does not rise above the
    greatest zoom. *)
Lemma zoom_out_key_below_max (z : float) :
  (0.25 <=? z)%float = true -> (z <=? 2.5)%float = true ->
  (z / 1.15 <=? 2.5)%float = true.
Proof.
  intros Hlo Hhi.
  destruct (zoom_range_SF z Hlo Hhi) as (m & e & Hz & He & Hm & Htop).
  rewrite FloatAxioms.leb_spec, FloatAxioms.div_spec, SF_max_zoom, SF_zoom_key, Hz.
  destruct (div_normal_SF m 5179139571476070 e (-52))
    as (m3 & e3 & d & -> & Hd & Hq & Hm3 & Hcases); [exact Hm|lia|lia|].
  apply SFleb_finite.
  assert (Zpos m * 2 ^ 53 / 5179139571476070 / 2 ^ 1 <= 7832347652818951) as Hall.
  { transitivity (9007199254740991 * 2 ^ 53 / 5179139571476070 / 2 ^ 1).
    - apply Z.div_le_mono; [lia|]. apply Z.div_le_mono; [lia|].
      change (2 ^ 53) with 9007199254740992 in *. lia.
    - vm_compute. discriminate. }
  assert (e = -51 ->
          Zpos m * 2 ^ 53 / 5179139571476070 / 2 ^ 1 <= 4895217283011845) as Htopq.
  { intros He'. specialize (Htop He').
    transitivity (5629499534213120 * 2 ^ 53 / 5179139571476070 / 2 ^ 1).
    - apply Z.div_le_mono; [lia|]. apply Z.div_le_mono; [lia|].
      change (2 ^ 53) with 9007199254740992. lia.
    - vm_compute. discriminate. }
  change (2 ^ 52) with 4503599627370496 in *.
  change (2 ^ 53) with 9007199254740992 in *.
  destruct Hcases as [[-> Hc]|[-> [Hc Hcarry]]]; destruct Hd as [-> | ->];
    destruct (Z.eq_dec e (-51)) as [He'|He']; try specialize (Htopq He'); lia.
Qed.

Lemma view_step_in_range (st : Canvas.State) (ev : ViewEvent) :
  zoom_in_range st -> zoom_in_range (view_step st ev).
Proof.
  intros [Hlo Hhi]. unfold zoom_in_range.
  destruct ev as [deltaY| | | |p]; cbn [view_step].
  - unfold Canvas.handleWheel. cbn [Canvas.zoom].
    destruct (0 <? deltaY)%float.
    + apply Math_min_range. apply Math_max_range. by apply zoom_out_below_max.
    + rewrite Math_max_above by by apply zoom_in_above_min.
      apply Math_min_range. by apply zoom_in_above_min.
  - cbn. apply Math_min_range. by apply zoom_in_key_above_min.
  - cbn. apply Math_max_range. by apply zoom_out_key_below_max.
  - split; reflexivity.
  - done.
Qed.

(** X21. The zoom never leaves the range from 0.25 to 2.5: it is in the range
    at the start, and from a zoom in the range every wheel tick, zoom button,
    zoom key, view reset and pan leaves it in the range, in binary64
    arithmetic; so it is in the range after any sequence of them. The zoom
    buttons and keys and the wheel leave the pan as it is. *)
Theorem zoom_stays_in_range :
  (forall evs : list ViewEvent, zoom_in_range (foldl view_step Viewport.initial evs))
  /\ (forall (st : Canvas.State) (evs : list ViewEvent),
        zoom_in_range st -> zoom_in_range (foldl view_step st evs))
  /\ (forall (e : Handlers.KeyboardEvent) (inInput : bool) (w : App.World)
             (st : Canvas.State),
        zoom_in_range st ->
        zoom_in_range (Handlers.onKeyDown e inInput (w, st)).2
        /\ Canvas.pan (Handlers.onKeyDown e inInput (w, st)).2 = Canvas.pan st)
  /\ (forall (st : Canvas.State) (ev : ViewEvent),
        (forall p, ev <> SetPan p) -> ev <> ResetView ->
        Canvas.pan (view_step st ev) = Canvas.pan st).
Proof.
  assert (forall (evs : list ViewEvent) (st : Canvas.State),
            zoom_in_range st -> zoom_in_range (foldl view_step st evs)) as Hseq.
  { induction evs as [|ev evs IH]; intros st Hst; [exact Hst|].
    cbn [foldl]. apply IH. by apply view_step_in_range. }
  split; [|split; [|split]].
  - intros evs. apply Hseq. split; reflexivity.
  - intros st evs. apply Hseq.
  - intros e inInput w st Hst. unfold Handlers.onKeyDown. cbn [fst snd].
    destruct ((Handlers.metaKey e || Handlers.ctrlKey e) && bool_decide (Handlers.key e = "="));
      destruct ((Handlers.metaKey e || Handlers.ctrlKey e) && bool_decide (Handlers.key e = "-"));
      (split; [|reflexivity]).
    + apply (view_step_in_range _ ZoomOut). by apply (view_step_in_range _ ZoomIn).
    + by apply (view_step_in_range _ ZoomIn).
    + by apply (view_step_in_range _ ZoomOut).
    + exact Hst.
  - intros st ev Hpan Hreset. destruct ev as [deltaY| | | |p]; try reflexivity.
    + by destruct Hreset.
    + by destruct (Hpan p).
Qed.

End ZoomLaws.

(** ** Validation across edits and across a round trip *)

Module ValidityLaws.
Import FlowState ValidationError ListFacts StoreFacts StoreLaws ValidateFacts.
Import StringFacts ValidityFacts CodecFacts.

Lemma validateFlow_nil nodes startNodeId :
  validateFlow nodes startNodeId = []
  ↔ structurally_valid nodes startNodeId ∧ all_reachable nodes startNodeId.
Proof.
  rewrite validateFlow_structure, app_assoc. split.
  - intros H. apply app_eq_nil in H as [Herr Hreach].
    apply no_errors_structurally_valid in Herr. split; [done|].
    destruct Herr as ((s & -> & Hs & Hin) & _). exists s. split; [done|].
    by apply reachability_issues_nil.
  - intros [Hvalid (s & Hstart & Hreach)].
    rewrite (proj2 (no_errors_structurally_valid _ _) Hvalid). cbn [app].
    destruct Hvalid as ((s' & Hs' & Hne & Hin) & _).
    assert (s' = s) as -> by congruence. rewrite Hs'. by apply reachability_issues_nil.
Qed.

Lemma find_node_cons n l cur :
  find_node (n :: l) cur
  = if decide (FlowNode.id n = cur) then Some n else find_node l cur.
Proof.
  unfold find_node. cbn [list_find]. case_decide; [done|].
  by destruct (list_find _ l) as [[i x]|].
Qed.

Lemma find_node_fmap (f : FlowNode.t → FlowNode.t) l cur :
  (∀ n, FlowNode.id (f n) = FlowNode.id n) →
  find_node (f <$> l) cur = f <$> find_node l cur.
Proof.
  intros Hf. induction l as [|n l IH]; [done|].
  rewrite fmap_cons, !find_node_cons, Hf. by case_decide.
Qed.

(** Reachability carries over to a graph that resolves every id to a node
    with at least the same edge targets. *)
Lemma Reach_sim nodes1 nodes2 s :
  (∀ cur n e, find_node nodes1 cur = Some n → e ∈ FlowNode.edges n →
     ∃ n' e', find_node nodes2 cur = Some n' ∧ e' ∈ FlowNode.edges n'
              ∧ FlowEdge.toNodeId e' = FlowEdge.toNodeId e) →
  ∀ x, Reach nodes1 s x → Reach nodes2 s x.
Proof.
  intros Hsim x Hx. induction Hx as [|cur n e _ IH Hfind He]; [constructor|].
  destruct (Hsim cur n e Hfind He) as (n' & e' & Hfind' & He' & <-).
  by eapply Reach_edge.
Qed.

Lemma fmap_eq_Forall2 {A B} (f : A → B) (l1 l2 : list A) :
  f <$> l1 = f <$> l2 → Forall2 (λ a b, f a = f b) l1 l2.
Proof.
  revert l2. induction l1 as [|a l1 IH]; intros [|b l2] H; try discriminate H.
  - constructor.
  - injection H as Hab Hl. constructor; [done|by apply IH].
Qed.

Lemma Forall2_elem_r {A B} (P : A → B → Prop) l k y :
  Forall2 P l k → y ∈ k → ∃ x, x ∈ l ∧ P x y.
Proof.
  intros HP Hy. apply list_elem_of_lookup in Hy as [i Hi].
  destruct (Forall2_lookup_r _ _ _ _ _ HP Hi) as (x & Hx & Hxy).
  exists x. split; [by eapply list_elem_of_lookup_2|done].
Qed.

Lemma Forall2_elem_l {A B} (P : A → B → Prop) l k x :
  Forall2 P l k → x ∈ l → ∃ y, y ∈ k ∧ P x y.
Proof.
  intros HP Hx. apply list_elem_of_lookup in Hx as [i Hi].
  destruct (Forall2_lookup_l _ _ _ _ _ HP Hi) as (y & Hy & Hxy).
  exists y. split; [by eapply list_elem_of_lookup_2|done].
Qed.

Lemma content_ids (nodes1 nodes2 : list FlowNode.t) :
  node_content <$> nodes1 = node_content <$> nodes2 →
  FlowNode.id <$> nodes1 = FlowNode.id <$> nodes2.
Proof.
  intros H. apply (f_equal (fmap (λ nc : string * string * string * _, nc.1.1.1))) in H.
  by rewrite <-!list_fmap_compose in H.
Qed.

Lemma find_node_content nodes1 nodes2 cur n :
  Forall2 (λ a b, node_content a = node_content b) nodes1 nodes2 →
  find_node nodes1 cur = Some n →
  ∃ n', find_node nodes2 cur = Some n' ∧ node_content n = node_content n'.
Proof.
  induction 1 as [|a b l1 l2 Hab _ IH]; [done|]. rewrite !find_node_cons.
  assert (FlowNode.id a = FlowNode.id b) as <- by (by injection Hab).
  case_decide; [|exact IH]. intros [= <-]. eauto.
Qed.

Lemma structurally_valid_content (nodes1 nodes2 : list FlowNode.t) s :
  node_content <$> nodes1 = node_content <$> nodes2 →
  structurally_valid nodes1 s → structurally_valid nodes2 s.
Proof.
  intros Hc (Hstart & Hnodup & Hall). pose proof (content_ids _ _ Hc) as Hids.
  unfold structurally_valid. rewrite <-Hids. split_and!; [done|done|].
  apply fmap_eq_Forall2 in Hc. rewrite Forall_forall in Hall.
  apply Forall_forall. intros b Hb.
  destruct (Forall2_elem_r _ _ _ _ Hc Hb) as (a & Ha & Hab).
  destruct (Hall a Ha) as (Hid & Hdesc & Hedges).
  injection Hab as Hi Hd _ He. rewrite <-Hi, <-Hd. split_and!; [done|done|].
  apply fmap_eq_Forall2 in He. rewrite Forall_forall in Hedges.
  apply Forall_forall. intros e' He'.
  destruct (Forall2_elem_r _ _ _ _ He He') as (e & Hin & Hee).
  destruct (Hedges e Hin) as [Hto Hcond]. injection Hee as Ht Hcnd _.
  by rewrite <-Ht, <-Hcnd.
Qed.

Lemma all_reachable_content (nodes1 nodes2 : list FlowNode.t) s :
  node_content <$> nodes1 = node_content <$> nodes2 →
  all_reachable nodes1 s → all_reachable nodes2 s.
Proof.
  intros Hc (start & -> & Hreach). exists start. split; [done|].
  pose proof (fmap_eq_Forall2 _ _ _ Hc) as Hc2.
  intros b Hb. destruct (Forall2_elem_r _ _ _ _ Hc2 Hb) as (a & Ha & Hab).
  assert (FlowNode.id b = FlowNode.id a) as -> by (by injection Hab).
  apply (Reach_sim nodes1 nodes2); [|by apply Hreach].
  intros cur n e Hfind He.
  destruct (find_node_content _ _ _ _ Hc2 Hfind) as (n' & Hfind' & Hnn').
  assert (edge_content <$> FlowNode.edges n = edge_content <$> FlowNode.edges n') as Hes
    by (by injection Hnn').
  apply fmap_eq_Forall2 in Hes.
  destruct (Forall2_elem_l _ _ _ _ Hes He) as (e' & He' & Hee').
  exists n', e'. split_and!; [done|done|]. by injection Hee'.
Qed.

(** X22. A graph for which validation reports nothing comes back from an
    export and import with the same start pointer, and validation reports
    nothing for the imported graph either. *)
Theorem valid_graph_survives_round_trip
    (JSON_parse : string → option json) (JSON_stringify : ExportedFlow.t → string)
    (nodes : list FlowNode.t) (startNodeId : option string) (w : App.World) :
  validateFlow nodes startNodeId = [] →
  JSON_parse (JSON_stringify (buildExportedFlow nodes startNodeId))
  = Some (json_of_flow (buildExportedFlow nodes startNodeId)) →
  ∃ c' nodes',
    App.handleImport JSON_parse (JSON_stringify (buildExportedFlow nodes startNodeId)) w
    = App.Returned (App.mk c' (FlowState.mk nodes' startNodeId) None None)
    ∧ validateFlow nodes' startNodeId = [].
Proof.
  intros Hvalid Hparse. apply validateFlow_nil in Hvalid as [Hs Hr].
  assert (Forall (λ n, FlowNode.id n ≠ "") nodes) as Hids.
  { destruct Hs as (_ & _ & Hall). eapply Forall_impl; [exact Hall|].
    intros n (Hid & _). by apply blank_false_nonempty. }
  destruct (import_export_run JSON_parse JSON_stringify nodes startNodeId w Hids Hparse)
    as (c' & nodes' & Hrun & Hc).
  exists c', nodes'. split.
  - rewrite Hrun. destruct Hs as ((s & -> & _) & _). done.
  - apply validateFlow_nil. split.
    + by apply (structurally_valid_content nodes).
    + by apply (all_reachable_content nodes).
Qed.

Lemma valid_graph_survives_round_trip_witness :
  let nodes :=
    [FlowNode.mk "welcome" "Entry point of the flow" "Greet the user."
       [FlowEdge.mk "edge_2" "billing" "asks about an invoice" {[ "team" := "finance" ]}]
       100 180;
     FlowNode.mk "billing" "Billing questions" ""
       [FlowEdge.mk "edge_3" "welcome" "default" ∅] 360 180] in
  let doc := buildExportedFlow nodes (Some "welcome") in
  let JSON_stringify := λ _ : ExportedFlow.t, "<the text of the export>" in
  let JSON_parse := λ _ : string, Some (json_of_flow doc) in
  let w := App.mk 3 (FlowState.mk nodes (Some "welcome")) None None in
  (validateFlow nodes (Some "welcome") = []
   ∧ JSON_parse (JSON_stringify doc) = Some (json_of_flow doc))
  ∧ ∃ c' nodes',
      App.handleImport JSON_parse (JSON_stringify doc) w
      = App.Returned (App.mk c' (FlowState.mk nodes' (Some "welcome")) None None)
      ∧ validateFlow nodes' (Some "welcome") = [].
Proof.
  intros nodes doc JSON_stringify JSON_parse w.
  assert (validateFlow nodes (Some "welcome") = []) as Hvalid by (vm_compute; reflexivity).
  split; [by split|].
  apply (valid_graph_survives_round_trip JSON_parse JSON_stringify nodes (Some "welcome") w
           Hvalid eq_refl).
Defined.

(** *** What validation reads of a graph *)

Lemma same_ids (nodes1 nodes2 : list FlowNode.t) :
  Forall2 (λ a b, FlowNode.id a = FlowNode.id b
                  ∧ FlowNode.description a = FlowNode.description b
                  ∧ FlowNode.edges a = FlowNode.edges b) nodes1 nodes2 →
  FlowNode.id <$> nodes1 = FlowNode.id <$> nodes2.
Proof.
  induction 1 as [|a b l1 l2 (Hid & _) _ IH]; [done|]. cbn. by rewrite Hid, IH.
Qed.

Lemma same_node_issues nodes1 nodes2 seen a b :
  FlowNode.id <$> nodes1 = FlowNode.id <$> nodes2 →
  FlowNode.id a = FlowNode.id b →
  FlowNode.description a = FlowNode.description b →
  FlowNode.edges a = FlowNode.edges b →
  node_issues nodes1 seen a = node_issues nodes2 seen b.
Proof.
  intros Hids Hid Hdesc Hedges. unfold node_issues.
  rewrite !edge_part_concat, Hid, Hdesc, Hedges. do 2 f_equal. cbn [app]. f_equal.
  apply list_fmap_ext. intros _ e _. unfold edge_issues. by rewrite Hids, Hid.
Qed.

Lemma same_rounds nodes1 nodes2 l1 l2 seen :
  FlowNode.id <$> nodes1 = FlowNode.id <$> nodes2 →
  Forall2 (λ a b, FlowNode.id a = FlowNode.id b
                  ∧ FlowNode.description a = FlowNode.description b
                  ∧ FlowNode.edges a = FlowNode.edges b) l1 l2 →
  rounds nodes1 seen l1 = rounds nodes2 seen l2.
Proof.
  intros Hids Hl. revert seen.
  induction Hl as [|a b l1 l2 (Hid & Hdesc & Hedges) _ IH]; intros seen; [done|].
  cbn [rounds]. rewrite (same_node_issues nodes1 nodes2 seen a b) by done.
  by rewrite Hid, IH.
Qed.

Lemma same_edges_found nodes1 nodes2 cur :
  Forall2 (λ a b, FlowNode.id a = FlowNode.id b
                  ∧ FlowNode.description a = FlowNode.description b
                  ∧ FlowNode.edges a = FlowNode.edges b) nodes1 nodes2 →
  from_option FlowNode.edges [] (find_node nodes1 cur)
  = from_option FlowNode.edges [] (find_node nodes2 cur).
Proof.
  induction 1 as [|a b l1 l2 (Hid & _ & Hedges) _ IH]; [done|].
  rewrite !find_node_cons, <-Hid. by case_decide.
Qed.

Lemma same_traverse nodes1 nodes2 fuel queue reachable :
  Forall2 (λ a b, FlowNode.id a = FlowNode.id b
                  ∧ FlowNode.description a = FlowNode.description b
                  ∧ FlowNode.edges a = FlowNode.edges b) nodes1 nodes2 →
  traverse fuel nodes1 queue reachable = traverse fuel nodes2 queue reachable.
Proof.
  intros Hsame. revert queue reachable.
  induction fuel as [|fuel IH]; intros [|cur queue] reachable; cbn [traverse]; try done.
  case_decide; [apply IH|]. rewrite (same_edges_found nodes1 nodes2 cur Hsame). apply IH.
Qed.

Lemma same_reachability_issues nodes1 nodes2 startNodeId :
  Forall2 (λ a b, FlowNode.id a = FlowNode.id b
                  ∧ FlowNode.description a = FlowNode.description b
                  ∧ FlowNode.edges a = FlowNode.edges b) nodes1 nodes2 →
  reachability_issues nodes1 startNodeId = reachability_issues nodes2 startNodeId.
Proof.
  intros Hsame. pose proof (same_ids _ _ Hsame) as Hids.
  unfold reachability_issues. rewrite Hids.
  destruct startNodeId as [start|]; [|done]. destruct (_ && _); [|done].
  assert (traverse_fuel nodes1 = traverse_fuel nodes2) as ->.
  { unfold traverse_fuel. f_equal. f_equal. clear Hids.
    induction Hsame as [|a b l1 l2 (_ & _ & Hedges) _ IH]; [done|].
    cbn. by rewrite Hedges, IH. }
  rewrite (same_traverse nodes1 nodes2) by done.
  destruct (traverse _ _ _ _) as [R|]; [|done]. rewrite !warnings_fold. cbn [app].
  clear Hids. induction Hsame as [|a b l1 l2 (Hid & _) _ IH]; [done|].
  destruct (decide (FlowNode.id a ∈ R)) as [Hin|Hnot].
  - rewrite !filter_cons_False; [exact IH| |]; intros Hn; apply Hn; congruence.
  - rewrite !filter_cons_True by congruence. cbn. by rewrite Hid, IH.
Qed.

Lemma same_validateFlow nodes1 nodes2 startNodeId :
  Forall2 (λ a b, FlowNode.id a = FlowNode.id b
                  ∧ FlowNode.description a = FlowNode.description b
                  ∧ FlowNode.edges a = FlowNode.edges b) nodes1 nodes2 →
  validateFlow nodes1 startNodeId = validateFlow nodes2 startNodeId.
Proof.
  intros Hsame. pose proof (same_ids _ _ Hsame) as Hids.
  rewrite !validateFlow_structure, !node_chunks_rounds.
  rewrite (same_rounds nodes1 nodes2 nodes1 nodes2) by done.
  rewrite (same_reachability_issues nodes1 nodes2) by done.
  f_equal. unfold global_issues. by rewrite Hids.
Qed.

(** X23. Validation reads only the ids, the descriptions and the edges of the
    nodes: two graphs that agree on these, node by node, get the same issues
    in the same order. So [moveNode] changes neither what validation reports
    nor what is exported, and a prompt edit does not change what validation
    reports. *)
Theorem validation_ignores_position_and_prompt :
  (∀ nodes1 nodes2 startNodeId,
     Forall2 (λ a b, FlowNode.id a = FlowNode.id b
                     ∧ FlowNode.description a = FlowNode.description b
                     ∧ FlowNode.edges a = FlowNode.edges b) nodes1 nodes2 →
     validateFlow nodes1 startNodeId = validateFlow nodes2 startNodeId)
  ∧ (∀ id x y prev,
       let next := Hook.moveNode id x y prev in
       validateFlow (nodes next) (startNodeId next)
       = validateFlow (nodes prev) (startNodeId prev)
       ∧ buildExportedFlow (nodes next) (startNodeId next)
         = buildExportedFlow (nodes prev) (startNodeId prev))
  ∧ (∀ id prompt prev,
       let next := Store.updateNode id (NodePatch.mk None None (Some prompt)) prev in
       validateFlow (nodes next) (startNodeId next)
       = validateFlow (nodes prev) (startNodeId prev)).
Proof.
  split_and!.
  - apply same_validateFlow.
  - intros id x y prev next. split.
    + symmetry. apply same_validateFlow. unfold next, Hook.moveNode. cbn [nodes].
      apply Forall2_fmap_diag. intros n _. by case_decide.
    + unfold next, Hook.moveNode, buildExportedFlow. cbn [nodes startNodeId]. f_equal.
      rewrite <-list_fmap_compose. apply list_fmap_ext. intros _ n _. cbn.
      by case_decide.
  - intros id prompt prev next. symmetry. apply same_validateFlow.
    unfold next, Store.updateNode. cbn [nodes NodePatch.id].
    apply Forall2_fmap_diag. intros n _. by case_decide.
Qed.

(** *** Edits that keep a graph free of errors *)

Lemma ids_after_filter (P : string → Prop) `{!∀ s, Decision (P s)} (l : list FlowNode.t) :
  FlowNode.id <$> filter (λ n, P (FlowNode.id n)) l = filter P (FlowNode.id <$> l).
Proof.
  induction l as [|n l IH]; [done|]. cbn [fmap list_fmap].
  destruct (decide (P (FlowNode.id n))) as [HP|HP].
  - rewrite !filter_cons_True by done. cbn. by rewrite IH.
  - by rewrite !filter_cons_False.
Qed.

(** X24. [deleteNode] of a node other than the start node keeps a graph free
    of errors: if validation reported no error before (warnings aside), it
    reports none after, since the edges that pointed at the deleted id are
    gone with it. *)
Theorem deleteNode_keeps_error_free (id : string) (prev : FlowState.t) :
  startNodeId prev ≠ Some id →
  filter (λ v, type v = error) (validateFlow (nodes prev) (startNodeId prev)) = [] →
  let next := Store.deleteNode id prev in
  filter (λ v, type v = error) (validateFlow (nodes next) (startNodeId next)) = [].
Proof.
  intros Hstart Hvalid next. rewrite filter_errors_validateFlow in *.
  apply no_errors_structurally_valid in Hvalid as ((s & Hs & Hne & Hin) & Hnodup & Hall).
  apply no_errors_structurally_valid.
  assert (FlowNode.id <$> nodes next = filter (λ i, i ≠ id) (FlowNode.id <$> nodes prev))
    as Hids.
  { unfold next, Store.deleteNode. cbn [nodes]. rewrite <-list_fmap_compose.
    rewrite <-(ids_after_filter (λ i, i ≠ id)). done. }
  unfold structurally_valid. rewrite Hids. split_and!.
  - exists s. split_and!; [|done|].
    + unfold next, Store.deleteNode. cbn. rewrite decide_False by done. done.
    + apply list_elem_of_filter. split; [congruence|done].
  - by apply NoDup_filter.
  - unfold next, Store.deleteNode. cbn [nodes]. apply Forall_fmap, Forall_forall.
    intros n Hn. apply list_elem_of_filter in Hn as [_ Hn].
    rewrite Forall_forall in Hall. destruct (Hall n Hn) as (Hid & Hdesc & Hedges).
    cbn. split_and!; [done|done|]. apply Forall_forall. intros e He.
    apply list_elem_of_filter in He as [Hto He].
    rewrite Forall_forall in Hedges. destruct (Hedges e He) as [Hin' Hcond].
    split; [|done]. by apply list_elem_of_filter.
Qed.

Lemma deleteNode_keeps_error_free_witness :
  let prev :=
    FlowState.mk
      [FlowNode.mk "A" "first" "" [FlowEdge.mk "e1" "C" "next" ∅] 100 180;
       FlowNode.mk "C" "second" "" [FlowEdge.mk "e2" "A" "back" ∅] 360 180]
      (Some "A") in
  (startNodeId prev ≠ Some "C"
   ∧ filter (λ v, type v = error) (validateFlow (nodes prev) (startNodeId prev)) = [])
  ∧ filter (λ v, type v = error)
      (validateFlow (nodes (Store.deleteNode "C" prev))
         (startNodeId (Store.deleteNode "C" prev))) = [].
Proof.
  intros prev.
  assert (startNodeId prev ≠ Some "C") as Hstart by discriminate.
  assert (filter (λ v, type v = error) (validateFlow (nodes prev) (startNodeId prev)) = [])
    as Hvalid by (vm_compute; reflexivity).
  split; [by split|].
  apply (deleteNode_keeps_error_free "C" prev Hstart Hvalid).
Defined.

(** X25. Renaming a node to an id that is not blank and that no node carries
    keeps a graph free of errors, provided no node with the old id has an edge
    to the old id: if validation reported no error before, it reports none
    after. *)
Theorem rename_keeps_error_free (old new : string) (prev : FlowState.t) :
  blank new = false →
  new ∉ FlowNode.id <$> nodes prev →
  (∀ n e, n ∈ nodes prev → FlowNode.id n = old → e ∈ FlowNode.edges n →
     FlowEdge.toNodeId e ≠ old) →
  filter (λ v, type v = error) (validateFlow (nodes prev) (startNodeId prev)) = [] →
  let next := Store.updateNode old (NodePatch.mk (Some new) None None) prev in
  filter (λ v, type v = error) (validateFlow (nodes next) (startNodeId next)) = [].
Proof.
  intros Hblank Hfresh Hloops Hvalid next. rewrite filter_errors_validateFlow in *.
  apply no_errors_structurally_valid in Hvalid as ((s & Hs & Hne & Hin) & Hnodup & Hall).
  apply no_errors_structurally_valid.
  pose proof (blank_false_nonempty _ Hblank) as Hnew.
  set (r := λ i : string, if decide (i = old) then new else i).
  assert (FlowNode.id <$> nodes next = r <$> (FlowNode.id <$> nodes prev)) as Hids.
  { unfold next. rewrite updateNode_rename_nodes by done.
    rewrite <-!list_fmap_compose. apply list_fmap_ext. intros _ n _. cbn. unfold r.
    by case_decide. }
  assert (∀ i, i ∈ FlowNode.id <$> nodes prev → r i ∈ r <$> (FlowNode.id <$> nodes prev))
    as Hr.
  { intros i Hi. apply list_elem_of_fmap. eauto. }
  unfold structurally_valid. rewrite Hids. split_and!.
  - exists (r s). split_and!.
    + unfold next. rewrite updateNode_rename_start by done. rewrite Hs. unfold r.
      destruct (decide (s = old)) as [->|Hso].
      * by rewrite decide_True.
      * rewrite decide_False; [done|congruence].
    + unfold r. by case_decide.
    + by apply Hr.
  - apply NoDup_fmap_2_strong; [|done].
    intros i j Hi Hj. unfold r. repeat case_decide; intros Hij; subst; done.
  - unfold next. rewrite updateNode_rename_nodes by done.
    apply Forall_fmap, Forall_forall. intros n Hn.
    rewrite Forall_forall in Hall. destruct (Hall n Hn) as (Hid & Hdesc & Hedges).
    rewrite Forall_forall in Hedges.
    cbn. case_decide as Hno; cbn.
    + split_and!; [done|done|]. apply Forall_forall. intros e He.
      destruct (Hedges e He) as [Hto Hcond]. split; [|done].
      replace (FlowEdge.toNodeId e) with (r (FlowEdge.toNodeId e)); [by apply Hr|].
      unfold r. rewrite decide_False; [done|]. by apply (Hloops n).
    + split_and!; [done|done|]. apply Forall_fmap, Forall_forall. intros e He.
      destruct (Hedges e He) as [Hto Hcond]. cbn.
      case_decide as Heo; cbn.
      * split; [|done]. replace new with (r (FlowEdge.toNodeId e)); [by apply Hr|].
        unfold r. by rewrite decide_True.
      * split; [|done].
        replace (FlowEdge.toNodeId e) with (r (FlowEdge.toNodeId e)); [by apply Hr|].
        unfold r. by rewrite decide_False.
Qed.

Lemma rename_keeps_error_free_witness :
  let prev :=
    FlowState.mk
      [FlowNode.mk "A" "first" "" [FlowEdge.mk "e1" "C" "next" ∅] 100 180;
       FlowNode.mk "C" "second" "" [FlowEdge.mk "e2" "A" "back" ∅] 360 180]
      (Some "A") in
  let next := Store.updateNode "A" (NodePatch.mk (Some "B") None None) prev in
  (blank "B" = false
   ∧ ("B" ∉ FlowNode.id <$> nodes prev)
   ∧ (∀ n e, n ∈ nodes prev → FlowNode.id n = "A" → e ∈ FlowNode.edges n →
        FlowEdge.toNodeId e ≠ "A")
   ∧ filter (λ v, type v = error) (validateFlow (nodes prev) (startNodeId prev)) = [])
  ∧ filter (λ v, type v = error) (validateFlow (nodes next) (startNodeId next)) = [].
Proof.
  intros prev next.
  assert ("B" ∉ FlowNode.id <$> nodes prev) as Hfresh.
  { cbn. rewrite !elem_of_cons, elem_of_nil. intros [?|[?|[]]]; discriminate. }
  assert (∀ n e, n ∈ nodes prev → FlowNode.id n = "A" → e ∈ FlowNode.edges n →
            FlowEdge.toNodeId e ≠ "A") as Hloops.
  { intros n e Hn Hid He. cbn in Hn. rewrite !elem_of_cons, elem_of_nil in Hn.
    destruct Hn as [->|[->|[]]]; [|discriminate Hid].
    cbn in He. rewrite elem_of_cons, elem_of_nil in He. destruct He as [->|[]].
    discriminate. }
  assert (filter (λ v, type v = error) (validateFlow (nodes prev) (startNodeId prev)) = [])
    as Hvalid by (vm_compute; reflexivity).
  split; [by split_and!|].
  apply (rename_keeps_error_free "A" "B" prev eq_refl Hfresh Hloops Hvalid).
Defined.

Lemma append_edge_ids nodeId edge prev :
  FlowNode.id <$> nodes (Store.append_edge nodeId edge prev) = FlowNode.id <$> nodes prev.
Proof.
  unfold Store.append_edge. cbn [nodes]. rewrite <-list_fmap_compose.
  apply list_fmap_ext. intros _ n _. cbn. by case_decide.
Qed.

(** X26. [connectNodes] to the id of an existing node keeps a graph free of
    errors, and keeps a graph for which validation reports nothing that way:
    the new edge has a target that exists and the condition "default", and no
    node stops being reachable. *)
Theorem connectNodes_keeps_valid (edgeId fromId toId : string) (prev : FlowState.t) :
  toId ∈ FlowNode.id <$> nodes prev →
  let next := Store.connectNodes edgeId fromId toId prev in
  (filter (λ v, type v = error) (validateFlow (nodes prev) (startNodeId prev)) = [] →
   filter (λ v, type v = error) (validateFlow (nodes next) (startNodeId next)) = [])
  ∧ (validateFlow (nodes prev) (startNodeId prev) = [] →
     validateFlow (nodes next) (startNodeId next) = []).
Proof.
  intros Hto next.
  pose proof (append_edge_ids fromId (FlowEdge.mk edgeId toId "default" ∅) prev) as Hids.
  fold (Store.connectNodes edgeId fromId toId prev) in Hids. fold next in Hids.
  assert (structurally_valid (nodes prev) (startNodeId prev) →
          structurally_valid (nodes next) (startNodeId next)) as Hstruct.
  { intros (Hstart & Hnodup & Hall). unfold structurally_valid. rewrite Hids.
    split_and!; [done|done|].
    unfold next, Store.connectNodes, Store.append_edge. cbn [nodes].
    apply Forall_fmap. eapply Forall_impl; [exact Hall|].
    intros n (Hid & Hdesc & Hedges). cbn. case_decide; cbn; [|done].
    split_and!; [done|done|]. apply Forall_app. split; [done|].
    constructor; [|constructor]. split; [done|reflexivity]. }
  assert (all_reachable (nodes prev) (startNodeId prev) →
          all_reachable (nodes next) (startNodeId next)) as Hreach.
  { intros (s & Hs & Hall). exists s. split; [done|].
    intros n' Hn'. unfold next, Store.connectNodes, Store.append_edge in Hn'.
    cbn [nodes] in Hn'. apply list_elem_of_fmap in Hn' as (n & -> & Hn).
    replace (FlowNode.id (if decide (FlowNode.id n = fromId)
                          then Store.with_edges n _ else n))
      with (FlowNode.id n) by (by case_decide).
    apply (Reach_sim (nodes prev)); [|by apply Hall].
    intros cur m e Hfind He.
    unfold next, Store.connectNodes, Store.append_edge. cbn [nodes].
    rewrite find_node_fmap by (intros m'; by case_decide). rewrite Hfind. cbn.
    eexists _, e. split_and!; [done| |done].
    case_decide; [|done]. cbn. apply elem_of_app. by left. }
  split.
  - rewrite !filter_errors_validateFlow, !no_errors_structurally_valid. exact Hstruct.
  - rewrite !validateFlow_nil. intros [? ?]. split; [by apply Hstruct|by apply Hreach].
Qed.

Lemma connectNodes_keeps_valid_witness :
  let prev :=
    FlowState.mk
      [FlowNode.mk "A" "first" "" [FlowEdge.mk "edge_1" "C" "next" ∅] 100 180;
       FlowNode.mk "C" "second" "" [] 360 180]
      (Some "A") in
  let next := Store.connectNodes "edge_2" "C" "A" prev in
  ("A" ∈ FlowNode.id <$> nodes prev)
  ∧ validateFlow (nodes prev) (startNodeId prev) = []
  ∧ validateFlow (nodes next) (startNodeId next) = [].
Proof.
  intros prev next.
  assert ("A" ∈ FlowNode.id <$> nodes prev) as Hto by (cbn; by left).
  assert (validateFlow (nodes prev) (startNodeId prev) = []) as Hvalid
    by (vm_compute; reflexivity).
  split; [exact Hto|]. split; [exact Hvalid|].
  exact (proj2 (connectNodes_keeps_valid "edge_2" "C" "A" prev Hto) Hvalid).
Defined.

(** X27. [addEdge] on a node that exists always leaves work to do: the new
    edge has no target and no condition, and validation of the new state
    reports both "Edge has no target node." and "Edge condition is required."
    for it. *)
Theorem addEdge_is_reported (edgeId nodeId : string) (prev : FlowState.t) :
  nodeId ∈ FlowNode.id <$> nodes prev →
  let next := Store.addEdge edgeId nodeId prev in
  Issue.no_target nodeId edgeId ∈ validateFlow (nodes next) (startNodeId next)
  ∧ Issue.condition_required nodeId edgeId ∈ validateFlow (nodes next) (startNodeId next).
Proof.
  intros Hin next. apply list_elem_of_fmap in Hin as (n & Hid & Hn).
  apply list_elem_of_lookup in Hn as [i Hi].
  set (n' := Store.with_edges n (FlowNode.edges n ++ [FlowEdge.mk edgeId "" "" ∅])).
  assert (nodes next !! i = Some n') as Hi'.
  { unfold next, Store.addEdge, Store.append_edge. cbn [nodes].
    rewrite list_lookup_fmap, Hi. cbn. by rewrite decide_True. }
  assert (∀ v, v ∈ [Issue.no_target nodeId edgeId; Issue.condition_required nodeId edgeId] →
            v ∈ validateFlow (nodes next) (startNodeId next)) as Hboth.
  { intros v Hv. rewrite validateFlow_structure. apply elem_of_app. right.
    apply elem_of_app. left. apply list_elem_of_join. eexists. split.
    2:{ eapply list_elem_of_lookup_2. by apply (node_chunks_lookup _ i n'). }
    unfold node_issues. apply elem_of_app. right. apply elem_of_app. right.
    rewrite edge_part_concat. cbn [app]. apply list_elem_of_join.
    exists (edge_issues (nodes next) n' (FlowEdge.mk edgeId "" "" ∅)). split.
    - unfold edge_issues. cbn. by rewrite <-Hid.
    - apply list_elem_of_fmap. eexists. split; [done|].
      unfold n'. cbn. apply elem_of_app. right. by left. }
  split; apply Hboth.
  - by left.
  - right. by left.
Qed.

Lemma addEdge_is_reported_witness :
  let next := Store.addEdge "edge_1" "welcome" Hook.initialState in
  ("welcome" ∈ FlowNode.id <$> nodes Hook.initialState)
  ∧ validateFlow (nodes next) (startNodeId next)
    = [Issue.no_target "welcome" "edge_1"; Issue.condition_required "welcome" "edge_1"]
  ∧ Issue.no_target "welcome" "edge_1" ∈ validateFlow (nodes next) (startNodeId next).
Proof.
  intros next.
  assert ("welcome" ∈ FlowNode.id <$> nodes Hook.initialState) as Hin by (cbn; by left).
  split; [exact Hin|]. split; [vm_compute; reflexivity|].
  exact (proj1 (addEdge_is_reported "edge_1" "welcome" Hook.initialState Hin)).
Defined.

(** *** Adding a node from the toolbar *)

Lemma find_node_snoc nodes node :
  FlowNode.id node ∉ FlowNode.id <$> nodes →
  find_node (nodes ++ [node]) (FlowNode.id node) = Some node.
Proof.
  induction nodes as [|n nodes IH]; intros Hfresh.
  - cbn [app]. rewrite find_node_cons. by rewrite decide_True.
  - cbn [app]. rewrite find_node_cons. cbn in Hfresh.
    apply not_elem_of_cons in Hfresh as [Hne Hfresh].
    rewrite decide_False by done. by apply IH.
Qed.

(** X28. "Add Node" with no coordinates, on a graph of [n] nodes, appends an
    empty node with the next id of the counter at x = 200 + 20 * ((3 n + 1)
    div 2), the grid point nearest 200 + 30 n, and y = 200 + 20 n; it selects
    that id and clears the edge selection, and the other nodes and the start
    pointer stay as they are. If no node carried the id before, the node the
    sidebar then shows is the new one. *)
Theorem handleAddNode_places_and_selects (w : App.World) :
  let n := Z.of_nat (length (nodes (App.state w))) in
  let id := "node_" +:+ pretty (S (App._counter w)) in
  let node :=
    FlowNode.mk id "" "" [] (200 + 20 * ((3 * n + 1) / 2))%Z (200 + 20 * n)%Z in
  Handlers.handleAddNode None None w
  = App.mk (S (App._counter w))
      (FlowState.mk (nodes (App.state w) ++ [node]) (startNodeId (App.state w)))
      (Some id) None
  ∧ (id ∉ FlowNode.id <$> nodes (App.state w) →
     Handlers.selectedNode (Handlers.handleAddNode None None w) = Some node).
Proof.
  intros n id node.
  assert (snapToGrid (200 + n * 30) = 200 + 20 * ((3 * n + 1) / 2))%Z as Hx.
  { unfold snapToGrid, GRID.
    pose proof (Z.div_mod (3 * n + 1) 2 ltac:(lia)) as Hdm.
    pose proof (Z.mod_pos_bound (3 * n + 1) 2 ltac:(lia)) as Hmod.
    rewrite <-(Z.div_unique (2 * (200 + n * 30) + 20) (2 * 20)
                 (10 + (3 * n + 1) / 2) (20 * ((3 * n + 1) mod 2)))%Z by lia.
    lia. }
  assert (snapToGrid (200 + n * 20) = 200 + 20 * n)%Z as Hy.
  { rewrite HookFacts.snapToGrid_fixes; [lia|]. exists (10 + n)%Z. unfold GRID. lia. }
  assert (Handlers.handleAddNode None None w
          = App.mk (S (App._counter w))
              (FlowState.mk (nodes (App.state w) ++ [node]) (startNodeId (App.state w)))
              (Some id) None) as Hrun.
  { unfold Handlers.handleAddNode, Hook.addNode, Hook.makeNode. cbn [default from_option].
    fold n. ImportFacts.run_M. rewrite HookFacts.generateNodeId_run. ImportFacts.run_M.
    cbn [FlowNode.id]. unfold node, Datatypes.id. by rewrite Hx, Hy. }
  split; [exact Hrun|]. intros Hfresh. rewrite Hrun.
  unfold Handlers.selectedNode. cbn [App.selectedNodeId App.state nodes mbind option_bind].
  by apply (find_node_snoc _ node).
Qed.

End ValidityLaws.

(** ** The overview's global errors *)

Module OverviewFacts.
Import FlowState ValidationError ListFacts ValidateFacts ValidityFacts.

Lemma node_issues_nodeId nodes seen n v :
  v ∈ node_issues nodes seen n → nodeId v = Some (FlowNode.id n).
Proof.
  unfold node_issues. rewrite edge_part_concat. cbn [app].
  rewrite !elem_of_app. intros [Hv|[Hv|Hv]].
  - repeat case_match; try (by apply elem_of_nil in Hv);
      by apply list_elem_of_singleton in Hv as ->.
  - case_match; try (by apply elem_of_nil in Hv);
      by apply list_elem_of_singleton in Hv as ->.
  - apply list_elem_of_join in Hv as (chunk & Hv & Hchunk).
    apply list_elem_of_fmap in Hchunk as (e & -> & _).
    unfold edge_issues in Hv.
    apply elem_of_app in Hv as [Hv|Hv]; repeat case_match;
      try (by apply elem_of_nil in Hv);
      by apply list_elem_of_singleton in Hv as ->.
Qed.

Lemma node_chunks_nodeId nodes v :
  v ∈ mjoin (node_chunks nodes) → ∃ n, n ∈ nodes ∧ nodeId v = Some (FlowNode.id n).
Proof.
  intros Hv. apply list_elem_of_join in Hv as (chunk & Hv & Hchunk).
  apply node_chunks_elem in Hchunk as (i & n & Hn & ->).
  exists n. split; [by eapply list_elem_of_lookup_2|by eapply node_issues_nodeId].
Qed.

Lemma reachability_issues_nodeId nodes startNodeId v :
  v ∈ reachability_issues nodes startNodeId →
  ∃ n, n ∈ nodes ∧ nodeId v = Some (FlowNode.id n).
Proof.
  unfold reachability_issues. intros Hv.
  repeat case_match; try (by apply elem_of_nil in Hv).
  rewrite warnings_fold in Hv. cbn in Hv.
  apply list_elem_of_fmap in Hv as (n & -> & Hn).
  apply list_elem_of_filter in Hn as [_ Hn]. by exists n.
Qed.

(** X29. The overview's global errors, the issues whose [nodeId] is not
    truthy, are exactly the start-pointer issues (none, "No start node
    selected." or "Selected start node no longer exists.") as long as no node
    has the empty string as its id; the issues of a node whose id is the empty
    string count as global errors too. *)
Theorem globalErrors_are_start_issues nodes startNodeId :
  ("" ∉ FlowNode.id <$> nodes →
   Sidebar.globalErrors (validateFlow nodes startNodeId) = global_issues nodes startNodeId)
  ∧ (global_issues nodes startNodeId = []
     ∨ global_issues nodes startNodeId = [Issue.no_start]
     ∨ global_issues nodes startNodeId = [Issue.start_missing])
  ∧ (∀ n, n ∈ nodes → FlowNode.id n = "" →
       Issue.empty_id "" ∈ Sidebar.globalErrors (validateFlow nodes startNodeId)).
Proof.
  split_and!.
  - intros Hids. unfold Sidebar.globalErrors.
    assert (∀ v n, n ∈ nodes → nodeId v = Some (FlowNode.id n) →
              ¬ truthy (nodeId v) = false) as Hnode.
    { intros v n Hn -> Hfalse. apply Hids. apply list_elem_of_fmap. exists n.
      split; [|done]. cbn in Hfalse. apply negb_false_iff, String.eqb_eq in Hfalse.
      done. }
    rewrite validateFlow_structure, !filter_app.
    rewrite (filter_all _ (global_issues nodes startNodeId)).
    2:{ intros v Hv. apply global_issues_no_node in Hv as [-> _]. done. }
    rewrite (filter_none _ (mjoin (node_chunks nodes))).
    2:{ apply Forall_forall. intros v Hv.
        apply node_chunks_nodeId in Hv as (n & Hn & Hv). by eapply Hnode. }
    rewrite (filter_none _ (reachability_issues nodes startNodeId)).
    2:{ apply Forall_forall. intros v Hv.
        apply reachability_issues_nodeId in Hv as (n & Hn & Hv). by eapply Hnode. }
    by rewrite !app_nil_r.
  - unfold global_issues. destruct (truthy startNodeId); cbn [negb]; [|by right; left].
    destruct (includes _ _); cbn [negb]; [by left|by right; right].
  - intros n Hn Hid. unfold Sidebar.globalErrors. apply list_elem_of_filter.
    split; [done|]. rewrite validateFlow_structure. apply elem_of_app. right.
    apply elem_of_app. left. apply list_elem_of_lookup in Hn as [i Hi].
    apply list_elem_of_join. eexists. split.
    2:{ eapply list_elem_of_lookup_2. by apply (node_chunks_lookup _ i n). }
    unfold node_issues. apply elem_of_app. left. rewrite Hid. by left.
Qed.

End OverviewFacts.
